(** * Retail BI system: the ETL transformation (src/02_etl/pipeline.py)

    A shallow embedding of [ETLPipeline.transform], [load] and [run], with the
    pandas operations the method calls written out as list functions.

    Numbers.  Columns that pandas holds as float64 are modelled by exact
    rationals ([Q]) extended with the three IEEE special values that pandas
    arithmetic produces instead of raising ([PInf], [NInf], [NaN]).  Rounding
    error of binary64 is therefore not part of that model, and the statements
    over it are about exact arithmetic.  Where the rounding of binary64
    decides the outcome (the class of a product at a decimal tie), lines
    117-129 are read a second time on binary64 values, in module [B64].

    Time.  A [Timestamp] is its number of nanoseconds since the Unix epoch. *)

From Stdlib Require Import ZArith QArith Qround Lqa Lia List String Ascii Bool.
From Stdlib Require Import Sorting.Permutation Sorting.Sorted.
From Stdlib Require Import DecimalString.
From Stdlib Require Floats Uint63.
Import ListNotations.

Local Open Scope Z_scope.

(* ===================================================================== *)
(** ** Floating values *)
(* ===================================================================== *)

Inductive float : Type :=
| Fin (q : Q)
| PInf
| NInf
| NaN.

(** [a / b] on two float64 values that are both finite: pandas never raises
    on a zero divisor, the quotient is an infinity or NaN. *)
Definition fdiv (a b : Q) : float :=
  if Qeq_bool b 0 then
    match (a ?= 0)%Q with
    | Eq => NaN
    | Gt => PInf
    | Lt => NInf
    end
  else Fin (a / b).

(** [x * 100], the factor being a positive finite constant. *)
Definition fmul100 (x : float) : float :=
  match x with
  | Fin q => Fin (q * 100)
  | other => other
  end.

(** [numpy.rint]: nearest integer, halves to the even neighbour. *)
Definition rint (q : Q) : Z :=
  let f := Qfloor q in
  match (q - inject_Z f ?= 1 # 2)%Q with
  | Lt => f
  | Gt => f + 1
  | Eq => if Z.even f then f else f + 1
  end.

(** [numpy.round(x, 2)] is [rint(x * 100) / 100], here on the exact
    value.  On binary64 the product [x * 100] is itself rounded, so that a
    decimal tie such as 80.005 may fall on either side; [B64.round2] below
    is the binary64 operation. *)
Definition round2 (q : Q) : Q := (inject_Z (rint (q * 100)) / 100)%Q.

(** [Series.round(2)] elementwise: the special values are left alone. *)
Definition fround2 (x : float) : float :=
  match x with
  | Fin q => Fin (round2 q)
  | other => other
  end.

(** [x <= c] for a float [x] and a finite constant [c] (IEEE: any
    comparison with NaN is false). *)
Definition fle_const (x : float) (c : Q) : bool :=
  match x with
  | Fin q => Qle_bool q c
  | NInf => true
  | PInf => false
  | NaN => false
  end.

(** [a < b] on floats. *)
Definition fltb (a b : float) : bool :=
  match a, b with
  | NaN, _ | _, NaN => false
  | PInf, _ => false
  | _, NInf => false
  | NInf, _ => true
  | _, PInf => true
  | Fin x, Fin y => negb (Qle_bool y x)
  end.

(** Equality as [pandas.unique] and [==] on bin edges use it.  The hash
    table behind [unique] identifies NaN with NaN. *)
Definition feqb (a b : float) : bool :=
  match a, b with
  | Fin x, Fin y => Qeq_bool x y
  | PInf, PInf => true
  | NInf, NInf => true
  | NaN, NaN => true
  | _, _ => false
  end.

(** Equality of floats up to the representation of the rational. *)
Definition feq (a b : float) : Prop :=
  match a, b with
  | Fin x, Fin y => (x == y)%Q
  | PInf, PInf => True
  | NInf, NInf => True
  | NaN, NaN => True
  | _, _ => False
  end.

(* ===================================================================== *)
(** ** Calendar fields of a timestamp ([Series.dt]) *)
(* ===================================================================== *)

Definition ns_per_day : Z := 86400 * 1000000000.

(** Days since 1970-01-01 of a timestamp (floor). *)
Definition dia_de (t : Z) : Z := t / ns_per_day.

(** Proleptic Gregorian (year, month) of a day number. *)
Definition civil (dia : Z) : Z * Z :=
  let z := dia + 719468 in
  let era := z / 146097 in
  let doe := z - era * 146097 in
  let yoe := (doe - doe / 1460 + doe / 36524 - doe / 146096) / 365 in
  let doy := doe - (365 * yoe + yoe / 4 - yoe / 100) in
  let mp := (5 * doy + 2) / 153 in
  let m := if mp <? 10 then mp + 3 else mp - 9 in
  let y := yoe + era * 400 in
  (if m <=? 2 then y + 1 else y, m).

(** [.dt.year], [.dt.month], [.dt.dayofweek] (Monday = 0); [None] is the
    NaN that pandas gives for NaT. *)
Definition dt_year (d : option Z) : option Z :=
  option_map (fun t => fst (civil (dia_de t))) d.
Definition dt_month (d : option Z) : option Z :=
  option_map (fun t => snd (civil (dia_de t))) d.
Definition dt_dayofweek (d : option Z) : option Z :=
  option_map (fun t => (dia_de t + 3) mod 7) d.

(** [Timedelta.days] of [a - b]. *)
Definition timedelta_days (a b : Z) : Z := (a - b) / ns_per_day.

(* ===================================================================== *)
(** ** The sales table as [extract] leaves it *)
(* ===================================================================== *)

(** A cell of the [Data_Venda] column after
    [read_csv(..., parse_dates=['Data_Venda'])]: a timestamp, an empty
    cell (NaT), or text that is not a date. *)
Inductive date_cell : Type :=
| DateVal (t : Z)
| DateNaT
| DateText (s : string).

(** A cell of a column that is meant to be numeric: a number, or text. *)
Inductive num_cell : Type :=
| NumVal (q : Q)
| NumText (s : string).

(** One row of [fato_vendas.csv]. *)
Module Linha.
Record t : Type := mk {
  ID_Venda : Z;
  ID_Cliente : Z;
  ID_Produto : Z;
  Data_Venda : date_cell;
  Quantidade : Z;
  Receita_Liquida : num_cell;
  Lucro_Bruto : num_cell
}.
End Linha.

(** One row once the columns are known to be datetime64 and float64. *)
Module Venda.
Record t : Type := mk {
  ID_Venda : Z;
  ID_Cliente : Z;
  ID_Produto : Z;
  Data_Venda : option Z;
  Quantidade : Z;
  Receita_Liquida : Q;
  Lucro_Bruto : Q
}.
End Venda.

(** Python exceptions that the body of [transform] can raise. *)
Inductive exn : Type :=
| AttributeError
| TypeError
| ValueError
| IndexError.

Definition result (A : Type) : Type := (exn + A)%type.

Fixpoint traverse {A B : Type} (f : A -> option B) (l : list A) : option (list B) :=
  match l with
  | [] => Some []
  | a :: r =>
      match f a, traverse f r with
      | Some b, Some bs => Some (b :: bs)
      | _, _ => None
      end
  end.

(** pandas keeps a date column as datetime64 only when every cell parsed;
    one unparseable cell leaves the whole column as dtype object. *)
Definition as_datetime (c : date_cell) : option (option Z) :=
  match c with
  | DateVal t => Some (Some t)
  | DateNaT => Some None
  | DateText _ => None
  end.

Definition as_number (c : num_cell) : option Q :=
  match c with
  | NumVal q => Some q
  | NumText _ => None
  end.

(** [df['Data_Venda'].dt]: the accessor exists on datetime64 columns only.
    [read_csv] leaves the date column of a file without rows as dtype
    object, so the accessor is missing on the empty table too. *)
Definition dt_accessor (df : list Linha.t) : result (list (option Z)) :=
  match df with
  | [] => inl AttributeError
  | _ :: _ =>
      match traverse (fun l => as_datetime (Linha.Data_Venda l)) df with
      | Some ds => inr ds
      | None => inl AttributeError
      end
  end.

Definition tipar (l : Linha.t) : option Venda.t :=
  match as_datetime (Linha.Data_Venda l),
        as_number (Linha.Receita_Liquida l),
        as_number (Linha.Lucro_Bruto l) with
  | Some d, Some r, Some p =>
      Some (Venda.mk (Linha.ID_Venda l) (Linha.ID_Cliente l) (Linha.ID_Produto l)
              d (Linha.Quantidade l) r p)
  | _, _, _ => None
  end.

(** [df['Lucro_Bruto'] / df['Receita_Liquida']]: dividing a column of dtype
    object that holds text raises TypeError. *)
Definition colunas_numericas (df : list Linha.t) : result (list Venda.t) :=
  match traverse tipar df with
  | Some vs => inr vs
  | None => inl TypeError
  end.

(* ===================================================================== *)
(** ** Sale Record Normalizer (lines 52-57) *)
(* ===================================================================== *)

Definition margem_pct (v : Venda.t) : float :=
  fround2 (fmul100 (fdiv (Venda.Lucro_Bruto v) (Venda.Receita_Liquida v))).

(* ===================================================================== *)
(** ** groupby *)
(* ===================================================================== *)

Definition qsum (l : list Q) : Q := fold_right Qplus 0%Q l.
Definition zsum (l : list Z) : Z := fold_right Z.add 0 l.

(** An int64 column is added in 64-bit two's complement: a total outside
    the range wraps around. *)
Definition int64 (z : Z) : Z := (z + 2 ^ 63) mod 2 ^ 64 - 2 ^ 63.

Definition soma_int64 (l : list Z) : Z :=
  fold_left (fun acc x => int64 (acc + x)) l 0.

Fixpoint dropna {A : Type} (l : list (option A)) : list A :=
  match l with
  | [] => []
  | Some a :: r => a :: dropna r
  | None :: r => dropna r
  end.

Section GroupBy.
Context {K A : Type}.
Variable eqb : K -> K -> bool.
Variable ltb : K -> K -> bool.

(** Insert a key into an increasing list of distinct keys. *)
Fixpoint insere (k : K) (ks : list K) : list K :=
  match ks with
  | [] => [k]
  | k' :: r =>
      if eqb k k' then ks
      else if ltb k k' then k :: ks
      else k' :: insere k r
  end.

(** The group keys: distinct, increasing ([sort=True]). *)
Definition chaves (ks : list K) : list K := fold_right insere [] ks.

Definition do_grupo (key : A -> option K) (k : K) (rows : list A) : list A :=
  filter (fun r => match key r with Some k' => eqb k k' | None => false end) rows.

(** [df.groupby(key)]: one group per key present, rows whose key is NaN
    are left out ([dropna=True]). *)
Definition groupby (key : A -> option K) (rows : list A) : list (K * list A) :=
  map (fun k => (k, do_grupo key k rows)) (chaves (dropna (map key rows))).

(** The rows that take part in some group. *)
Definition com_chave (key : A -> option K) (rows : list A) : list A :=
  filter (fun r => match key r with Some _ => true | None => false end) rows.
End GroupBy.

Definition par_eqb (a b : Z * Z) : bool := (fst a =? fst b) && (snd a =? snd b).
Definition par_ltb (a b : Z * Z) : bool :=
  (fst a <? fst b) || ((fst a =? fst b) && (snd a <? snd b)).

(* ===================================================================== *)
(** ** Monthly Aggregator (lines 60-70) *)
(* ===================================================================== *)

Module Mensal.
Record t : Type := mk {
  Ano : Z;
  Mes : Z;
  Receita_Liquida : Q;
  Lucro_Bruto : Q;
  Quantidade : Z;
  Qtd_Vendas : Z;
  Ticket_Medio : float
}.
End Mensal.

Definition chave_mensal (v : Venda.t) : option (Z * Z) :=
  match dt_year (Venda.Data_Venda v), dt_month (Venda.Data_Venda v) with
  | Some a, Some m => Some (a, m)
  | _, _ => None
  end.

Definition agrega_mes (g : (Z * Z) * list Venda.t) : Mensal.t :=
  let '(k, vs) := g in
  let receita := qsum (map Venda.Receita_Liquida vs) in
  let qtd := Z.of_nat (List.length vs) in
  Mensal.mk (fst k) (snd k) receita
    (qsum (map Venda.Lucro_Bruto vs))
    (soma_int64 (map Venda.Quantidade vs))
    qtd
    (fround2 (fdiv receita (inject_Z qtd))).

Definition vendas_mensais_de (vs : list Venda.t) : list Mensal.t :=
  map agrega_mes (groupby par_eqb par_ltb chave_mensal vs).

(* ===================================================================== *)
(** ** The error monad of the statements that can raise *)
(* ===================================================================== *)

Definition ret {A : Type} (a : A) : result A := inr a.

Definition bind {A B : Type} (m : result A) (f : A -> result B) : result B :=
  match m with
  | inl e => inl e
  | inr a => f a
  end.

Declare Scope err_scope.
Delimit Scope err_scope with err.
Notation "x <- m ;; k" := (bind m (fun x => k))
  (at level 61, m at next level, right associativity) : err_scope.

Fixpoint mapM {A B : Type} (f : A -> result B) (l : list A) : result (list B) :=
  match l with
  | [] => ret []
  | a :: r =>
      bind (f a) (fun b => bind (mapM f r) (fun bs => ret (b :: bs)))
  end.

(* ===================================================================== *)
(** ** pandas.qcut (lines 84-86) *)
(* ===================================================================== *)

Fixpoint qinsert (x : Q) (l : list Q) : list Q :=
  match l with
  | [] => [x]
  | y :: r => if Qle_bool x y then x :: l else y :: qinsert x r
  end.

Definition qsort (l : list Q) : list Q := fold_right qinsert [] l.

(** [numpy.linspace(0, 1, q + 1)]. *)
Definition linspace (q : nat) : list Q :=
  map (fun k => (Z.of_nat k # Pos.of_nat q)%Q) (seq 0 (S q)).

(** [Series.quantile(p)], linear interpolation between the two order
    statistics around position [p * (n - 1)]; NaN on an empty series. *)
Definition quantile (vals : list Q) (p : Q) : float :=
  match qsort vals with
  | [] => NaN
  | (s0 :: _) as s =>
      let pos := (p * inject_Z (Z.of_nat (List.length s) - 1))%Q in
      let lo := Qfloor pos in
      let hi := Qceiling pos in
      let a := nth (Z.to_nat lo) s s0 in
      let b := nth (Z.to_nat hi) s s0 in
      Fin (a + (b - a) * (pos - inject_Z lo))%Q
  end.

(** [algos.unique]: the distinct values in order of first appearance. *)
Fixpoint unique (l : list float) : list float :=
  match l with
  | [] => []
  | x :: r => x :: filter (fun y => negb (feqb x y)) (unique r)
  end.

(** [bins.searchsorted(x, side='left')] on increasing [bins]: the number
    of edges strictly below [x]. *)
Definition searchsorted_left (bins : list float) (x : float) : nat :=
  List.length (filter (fun b => fltb b x) bins).

Fixpoint has_duplicates (l : list Z) : bool :=
  match l with
  | [] => false
  | x :: r => existsb (Z.eqb x) r || has_duplicates r
  end.

(** [pd.qcut(x, q, labels=labels, duplicates='drop')].

    [_bins_to_cuts] is called with [right=True, include_lowest=True].  The
    edges are the [q + 1] quantiles; repeated edges are dropped; then the
    number of labels is checked against the number of edges that remain. *)
Definition qcut (x : list (option Q)) (q : nat) (labels : list Z)
  : result (list (option Z)) :=
  let quantiles := linspace q in
  let bins0 := map (quantile (dropna x)) quantiles in
  let unique_bins := unique bins0 in
  let bins :=
    if (List.length unique_bins <? List.length bins0)%nat
       && negb (List.length bins0 =? 2)%nat
    then unique_bins else bins0 in
  let ids :=
    map (fun xi =>
           match xi with
           | None => 0%nat
           | Some v =>
               if feqb (Fin v) (hd NaN bins) then 1%nat
               else searchsorted_left bins (Fin v)
           end) x in
  if has_duplicates labels then inl ValueError
  else if negb (List.length labels =? List.length bins - 1)%nat then inl ValueError
  else
    inr (map (fun i =>
                if (i =? 0)%nat || (i =? List.length bins)%nat then None
                else nth_error labels (i - 1)) ids).

(* ===================================================================== *)
(** ** segment_customer (lines 95-105) *)
(* ===================================================================== *)

Local Open Scope string_scope.

(** [score[i]]: IndexError when out of range. *)
Definition getitem (score : string) (i : nat) : result string :=
  match String.get i score with
  | Some c => inr (String c EmptyString)
  | None => inl IndexError
  end.

Definition pertence (c : string) (l : list string) : bool :=
  existsb (String.eqb c) l.

(** [score[i] in l]. *)
Definition in_at (score : string) (i : nat) (l : list string) : result bool :=
  bind (getitem score i) (fun c => ret (pertence c l)).

(** Python's [and]: the right operand is evaluated only when the left one
    is true. *)
Definition e_and (a b : result bool) : result bool :=
  match a with
  | inl e => inl e
  | inr false => inr false
  | inr true => b
  end.

Definition segment_customer (score : string) : result string :=
  (b1 <- e_and (in_at score 0 ["4"; "5"]) (in_at score 1 ["4"; "5"]) ;;
   if b1 then ret "Champions" else
   b2 <- e_and (in_at score 0 ["3"; "4"; "5"]) (in_at score 1 ["3"; "4"]) ;;
   if b2 then ret "Leais" else
   b3 <- e_and (in_at score 0 ["4"; "5"]) (in_at score 1 ["1"; "2"]) ;;
   if b3 then ret "Potencial" else
   b4 <- e_and (in_at score 0 ["2"; "3"]) (in_at score 1 ["2"; "3"; "4"]) ;;
   if b4 then ret "Em Risco" else
   ret "Perdidos")%err.

(* ===================================================================== *)
(** ** RFM Scorer (lines 73-108) *)
(* ===================================================================== *)

Module RFM.
Record t : Type := mk {
  ID_Cliente : Z;
  Recencia : option Z;
  Frequencia : Z;
  Monetario : Q;
  R_Score : option Z;
  F_Score : option Z;
  M_Score : option Z;
  RFM_Score : string;
  Segmento_RFM : string
}.
End RFM.

(** [x.max()] on a datetime column: NaT cells are skipped, NaT when there
    is nothing else. *)
Definition max_data (ds : list (option Z)) : option Z :=
  match dropna ds with
  | [] => None
  | d :: r => Some (fold_left Z.max r d)
  end.

(** [(hoje - x.max()).days]; NaN when the maximum is NaT. *)
Definition recencia (hoje : Z) (ds : list (option Z)) : option Z :=
  option_map (fun m => timedelta_days hoje m) (max_data ds).

(** The four columns after [groupby('ID_Cliente').agg(...).reset_index()]:
    (ID_Cliente, Recencia, Frequencia, Monetario). *)
Definition agrega_cliente (hoje : Z) (g : Z * list Venda.t)
  : Z * option Z * Z * Q :=
  let '(k, vs) := g in
  (k,
   recencia hoje (map Venda.Data_Venda vs),
   Z.of_nat (List.length vs),
   qsum (map Venda.Receita_Liquida vs)).

Definition clientes_de (hoje : Z) (vs : list Venda.t) : list (Z * option Z * Z * Q) :=
  map (agrega_cliente hoje)
      (groupby Z.eqb Z.ltb (fun v => Some (Venda.ID_Cliente v)) vs).

(** [str] of a score label. *)
Definition str_int (k : Z) : string := NilZero.string_of_int (Z.to_int k).

(** [Series.astype(str)] on a categorical of integer labels, as pandas 2
    does it: a missing label becomes the text "nan".  (From pandas 3 on
    the missing label stays missing, and so does the concatenated key.) *)
Definition astype_str (s : option Z) : string :=
  match s with
  | Some k => str_int k
  | None => "nan"
  end.

Definition linha_rfm (c : Z * option Z * Z * Q) (s : option Z * (option Z * option Z))
  : result RFM.t :=
  let '(id, rec, freq, mon) := c in
  let '(r, (f, m)) := s in
  let score := astype_str r ++ astype_str f ++ astype_str m in
  bind (segment_customer score) (fun seg =>
  ret (RFM.mk id rec freq mon r f m score seg)).

Definition rfm_de (hoje : Z) (vs : list Venda.t) : result (list RFM.t) :=
  let rfm := clientes_de hoje vs in
  (r <- qcut (map (fun c => option_map inject_Z (snd (fst (fst c)))) rfm) 5 [5; 4; 3; 2; 1]%Z ;;
   f <- qcut (map (fun c => Some (inject_Z (snd (fst c)))) rfm) 5 [1; 2; 3; 4; 5]%Z ;;
   m <- qcut (map (fun c => Some (snd c)) rfm) 5 [1; 2; 3; 4; 5]%Z ;;
   mapM (fun cs => linha_rfm (fst cs) (snd cs))
        (combine rfm (combine r (combine f m))))%err.

(* ===================================================================== *)
(** ** ABC Classifier (lines 111-130) *)
(* ===================================================================== *)

Module Produto.
Record t : Type := mk {
  ID_Produto : Z;
  Receita_Liquida : Q;
  Quantidade : Z
}.
End Produto.

Module ABC.
Record t : Type := mk {
  ID_Produto : Z;
  Receita_Liquida : Q;
  Quantidade : Z;
  Receita_Acumulada : Q;
  Pct_Acumulado : float;
  Classe_ABC : string
}.
End ABC.

Definition classificar_abc (pct : float) : string :=
  if fle_const pct 80 then "A"
  else if fle_const pct 95 then "B"
  else "C".

Definition agrega_produto (g : Z * list Venda.t) : Produto.t :=
  let '(k, vs) := g in
  Produto.mk k (qsum (map Venda.Receita_Liquida vs))
             (soma_int64 (map Venda.Quantidade vs)).

(** [groupby('ID_Produto').agg(...).reset_index()]: one row per product,
    by increasing product id. *)
Definition produtos_de (vs : list Venda.t) : list Produto.t :=
  map agrega_produto
      (groupby Z.eqb Z.ltb (fun v => Some (Venda.ID_Produto v)) vs).

Definition receita_total (ps : list Produto.t) : Q :=
  qsum (map Produto.Receita_Liquida ps).

(** Lines 117-129 on the sorted table, row by row: [acc] is the running
    [cumsum] before the row, [total] is [total_receita]. *)
Fixpoint acumula (total acc : Q) (ps : list Produto.t) : list ABC.t :=
  match ps with
  | [] => []
  | p :: r =>
      let c := (acc + Produto.Receita_Liquida p)%Q in
      let pct := fround2 (fmul100 (fdiv c total)) in
      ABC.mk (Produto.ID_Produto p) (Produto.Receita_Liquida p) (Produto.Quantidade p)
             c pct (classificar_abc pct)
      :: acumula total c r
  end.

(** The descending order on revenue that [sort_values] establishes. *)
Definition receita_desc (a b : Produto.t) : Prop :=
  (Produto.Receita_Liquida b <= Produto.Receita_Liquida a)%Q.

Section Pipeline.

(** [DataFrame.sort_values('Receita_Liquida', ascending=False)] with the
    default [kind='quicksort'].  numpy documents that kind as not stable,
    and which routine runs depends on the array length and on the CPU the
    library was built for, so the source does not fix the order of rows
    with equal revenue.  The sort is a parameter of the model; what is
    known of it is [sort_values_ok] below. *)
Variable sort_values : list Produto.t -> list Produto.t.

Definition abc_de (vs : list Venda.t) : list ABC.t :=
  let vendas_produto := sort_values (produtos_de vs) in
  acumula (receita_total vendas_produto) 0%Q vendas_produto.

(* =================================================================== *)
(** ** The pipeline object and [transform] *)
(* =================================================================== *)

(** The attributes of [self] that [transform] reads and writes.  The
    columns added to [self.fato_vendas] and the three derived tables are
    [None] until they are assigned. *)
Record ETLPipeline : Type := mkETL {
  fato_vendas : list Linha.t;
  col_Ano : option (list (option Z));
  col_Mes : option (list (option Z));
  col_Dia_Semana : option (list (option Z));
  col_Margem_Pct : option (list float);
  vendas_mensais : option (list Mensal.t);
  rfm_clientes : option (list RFM.t);
  abc_produtos : option (list ABC.t)
}.

Definition extraido (df : list Linha.t) : ETLPipeline :=
  mkETL df None None None None None None None.

(** Statements: they may raise, and what they assigned before stays. *)
Definition M (A : Type) : Type := ETLPipeline -> result A * ETLPipeline.

Definition mret {A : Type} (a : A) : M A := fun s => (inr a, s).

Definition mbind {A B : Type} (m : M A) (f : A -> M B) : M B :=
  fun s =>
    match m s with
    | (inl e, s') => (inl e, s')
    | (inr a, s') => f a s'
    end.

Definition lift {A : Type} (r : result A) : M A := fun s => (r, s).

Definition gets {A : Type} (f : ETLPipeline -> A) : M A := fun s => (inr (f s), s).

Definition modify (f : ETLPipeline -> ETLPipeline) : M unit :=
  fun s => (inr tt, f s).

Declare Scope etl_scope.
Delimit Scope etl_scope with etl.
Notation "x <- m ;; k" := (mbind m (fun x => k))
  (at level 61, m at next level, right associativity) : etl_scope.
Notation "m ;; k" := (mbind m (fun _ => k))
  (at level 61, right associativity) : etl_scope.

Definition set_Ano v : M unit :=
  modify (fun s => mkETL (fato_vendas s) (Some v) (col_Mes s) (col_Dia_Semana s)
                     (col_Margem_Pct s) (vendas_mensais s) (rfm_clientes s) (abc_produtos s)).
Definition set_Mes v : M unit :=
  modify (fun s => mkETL (fato_vendas s) (col_Ano s) (Some v) (col_Dia_Semana s)
                     (col_Margem_Pct s) (vendas_mensais s) (rfm_clientes s) (abc_produtos s)).
Definition set_Dia_Semana v : M unit :=
  modify (fun s => mkETL (fato_vendas s) (col_Ano s) (col_Mes s) (Some v)
                     (col_Margem_Pct s) (vendas_mensais s) (rfm_clientes s) (abc_produtos s)).
Definition set_Margem_Pct v : M unit :=
  modify (fun s => mkETL (fato_vendas s) (col_Ano s) (col_Mes s) (col_Dia_Semana s)
                     (Some v) (vendas_mensais s) (rfm_clientes s) (abc_produtos s)).
Definition set_vendas_mensais v : M unit :=
  modify (fun s => mkETL (fato_vendas s) (col_Ano s) (col_Mes s) (col_Dia_Semana s)
                     (col_Margem_Pct s) (Some v) (rfm_clientes s) (abc_produtos s)).
Definition set_rfm_clientes v : M unit :=
  modify (fun s => mkETL (fato_vendas s) (col_Ano s) (col_Mes s) (col_Dia_Semana s)
                     (col_Margem_Pct s) (vendas_mensais s) (Some v) (abc_produtos s)).
Definition set_abc_produtos v : M unit :=
  modify (fun s => mkETL (fato_vendas s) (col_Ano s) (col_Mes s) (col_Dia_Semana s)
                     (col_Margem_Pct s) (vendas_mensais s) (rfm_clientes s) (Some v)).

(** The body of the [try] block of [transform].  [agora] is what
    [pd.Timestamp.now()] returns when line 73 runs. *)
Definition transform_body (agora : Z) : M unit :=
  (df <- gets fato_vendas ;;
   datas <- lift (dt_accessor df) ;;
   set_Ano (map dt_year datas) ;;
   set_Mes (map dt_month datas) ;;
   set_Dia_Semana (map dt_dayofweek datas) ;;
   vs <- lift (colunas_numericas df) ;;
   set_Margem_Pct (map margem_pct vs) ;;
   set_vendas_mensais (vendas_mensais_de vs) ;;
   let hoje := agora in
   rfm <- lift (rfm_de hoje vs) ;;
   set_rfm_clientes rfm ;;
   set_abc_produtos (abc_de vs) ;;
   mret tt)%etl.

(** [transform]: [except Exception] turns every exception of the body
    into the return value [False]; nothing is re-raised. *)
Definition transform (agora : Z) (self : ETLPipeline) : bool * ETLPipeline :=
  match transform_body agora self with
  | (inr _, s) => (true, s)
  | (inl _, s) => (false, s)
  end.

(* =================================================================== *)
(** ** [load] and [run] *)
(* =================================================================== *)

(** [self.fato_vendas] as a table: the extracted rows and the derived
    columns assigned so far. *)
Record TabelaFato : Type := mkFato {
  linhas : list Linha.t;
  Ano : option (list (option Z));
  Mes : option (list (option Z));
  Dia_Semana : option (list (option Z));
  Margem_Pct : option (list float)
}.

Definition tabela_fato (self : ETLPipeline) : TabelaFato :=
  mkFato (fato_vendas self) (col_Ano self) (col_Mes self) (col_Dia_Semana self)
         (col_Margem_Pct self).

(** The files of the output directory that [load] writes. *)
Record Saida : Type := mkSaida {
  vendas_mensais_csv : option (list Mensal.t);
  rfm_clientes_csv : option (list RFM.t);
  abc_produtos_csv : option (list ABC.t);
  fato_vendas_csv : option TabelaFato
}.

Definition nada_escrito : Saida := mkSaida None None None None.

(** [load]: the four [to_csv] calls in order; reading an attribute that
    was never assigned raises AttributeError, caught like the others.  The
    output directory is taken to exist and to be writable: a [to_csv] that
    fails on the file system is not part of this model. *)
Definition load (self : ETLPipeline) (d : Saida) : bool * Saida :=
  match vendas_mensais self with
  | None => (false, d)
  | Some vm =>
      let d1 := mkSaida (Some vm) (rfm_clientes_csv d) (abc_produtos_csv d)
                        (fato_vendas_csv d) in
      match rfm_clientes self with
      | None => (false, d1)
      | Some rfm =>
          let d2 := mkSaida (vendas_mensais_csv d1) (Some rfm) (abc_produtos_csv d1)
                            (fato_vendas_csv d1) in
          match abc_produtos self with
          | None => (false, d2)
          | Some abc =>
              (true, mkSaida (vendas_mensais_csv d2) (rfm_clientes_csv d2)
                             (Some abc) (Some (tabela_fato self)))
          end
      end
  end.

(** [run] once [extract] has read the sales table [df] (a failed
    [extract] returns False before anything else happens). *)
Definition run (agora : Z) (df : list Linha.t) (d : Saida) : bool * Saida :=
  let self := extraido df in
  let '(ok, self') := transform agora self in
  if negb ok then (false, d)
  else
    let '(ok', d') := load self' d in
    if negb ok' then (false, d') else (true, d').

End Pipeline.

(** What is known of [sort_values]: it rearranges the rows and leaves them
    in non-increasing order of revenue. *)
Definition sort_values_ok (sort_values : list Produto.t -> list Produto.t) : Prop :=
  forall ps, Permutation ps (sort_values ps) /\ Sorted receita_desc (sort_values ps).

(** A sort that meets [sort_values_ok]: insertion by decreasing revenue;
    with [strict] false, rows of equal revenue keep their incoming order. *)
Fixpoint pinsert (strict : bool) (p : Produto.t) (l : list Produto.t) : list Produto.t :=
  match l with
  | [] => [p]
  | y :: r =>
      let antes :=
        if strict
        then negb (Qle_bool (Produto.Receita_Liquida p) (Produto.Receita_Liquida y))
        else Qle_bool (Produto.Receita_Liquida y) (Produto.Receita_Liquida p) in
      if antes then p :: l else y :: pinsert strict p r
  end.

Definition sort_estavel (ps : list Produto.t) : list Produto.t :=
  fold_right (pinsert false) [] ps.

(* ===================================================================== *)
(** ** The segment rule chain as the specification words it *)
(* ===================================================================== *)

(** The five labels of the specification. *)
Inductive Segmento : Type :=
| Champions
| Loyal
| Potential
| At_Risk
| Lost.

Definition entre (x : Z) (l : list Z) : bool := existsb (Z.eqb x) l.

(** The ordered rules over the (R score, F score) key, first match wins. *)
Definition segmento_spec (r f : Z) : Segmento :=
  if entre r [4; 5] && entre f [4; 5] then Champions
  else if entre r [3; 4; 5] && entre f [3; 4] then Loyal
  else if entre r [4; 5] && entre f [1; 2] then Potential
  else if entre r [2; 3] && entre f [2; 3; 4] then At_Risk
  else Lost.

(** The same on scores that may be missing: a missing score matches no
    rule. *)
Definition segmento_da_chave (r f : option Z) : Segmento :=
  match r, f with
  | Some r, Some f => segmento_spec r f
  | _, _ => Lost
  end.

(** The text the program writes for each label (the source is in
    Portuguese). *)
Definition rotulo (s : Segmento) : string :=
  match s with
  | Champions => "Champions"
  | Loyal => "Leais"
  | Potential => "Potencial"
  | At_Risk => "Em Risco"
  | Lost => "Perdidos"
  end.

(** The five labels as the specification writes them. *)
Definition rotulos_do_spec : list string :=
  ["Champions"; "Loyal"; "Potential"; "At Risk"; "Lost"].

(** The five labels as [segment_customer] returns them. *)
Definition rotulos_do_programa : list string :=
  ["Champions"; "Leais"; "Potencial"; "Em Risco"; "Perdidos"].

(** The ordered rules over the (R score, F score) key with the labels of
    the program, first match wins. *)
Definition cadeia_de_regras (r f : Z) : string :=
  if entre r [4; 5] && entre f [4; 5] then "Champions"
  else if entre r [3; 4; 5] && entre f [3; 4] then "Leais"
  else if entre r [4; 5] && entre f [1; 2] then "Potencial"
  else if entre r [2; 3] && entre f [2; 3; 4] then "Em Risco"
  else "Perdidos".

(** The net revenue of all the sale records of the input table. *)
Definition receita_das_linhas (df : list Linha.t) : Q :=
  qsum (dropna (map (fun l => as_number (Linha.Receita_Liquida l)) df)).

(** A sale record with a date and numeric revenue and profit. *)
Definition linha_valida (l : Linha.t) : Prop :=
  exists t q p,
    Linha.Data_Venda l = DateVal t /\
    Linha.Receita_Liquida l = NumVal q /\
    Linha.Lucro_Bruto l = NumVal p.

(* ===================================================================== *)
(** ** Sample tables *)
(* ===================================================================== *)

Definition meia_noite (d : Z) : Z := d * ns_per_day.

Definition linha (id cliente produto dia : Z) (receita lucro : Q) : Linha.t :=
  Linha.mk id cliente produto (DateVal (meia_noite dia)) 1 (NumVal receita) (NumVal lucro).

(** Three sales, two customers, two products (8 and 9 January 2022). *)
Definition vendas_ex : list Linha.t :=
  [ linha 1 1 10 19000 100 40;
    linha 2 1 10 19001 200 80;
    linha 3 2 20 19000 50 10 ].

(** A reading of the clock on 18 January 2022. *)
Definition relogio_ex : Z := meia_noite 19010 + 5.

(** Sales with no net revenue: with a profit, with none, with a loss. *)
Definition vendas_receita_zero : list Linha.t :=
  [ linha 1 1 10 19000 0 10;
    linha 2 1 10 19000 0 0;
    linha 3 1 10 19000 0 (-5);
    linha 4 1 10 19001 200 80;
    linha 5 2 20 19000 50 10 ].

(** The first sale has text where the net revenue should be. *)
Definition vendas_texto : list Linha.t :=
  [ Linha.mk 1 1 10 (DateVal (meia_noite 19000)) 1 (NumText "n/d") (NumVal 40);
    linha 2 1 10 19001 200 80;
    linha 3 2 20 19000 50 10 ].

(** The sales of [vendas_ex] and a fourth one with no date. *)
Definition vendas_sem_data : list Linha.t :=
  [ linha 1 1 10 19000 100 40;
    linha 2 1 10 19001 200 80;
    linha 3 2 20 19000 50 10;
    Linha.mk 4 1 10 DateNaT 1 (NumVal 70) (NumVal 7) ].

(** Three customers with one purchase each. *)
Definition vendas_uma_compra : list Linha.t :=
  [ linha 1 1 10 19000 100 40;
    linha 2 2 10 19001 200 80;
    linha 3 3 20 19002 50 10 ].

(** As [vendas_ex], the only sale of customer 2 being made at noon. *)
Definition vendas_meio_dia : list Linha.t :=
  [ linha 1 1 10 19000 100 40;
    linha 2 1 10 19001 200 80;
    Linha.mk 3 2 20 (DateVal (meia_noite 19000 + 12 * 3600 * 1000000000)) 1
             (NumVal 50) (NumVal 10) ].

(** A record with text in the date column or in one of the two numeric
    columns. *)
Definition linha_com_texto (l : Linha.t) : Prop :=
  (exists s, Linha.Data_Venda l = DateText s) \/
  (exists s, Linha.Receita_Liquida l = NumText s) \/
  (exists s, Linha.Lucro_Bruto l = NumText s).

(** The columns of an RFM row that do not involve the recency. *)
Definition sem_recencia (row : RFM.t) : Z * Z * Q * option Z * option Z :=
  (RFM.ID_Cliente row, RFM.Frequencia row, RFM.Monetario row,
   RFM.F_Score row, RFM.M_Score row).

(** The same columns, read off a customer of the aggregated table zipped
    with its three scores. *)
Definition sem_recencia_de (cs : (Z * option Z * Z * Q) * (option Z * (option Z * option Z)))
  : Z * Z * Q * option Z * option Z :=
  (fst (fst (fst (fst cs))), snd (fst (fst cs)), snd (fst cs),
   fst (snd (snd cs)), snd (snd (snd cs))).

(* ===================================================================== *)
(** ** Reading the tables *)
(* ===================================================================== *)

(** A sale that has a date. *)
Definition tem_data (v : Venda.t) : bool :=
  match Venda.Data_Venda v with
  | Some _ => true
  | None => false
  end.

(** The order of the group keys (year, month) as a proposition. *)
Definition mes_antes (a b : Z * Z) : Prop :=
  fst a < fst b \/ (fst a = fst b /\ snd a < snd b).

(** The rank of a class letter: A before B before C. *)
Definition nivel_classe (c : string) : Z :=
  if String.eqb c "A" then 0
  else if String.eqb c "B" then 1
  else 2.

(* ===================================================================== *)
(** ** The parts of [qcut], named *)
(* ===================================================================== *)

(** The bin edges [qcut] works with: the quantiles, or the distinct ones
    when some coincide. *)
Definition arestas (x : list (option Q)) (q : nat) : list float :=
  let bins0 := map (quantile (dropna x)) (linspace q) in
  let unique_bins := unique bins0 in
  if (List.length unique_bins <? List.length bins0)%nat
     && negb (List.length bins0 =? 2)%nat
  then unique_bins else bins0.

(** The bin index of a value ([ids], with [include_lowest]). *)
Definition indice (bins : list float) (xi : option Q) : nat :=
  match xi with
  | None => 0%nat
  | Some v =>
      if feqb (Fin v) (hd NaN bins) then 1%nat
      else searchsorted_left bins (Fin v)
  end.

(** The label of a bin index; none outside the bins. *)
Definition rotular (bins : list float) (labels : list Z) (i : nat) : option Z :=
  if (i =? 0)%nat || (i =? List.length bins)%nat then None
  else nth_error labels (i - 1).

(* ===================================================================== *)
(** ** [extract] and the whole of [run] (lines 27-44, 173-187) *)
(* ===================================================================== *)

(** The input directory as [extract] meets it: whether each of the five
    dimension tables can be read, and the sales table when it can. *)
Record Entrada : Type := mkEntrada {
  dim_tempo_csv : bool;
  dim_produto_csv : bool;
  dim_loja_csv : bool;
  dim_cliente_csv : bool;
  dim_vendedor_csv : bool;
  fato_vendas_lido : option (list Linha.t)
}.

(** [extract]: six [read_csv] calls inside one [try], in this order; the
    first one that raises makes the method return False ([None] here). *)
Definition extract (e : Entrada) : option (list Linha.t) :=
  if negb (dim_tempo_csv e) then None
  else if negb (dim_produto_csv e) then None
  else if negb (dim_loja_csv e) then None
  else if negb (dim_cliente_csv e) then None
  else if negb (dim_vendedor_csv e) then None
  else fato_vendas_lido e.

(** [run] from its first line. *)
Definition run_completo (sort_values : list Produto.t -> list Produto.t)
           (agora : Z) (e : Entrada) (d : Saida) : bool * Saida :=
  match extract e with
  | None => (false, d)
  | Some df => run sort_values agora df d
  end.

(* ===================================================================== *)
(** ** The pipeline as a script, and [run_pipeline.py] *)
(* ===================================================================== *)

(** What became of a child process: it ended with an exit code, or
    [subprocess.run] could not start it. *)
Inductive processo : Type :=
| Terminou (codigo : Z)
| NaoIniciou.

(** [run_step]: [subprocess.run(..., check=True)] raises on a non-zero exit
    code; that and any other exception give False. *)
Definition run_step (p : processo) : bool :=
  match p with
  | Terminou 0 => true
  | _ => false
  end.

Module Passo.
Record t : Type := mk {
  script : string;
  required : bool
}.
End Passo.

Definition gerador_py : string := "01_data/synthetic_generator.py".
Definition etl_py : string := "02_etl/pipeline.py".
Definition ml_py : string := "03_ml/models_training.py".

(** The [steps] of [main] (their descriptions are only printed). *)
Definition steps : list Passo.t :=
  [ Passo.mk gerador_py true;
    Passo.mk etl_py true;
    Passo.mk ml_py false ].

(** How [main] ends: it returns after the summary, or [sys.exit]. *)
Inductive fim : Type :=
| Concluiu (success_count : nat)
| Saiu (codigo : Z).

(** The loop of [main]: [ambiente] tells what running a script does,
    [executados] collects the scripts run, latest first. *)
Fixpoint percorre (ambiente : string -> processo) (passos : list Passo.t)
         (executados : list string) (success_count : nat) : list string * fim :=
  match passos with
  | [] => (executados, Concluiu success_count)
  | step :: resto =>
      let executados' := Passo.script step :: executados in
      if run_step (ambiente (Passo.script step))
      then percorre ambiente resto executados' (S success_count)
      else if Passo.required step then (executados', Saiu 1)
      else percorre ambiente resto executados' success_count
  end.

(** The names [check_dependencies] passes to [__import__]. *)
Definition required_packages : list string :=
  ["pandas"; "numpy"; "faker"; "scikit-learn"; "fastapi"; "uvicorn"].

(** [check_dependencies]: [importavel p] tells whether [__import__(p)]
    finds a module named [p]; the names that raise ImportError are
    collected and the check fails when there is one. *)
Definition check_dependencies (importavel : string -> bool) : bool :=
  let missing := filter (fun p => negb (importavel p)) required_packages in
  match missing with
  | [] => true
  | _ :: _ => false
  end.

(** [main]: the dependency check, then the steps. *)
Definition main (importavel : string -> bool) (ambiente : string -> processo)
  : list string * fim :=
  if negb (check_dependencies importavel) then ([], Saiu 1)
  else percorre ambiente steps [] 0.

(* ===================================================================== *)
(** ** The query layer (src/05_api/main.py) *)
(* ===================================================================== *)

Inductive resposta (A : Type) : Type :=
| Ok200 (corpo : A)
| Erro (status : Z).
Arguments Ok200 {A} corpo.
Arguments Erro {A} status.

Module VendaMensal.
Record t : Type := mk {
  ano : Z;
  mes : Z;
  receita : Q;
  lucro : Q;
  qtd_vendas : Z;
  ticket_medio : float
}.
End VendaMensal.

(** [carregar_dados]: the four files it reads, in its order; [None] when a
    read raises.  The tables are taken to read back as [load] wrote
    them. *)
Definition carregar_dados (dim_produto_ok : bool) (d : Saida)
  : option (TabelaFato * list RFM.t * list Mensal.t) :=
  match fato_vendas_csv d with
  | None => None
  | Some fato =>
      if negb dim_produto_ok then None
      else
        match rfm_clientes_csv d with
        | None => None
        | Some rfm =>
            match vendas_mensais_csv d with
            | None => None
            | Some vm => Some (fato, rfm, vm)
            end
        end
  end.

(** [DataFrame.head(n)]: the first [n] rows; all but the last [-n] when
    [n] is negative. *)
Definition head {A : Type} (n : Z) (l : list A) : list A :=
  if (0 <=? n)%Z then firstn (Z.to_nat n) l
  else firstn (List.length l - Z.to_nat (- n)) l.

Definition chave_de (m : Mensal.t) : Z * Z := (Mensal.Ano m, Mensal.Mes m).

(** [sort_values(['Ano', 'Mes'], ascending=False)]: with several keys
    pandas sorts lexicographically and stably. *)
Fixpoint insere_desc (m : Mensal.t) (l : list Mensal.t) : list Mensal.t :=
  match l with
  | [] => [m]
  | y :: r =>
      if par_ltb (chave_de m) (chave_de y) then y :: insere_desc m r
      else m :: l
  end.

Definition ordena_desc (l : list Mensal.t) : list Mensal.t :=
  fold_right insere_desc [] l.

Definition venda_mensal (m : Mensal.t) : VendaMensal.t :=
  VendaMensal.mk (Mensal.Ano m) (Mensal.Mes m) (Mensal.Receita_Liquida m)
                 (Mensal.Lucro_Bruto m) (Mensal.Qtd_Vendas m) (Mensal.Ticket_Medio m).

(** [GET /vendas/mensais].  [limit] is declared [Query(default=12, le=100)]:
    a larger value is refused with 422 before the function runs.  Any
    exception in the body becomes a 500. *)
Definition get_vendas_mensais (dim_produto_ok : bool) (d : Saida)
           (ano : option Z) (limit : Z) : resposta (list VendaMensal.t) :=
  if (100 <? limit)%Z then Erro 422
  else
    match carregar_dados dim_produto_ok d with
    | None => Erro 500
    | Some (_, _, vendas_mensais) =>
        let filtradas :=
          match ano with
          | None => vendas_mensais
          | Some a =>
              if (a =? 0)%Z then vendas_mensais
              else filter (fun m => (Mensal.Ano m =? a)%Z) vendas_mensais
          end in
        Ok200 (map venda_mensal (head limit (ordena_desc filtradas)))
    end.

(** Row [a] does not come before row [b] in (year, month) order. *)
Definition nao_antes (a b : Mensal.t) : Prop :=
  par_ltb (chave_de a) (chave_de b) = false.

(** The rows that the [if ano:] filter of [get_vendas_mensais] keeps. *)
Definition do_ano (ano : option Z) (m : Mensal.t) : bool :=
  match ano with
  | None => true
  | Some a => (a =? 0)%Z || (Mensal.Ano m =? a)%Z
  end.

(** The three sales of [vendas_ex] with their columns typed. *)
Definition vendas_ex_tipadas : list Venda.t :=
  [ Venda.mk 1 1 10 (Some (meia_noite 19000)) 1 100 40;
    Venda.mk 2 1 10 (Some (meia_noite 19001)) 1 200 80;
    Venda.mk 3 2 20 (Some (meia_noite 19000)) 1 50 10 ].

(* ===================================================================== *)
(** ** Lines 117-129 on binary64 values *)
(* ===================================================================== *)

Module B64.

Definition of_Z (z : Z) : PrimFloat.float := PrimFloat.of_uint63 (Uint63.of_Z z).

Definition dois_52 : PrimFloat.float := of_Z (2 ^ 52).

(** [numpy.rint] in the default rounding mode.  Below 2^52 in magnitude,
    adding and then subtracting 2^52 leaves the nearest integer, a half
    going to the even neighbour; from 2^52 on every value is an integer.
    Zeros, infinities and NaN are returned as they are. *)
Definition rint (x : PrimFloat.float) : PrimFloat.float :=
  if PrimFloat.eqb x PrimFloat.zero then x
  else if PrimFloat.ltb (PrimFloat.abs x) dois_52 then
    if PrimFloat.ltb x PrimFloat.zero
    then PrimFloat.opp
           (PrimFloat.sub (PrimFloat.add (PrimFloat.opp x) dois_52) dois_52)
    else PrimFloat.sub (PrimFloat.add x dois_52) dois_52
  else x.

(** [numpy.round(x, 2)]: multiply by 100, [rint], divide by 100. *)
Definition round2 (x : PrimFloat.float) : PrimFloat.float :=
  PrimFloat.div (rint (PrimFloat.mul x (of_Z 100))) (of_Z 100).

Definition classificar_abc (pct : PrimFloat.float) : string :=
  if PrimFloat.leb pct (of_Z 80) then "A"
  else if PrimFloat.leb pct (of_Z 95) then "B"
  else "C".

(** A row of the sorted [vendas_produto], and a row of the ABC table. *)
Record produto : Type := mk_produto {
  ID_Produto : Z;
  Receita_Liquida : PrimFloat.float
}.

Record linha : Type := mk_linha {
  produto_de : produto;
  Receita_Acumulada : PrimFloat.float;
  Pct_Acumulado : PrimFloat.float;
  Classe_ABC : string
}.

Definition pct_acumulado (c total : PrimFloat.float) : PrimFloat.float :=
  round2 (PrimFloat.mul (PrimFloat.div c total) (of_Z 100)).

(** Lines 117-129 row by row: [acc] is the running [cumsum] before the
    row and [total] is the value of [total_receita].  [cumsum] skips a NaN
    revenue: the row gets NaN and the running sum goes on without it. *)
Fixpoint acumula (total acc : PrimFloat.float) (ps : list produto) : list linha :=
  match ps with
  | [] => []
  | p :: r =>
      if PrimFloat.is_nan (Receita_Liquida p) then
        let pct := pct_acumulado PrimFloat.nan total in
        mk_linha p PrimFloat.nan pct (classificar_abc pct) :: acumula total acc r
      else
        let c := PrimFloat.add acc (Receita_Liquida p) in
        let pct := pct_acumulado c total in
        mk_linha p c pct (classificar_abc pct) :: acumula total c r
  end.

End B64.



(* ===================================================================== *)
(** * Properties *)
(* ===================================================================== *)

(** ** The model on the worked examples *)

Example limiares_abc :
  map classificar_abc [Fin (799 # 10); Fin 80; Fin (801 # 10); Fin 95; Fin (951 # 10)]
  = ["A"; "A"; "B"; "B"; "C"].
Proof. reflexivity. Qed.

Example exemplo_mensal :
  option_map
    (map (fun m => (Mensal.Ano m, Mensal.Mes m, Mensal.Receita_Liquida m,
                    Mensal.Lucro_Bruto m, Mensal.Qtd_Vendas m, Mensal.Ticket_Medio m)))
    (vendas_mensais (snd (transform sort_estavel relogio_ex (extraido vendas_ex))))
  = Some [(2022, 1, 350%Q, 130%Q, 3, Fin (11667 # 100))].
Proof. vm_compute. reflexivity. Qed.

Example exemplo_abc :
  option_map
    (map (fun r => (ABC.ID_Produto r, ABC.Receita_Liquida r, ABC.Pct_Acumulado r,
                    ABC.Classe_ABC r)))
    (abc_produtos (snd (transform sort_estavel relogio_ex (extraido vendas_ex))))
  = Some [(10, 300%Q, Fin (8571 # 100), "B"%string); (20, 50%Q, Fin (10000 # 100), "C")].
Proof. vm_compute. reflexivity. Qed.

Example exemplo_segmentos :
  map segment_customer ["555"; "343"; "512"; "241"; "151"; "nan32"]
  = [inr "Champions"; inr "Leais"; inr "Potencial"; inr "Em Risco";
     inr "Perdidos"; inr "Perdidos"].
Proof. reflexivity. Qed.

(** ** How [transform] succeeds *)

(** [transform] on an object with its attributes spelled out: the three
    statements that can raise, and what is assigned when each does. *)
Lemma transform_eq sort_values agora f a b c d e g h :
  transform sort_values agora (mkETL f a b c d e g h)
  = match dt_accessor f with
    | inl _ => (false, mkETL f a b c d e g h)
    | inr datas =>
        match colunas_numericas f with
        | inl _ =>
            (false, mkETL f (Some (map dt_year datas)) (Some (map dt_month datas))
                          (Some (map dt_dayofweek datas)) d e g h)
        | inr vs =>
            match rfm_de agora vs with
            | inl _ =>
                (false, mkETL f (Some (map dt_year datas)) (Some (map dt_month datas))
                              (Some (map dt_dayofweek datas)) (Some (map margem_pct vs))
                              (Some (vendas_mensais_de vs)) g h)
            | inr rfm =>
                (true, mkETL f (Some (map dt_year datas)) (Some (map dt_month datas))
                             (Some (map dt_dayofweek datas)) (Some (map margem_pct vs))
                             (Some (vendas_mensais_de vs)) (Some rfm)
                             (Some (abc_de sort_values vs)))
            end
        end
    end.
Proof.
  cbv beta iota zeta delta [transform transform_body mbind lift gets mret
    set_Ano set_Mes set_Dia_Semana set_Margem_Pct set_vendas_mensais
    set_rfm_clientes set_abc_produtos modify
    fato_vendas col_Ano col_Mes col_Dia_Semana col_Margem_Pct
    vendas_mensais rfm_clientes abc_produtos].
  destruct (dt_accessor f) as [x | datas]; [reflexivity |].
  destruct (colunas_numericas f) as [x | vs]; [reflexivity |].
  destruct (rfm_de agora vs) as [x | rfm]; reflexivity.
Qed.

Lemma transform_true_inv sort_values agora self self' :
  transform sort_values agora self = (true, self') ->
  exists datas vs rfm,
    dt_accessor (fato_vendas self) = inr datas /\
    colunas_numericas (fato_vendas self) = inr vs /\
    rfm_de agora vs = inr rfm /\
    self' = mkETL (fato_vendas self)
              (Some (map dt_year datas)) (Some (map dt_month datas))
              (Some (map dt_dayofweek datas)) (Some (map margem_pct vs))
              (Some (vendas_mensais_de vs)) (Some rfm)
              (Some (abc_de sort_values vs)).
Proof.
  destruct self as [f a b c d e g h]. rewrite transform_eq.
  cbn [fato_vendas]. intros H.
  destruct (dt_accessor f) as [x | datas] eqn:E1; [discriminate |].
  destruct (colunas_numericas f) as [x | vs] eqn:E2; [discriminate |].
  destruct (rfm_de agora vs) as [x | rfm] eqn:E3; [discriminate |].
  exists datas, vs, rfm. inversion H. auto.
Qed.

Lemma mapM_inr {A B} (f : A -> result B) l out :
  mapM f l = inr out -> Forall2 (fun a b => f a = inr b) l out.
Proof.
  revert out. induction l as [| a l IH]; intros out H; simpl in H.
  - inversion H. constructor.
  - unfold bind, ret in H.
    destruct (f a) as [e | b] eqn:Fa; [discriminate |].
    destruct (mapM f l) as [e | bs]; [discriminate |].
    inversion H; subst. constructor; auto.
Qed.

Lemma Forall2_In_r {A B} (R : A -> B -> Prop) l l' b :
  Forall2 R l l' -> In b l' -> exists a, In a l /\ R a b.
Proof.
  induction 1 as [| x y l l' Hxy _ IH]; intros Hin; [inversion Hin |].
  destruct Hin as [-> | Hin].
  - exists x. split; [left; reflexivity | assumption].
  - destruct (IH Hin) as [a [Ha Hr]]. exists a. split; [right |]; assumption.
Qed.

(** ** The scores that [qcut] hands out are labels *)

Lemma qcut_labels x q labels out :
  qcut x q labels = inr out ->
  forall k, In (Some k) out -> In k labels.
Proof.
  unfold qcut. intros H k Hk.
  destruct (has_duplicates labels); [discriminate |].
  match type of H with
  | (if ?c then _ else _) = _ => destruct c; [discriminate |]
  end.
  inversion H; subst out; clear H.
  apply in_map_iff in Hk. destruct Hk as [i [Hi _]].
  match type of Hi with
  | (if ?c then _ else _) = _ => destruct c; [discriminate |]
  end.
  eapply nth_error_In; eassumption.
Qed.

(** ** Segment assignment *)

Lemma segment_customer_digits r f resto :
  1 <= r <= 5 -> 1 <= f <= 5 ->
  segment_customer (str_int r ++ str_int f ++ resto)
  = inr (rotulo (segmento_spec r f)).
Proof.
  intros Hr Hf.
  assert (Er : r = 1 \/ r = 2 \/ r = 3 \/ r = 4 \/ r = 5) by lia.
  assert (Ef : f = 1 \/ f = 2 \/ f = 3 \/ f = 4 \/ f = 5) by lia.
  decompose [or] Er; decompose [or] Ef; subst; reflexivity.
Qed.

Lemma segment_customer_nan_R resto :
  segment_customer ("nan" ++ resto) = inr (rotulo Lost).
Proof. reflexivity. Qed.

Lemma segment_customer_nan_F r resto :
  1 <= r <= 5 ->
  segment_customer (str_int r ++ "nan" ++ resto) = inr (rotulo Lost).
Proof.
  intros Hr.
  assert (Er : r = 1 \/ r = 2 \/ r = 3 \/ r = 4 \/ r = 5) by lia.
  decompose [or] Er; subst; reflexivity.
Qed.

Lemma linha_rfm_inv c r f m row :
  linha_rfm c (r, (f, m)) = inr row ->
  RFM.R_Score row = r /\ RFM.F_Score row = f /\ RFM.M_Score row = m /\
  RFM.ID_Cliente row = fst (fst (fst c)) /\
  RFM.Recencia row = snd (fst (fst c)) /\
  RFM.Frequencia row = snd (fst c) /\
  RFM.Monetario row = snd c /\
  RFM.RFM_Score row = astype_str r ++ astype_str f ++ astype_str m /\
  segment_customer (RFM.RFM_Score row) = inr (RFM.Segmento_RFM row).
Proof.
  destruct c as [[[id rec] freq] mon]. unfold linha_rfm, bind, ret.
  destruct (segment_customer _) as [e | seg] eqn:E; [discriminate |].
  intros H; inversion H; subst; cbn. repeat split; auto.
Qed.

(** Every row of a scored table comes from one customer of the aggregated
    table and one score of each of the three [qcut] columns. *)
Lemma rfm_de_rows hoje vs rfm row :
  rfm_de hoje vs = inr rfm -> In row rfm ->
  exists c rs fs ms,
    In c (clientes_de hoje vs) /\
    qcut (map (fun c => option_map inject_Z (snd (fst (fst c)))) (clientes_de hoje vs))
         5 [5; 4; 3; 2; 1] = inr rs /\
    qcut (map (fun c => Some (inject_Z (snd (fst c)))) (clientes_de hoje vs))
         5 [1; 2; 3; 4; 5] = inr fs /\
    qcut (map (fun c => Some (snd c)) (clientes_de hoje vs))
         5 [1; 2; 3; 4; 5] = inr ms /\
    In (RFM.R_Score row) rs /\ In (RFM.F_Score row) fs /\ In (RFM.M_Score row) ms /\
    linha_rfm c (RFM.R_Score row, (RFM.F_Score row, RFM.M_Score row)) = inr row.
Proof.
  unfold rfm_de, bind. intros H Hin.
  destruct (qcut _ 5 [5; 4; 3; 2; 1]) as [e | rs] eqn:ER; [discriminate |].
  destruct (qcut _ 5 [1; 2; 3; 4; 5]) as [e | fs] eqn:EF; [discriminate |].
  destruct (qcut (map (fun c => Some (snd c)) _) 5 [1; 2; 3; 4; 5])
    as [e | ms] eqn:EM; [discriminate |].
  apply mapM_inr in H.
  destruct (Forall2_In_r _ _ _ _ H Hin) as [[c [r [f m]]] [Hc Hrow]].
  cbn [fst snd] in Hrow.
  pose proof (linha_rfm_inv _ _ _ _ _ Hrow) as (Hr & Hf & Hm & _).
  subst r f m.
  pose proof (in_combine_l _ _ _ _ Hc) as Hc1.
  apply in_combine_r in Hc.
  pose proof (in_combine_l _ _ _ _ Hc) as Hc2.
  apply in_combine_r in Hc.
  pose proof (in_combine_l _ _ _ _ Hc) as Hc3.
  apply in_combine_r in Hc.
  exists c, rs, fs, ms. repeat split; auto.
Qed.

Lemma score_1_5 k : In k [5; 4; 3; 2; 1] \/ In k [1; 2; 3; 4; 5] -> 1 <= k <= 5.
Proof. cbn. intuition lia. Qed.

(** ** Sums *)

Lemma qsum_nil : qsum [] = 0%Q.
Proof. reflexivity. Qed.

Lemma qsum_cons x l : qsum (x :: l) = (x + qsum l)%Q.
Proof. reflexivity. Qed.

Lemma qsum_perm l1 l2 : Permutation l1 l2 -> (qsum l1 == qsum l2)%Q.
Proof.
  induction 1 as [| x l l' _ IH | x y l | l l' l'' _ IH1 _ IH2];
    rewrite ?qsum_cons.
  - reflexivity.
  - rewrite IH. reflexivity.
  - ring.
  - rewrite IH1. exact IH2.
Qed.

(** ** Groups partition the rows whose key is present *)

Section GroupByFacts.
Context {K A : Type}.
Variable eqb : K -> K -> bool.
Variable ltb : K -> K -> bool.
Hypothesis eqb_eq : forall a b, eqb a b = true <-> a = b.

Lemma In_insere k x ks : In x (insere eqb ltb k ks) <-> x = k \/ In x ks.
Proof.
  induction ks as [| k' r IH]; cbn.
  - intuition.
  - destruct (eqb k k') eqn:E.
    + apply eqb_eq in E. subst k'. cbn. intuition.
    + destruct (ltb k k'); cbn; [intuition |].
      rewrite IH. intuition.
Qed.

Lemma In_chaves x ks : In x (chaves eqb ltb ks) <-> In x ks.
Proof.
  unfold chaves. induction ks as [| k r IH]; cbn; [tauto |].
  rewrite In_insere, IH. intuition.
Qed.

Hypothesis ltb_irrefl : forall a, ltb a a = false.
Hypothesis ltb_trans : forall a b c, ltb a b = true -> ltb b c = true -> ltb a c = true.
Hypothesis ltb_total : forall a b, eqb a b = false -> ltb a b = false -> ltb b a = true.

Let crescente := StronglySorted (fun a b => ltb a b = true).

Lemma crescente_insere k ks : crescente ks -> crescente (insere eqb ltb k ks).
Proof.
  unfold crescente.
  induction 1 as [| k' r Hr IH Hall]; cbn.
  - constructor; constructor.
  - destruct (eqb k k') eqn:E; [constructor; assumption |].
    destruct (ltb k k') eqn:L.
    + constructor; [constructor; assumption |].
      constructor; [assumption |].
      eapply Forall_impl; [| exact Hall].
      intros a Ha. cbn in Ha. eapply ltb_trans; eassumption.
    + constructor; [assumption |].
      apply Forall_forall. intros x Hx. apply In_insere in Hx.
      destruct Hx as [-> | Hx].
      * apply ltb_total; assumption.
      * rewrite Forall_forall in Hall. apply Hall. assumption.
Qed.

Lemma crescente_chaves ks : crescente (chaves eqb ltb ks).
Proof.
  unfold chaves. induction ks as [| k r IH]; cbn.
  - constructor.
  - apply crescente_insere. exact IH.
Qed.

Lemma crescente_NoDup ks : crescente ks -> NoDup ks.
Proof.
  induction 1 as [| k r Hr IH Hall]; constructor; [| assumption].
  intros Hin. rewrite Forall_forall in Hall. specialize (Hall _ Hin).
  cbn in Hall. rewrite ltb_irrefl in Hall. discriminate.
Qed.

Lemma NoDup_chaves ks : NoDup (chaves eqb ltb ks).
Proof. apply crescente_NoDup, crescente_chaves. Qed.

(** One key among distinct keys collects a value exactly once. *)
Lemma soma_indicadora (k0 : K) (x : Q) ks :
  NoDup ks -> In k0 ks ->
  (qsum (map (fun k => if eqb k k0 then x else 0) ks) == x)%Q.
Proof.
  induction 1 as [| k r Hk Hr IH]; intros Hin; [destruct Hin |].
  cbn [map]; rewrite qsum_cons. destruct Hin as [-> | Hin].
  - assert (T : eqb k0 k0 = true) by (apply eqb_eq; reflexivity).
    rewrite T.
    assert (Z0 : (qsum (map (fun k => if eqb k k0 then x else 0) r) == 0)%Q).
    { clear IH Hr. induction r as [| a r IHr]; cbn [map]; rewrite ?qsum_cons; [reflexivity |].
      destruct (eqb a k0) eqn:E.
      - apply eqb_eq in E. subst a. exfalso. apply Hk. left. reflexivity.
      - rewrite IHr; [ring |]. intros H. apply Hk. right. exact H. }
    rewrite Z0. ring.
  - destruct (eqb k k0) eqn:E.
    + apply eqb_eq in E. subst k. contradiction.
    + rewrite (IH Hin). ring.
Qed.

Variable key : A -> option K.
Variable f : A -> Q.

Lemma soma_grupos_aux ks rows :
  NoDup ks ->
  (forall r k, In r rows -> key r = Some k -> In k ks) ->
  (qsum (map (fun k => qsum (map f (do_grupo eqb key k rows))) ks)
   == qsum (map f (com_chave key rows)))%Q.
Proof.
  intros Hnd. induction rows as [| r rows IH]; intros Hin.
  - cbn [com_chave filter map]. clear Hnd Hin.
    induction ks as [| k ks IHk]; cbn [map]; rewrite ?qsum_cons, ?qsum_nil;
      [reflexivity |].
    rewrite IHk. unfold do_grupo. cbn [filter map]. rewrite qsum_nil. ring.
  - assert (Hin' : forall r0 k, In r0 rows -> key r0 = Some k -> In k ks).
    { intros r0 k H1 H2. eapply Hin; [right; exact H1 | exact H2]. }
    specialize (IH Hin').
    cbn [com_chave filter]. fold (com_chave key rows).
    destruct (key r) as [k0 |] eqn:Ek.
    + cbn [map]; rewrite ?qsum_cons, ?qsum_nil. rewrite <- IH.
      rewrite <- (soma_indicadora k0 (f r) ks Hnd)
        by (eapply Hin; [left; reflexivity | exact Ek]).
      clear IH Hin Hin' Hnd.
      induction ks as [| k ks IHk]; cbn [map]; rewrite ?qsum_cons, ?qsum_nil; [ring |].
      rewrite IHk. unfold do_grupo at 1. cbn [filter]. rewrite Ek.
      fold (do_grupo eqb key k rows).
      destruct (eqb k k0); cbn [map]; rewrite ?qsum_cons, ?qsum_nil; ring.
    + rewrite <- IH. clear IH Hin Hin' Hnd.
      induction ks as [| k ks IHk]; cbn [map]; rewrite ?qsum_cons, ?qsum_nil; [reflexivity |].
      rewrite IHk. unfold do_grupo at 1. cbn [filter]. rewrite Ek.
      reflexivity.
Qed.

(** The sums of [f] over the groups add up to the sum of [f] over the
    rows that have a key. *)
Lemma soma_grupos rows :
  (qsum (map (fun g => qsum (map f (snd g))) (groupby eqb ltb key rows))
   == qsum (map f (com_chave key rows)))%Q.
Proof.
  unfold groupby. rewrite map_map. cbn [snd].
  apply soma_grupos_aux.
  - apply NoDup_chaves.
  - intros r k Hr Hk. apply In_chaves.
    clear - Hr Hk. induction rows as [| a rows' IH]; [destruct Hr |].
    cbn. destruct Hr as [-> | Hr].
    + rewrite Hk. left. reflexivity.
    + destruct (key a); [right |]; apply IH; assumption.
Qed.
End GroupByFacts.

Lemma par_eqb_eq a b : par_eqb a b = true <-> a = b.
Proof.
  destruct a as [a1 a2], b as [b1 b2]. unfold par_eqb. cbn.
  rewrite andb_true_iff, !Z.eqb_eq. split.
  - intros [-> ->]. reflexivity.
  - intros H. inversion H. auto.
Qed.

Lemma par_ltb_irrefl a : par_ltb a a = false.
Proof.
  unfold par_ltb. rewrite !Z.ltb_irrefl, andb_false_r. reflexivity.
Qed.

Lemma par_ltb_trans a b c :
  par_ltb a b = true -> par_ltb b c = true -> par_ltb a c = true.
Proof.
  unfold par_ltb.
  rewrite !orb_true_iff, !andb_true_iff, !Z.ltb_lt, !Z.eqb_eq. lia.
Qed.

Lemma par_ltb_total a b :
  par_eqb a b = false -> par_ltb a b = false -> par_ltb b a = true.
Proof.
  destruct a as [a1 a2], b as [b1 b2]. unfold par_eqb, par_ltb. cbn.
  destruct (Z.eqb_spec a1 b1), (Z.eqb_spec a2 b2), (Z.eqb_spec b1 a1),
    (Z.ltb_spec a1 b1), (Z.ltb_spec a2 b2), (Z.ltb_spec b1 a1),
    (Z.ltb_spec b2 a2); cbn; intros; try reflexivity; try discriminate; lia.
Qed.

Lemma zltb_trans (a b c : Z) :
  (a <? b)%Z = true -> (b <? c)%Z = true -> (a <? c)%Z = true.
Proof. rewrite !Z.ltb_lt. lia. Qed.

Lemma zltb_total (a b : Z) :
  (a =? b)%Z = false -> (a <? b)%Z = false -> (b <? a)%Z = true.
Proof. rewrite Z.eqb_neq, Z.ltb_ge, Z.ltb_lt. lia. Qed.

(** ** Typed rows *)

Lemma dropna_Some {A} (l : list A) : dropna (map Some l) = l.
Proof. induction l as [| a l IH]; cbn; [| rewrite IH]; reflexivity. Qed.


Lemma traverse_Some {A B} (f : A -> option B) l bs :
  traverse f l = Some bs -> Forall2 (fun a b => f a = Some b) l bs.
Proof.
  revert bs. induction l as [| a l IH]; intros bs H; cbn in H.
  - inversion H. constructor.
  - destruct (f a) as [b |] eqn:Fa; [| discriminate].
    destruct (traverse f l) as [bs' |]; [| discriminate].
    inversion H; subst. constructor; auto.
Qed.

Lemma traverse_total {A B} (f : A -> option B) l :
  (forall a, In a l -> exists b, f a = Some b) ->
  exists bs, traverse f l = Some bs.
Proof.
  induction l as [| a l IH]; intros H; cbn.
  - eexists. reflexivity.
  - destruct (H a (or_introl eq_refl)) as [b ->].
    destruct IH as [bs ->]; [intros; apply H; right; assumption |].
    eexists. reflexivity.
Qed.

Lemma traverse_None {A B} (f : A -> option B) l a :
  In a l -> f a = None -> traverse f l = None.
Proof.
  induction l as [| x l IH]; intros Hin Ha; [destruct Hin |].
  cbn. destruct Hin as [-> | Hin].
  - rewrite Ha. reflexivity.
  - rewrite (IH Hin Ha). destruct (f x); reflexivity.
Qed.

(** [transform] on a freshly extracted table whose columns have the
    expected dtypes: everything up to the monthly table is assigned, then
    the outcome is that of the RFM scoring. *)
Lemma transform_tipado sort_values agora df datas vs :
  dt_accessor df = inr datas ->
  colunas_numericas df = inr vs ->
  transform sort_values agora (extraido df) =
  match rfm_de agora vs with
  | inr rfm =>
      (true, mkETL df (Some (map dt_year datas)) (Some (map dt_month datas))
               (Some (map dt_dayofweek datas)) (Some (map margem_pct vs))
               (Some (vendas_mensais_de vs)) (Some rfm)
               (Some (abc_de sort_values vs)))
  | inl _ =>
      (false, mkETL df (Some (map dt_year datas)) (Some (map dt_month datas))
                (Some (map dt_dayofweek datas)) (Some (map margem_pct vs))
                (Some (vendas_mensais_de vs)) None None)
  end.
Proof.
  intros E1 E2. unfold extraido. rewrite transform_eq, E1, E2.
  destruct (rfm_de agora vs); reflexivity.
Qed.

Lemma linhas_validas_tipadas df :
  (forall l, In l df -> linha_valida l) ->
  df <> [] ->
  exists datas vs,
    dt_accessor df = inr datas /\ colunas_numericas df = inr vs /\
    Forall2 (fun l v => tipar l = Some v) df vs.
Proof.
  intros Hv Hne.
  destruct (traverse_total (fun l => as_datetime (Linha.Data_Venda l)) df) as [ds Hd].
  { intros l Hl. destruct (Hv l Hl) as (t & q & p & E1 & _). rewrite E1.
    eexists. reflexivity. }
  destruct (traverse_total tipar df) as [vs Ht].
  { intros l Hl. destruct (Hv l Hl) as (t & q & p & E1 & E2 & E3).
    unfold tipar. rewrite E1, E2, E3. eexists. reflexivity. }
  exists ds, vs. unfold dt_accessor, colunas_numericas. rewrite Hd, Ht.
  destruct df as [| l0 df0]; [congruence |].
  repeat split. apply traverse_Some. exact Ht.
Qed.

Lemma receita_tipada df vs :
  Forall2 (fun l v => tipar l = Some v) df vs ->
  receita_das_linhas df = qsum (map Venda.Receita_Liquida vs).
Proof.
  unfold receita_das_linhas. intros H. f_equal.
  induction H as [| l v df vs Hlv _ IH]; [reflexivity |].
  cbn [map]. unfold tipar in Hlv.
  destruct (as_datetime (Linha.Data_Venda l)); [| discriminate].
  destruct (as_number (Linha.Receita_Liquida l)) as [q |]; [| discriminate].
  destruct (as_number (Linha.Lucro_Bruto l)); [| discriminate].
  inversion Hlv; subst. cbn. rewrite IH. reflexivity.
Qed.

Lemma tipar_data l v t :
  tipar l = Some v -> Linha.Data_Venda l = DateVal t -> Venda.Data_Venda v = Some t.
Proof.
  unfold tipar. intros H E. rewrite E in H. cbn in H.
  destruct (as_number (Linha.Receita_Liquida l)); [| discriminate].
  destruct (as_number (Linha.Lucro_Bruto l)); [| discriminate].
  inversion H. reflexivity.
Qed.

Lemma com_chave_todos {K A} (key : A -> option K) rows :
  (forall r, In r rows -> exists k, key r = Some k) ->
  com_chave key rows = rows.
Proof.
  unfold com_chave.
  induction rows as [| r rows IH]; intros H; [reflexivity |].
  cbn [filter]. destruct (H r (or_introl eq_refl)) as [k ->].
  rewrite IH; [reflexivity |]. intros; apply H; right; assumption.
Qed.

Lemma soma_mensal vs :
  (qsum (map Mensal.Receita_Liquida (vendas_mensais_de vs))
   == qsum (map Venda.Receita_Liquida (com_chave chave_mensal vs)))%Q.
Proof.
  unfold vendas_mensais_de. rewrite map_map.
  rewrite <- (soma_grupos par_eqb par_ltb par_eqb_eq par_ltb_irrefl
                par_ltb_trans par_ltb_total chave_mensal Venda.Receita_Liquida vs).
  erewrite map_ext; [reflexivity |].
  intros [k g]. reflexivity.
Qed.

(** C8 (conservation).  For every table of valid sale records that has a
    row, [transform] assigns the monthly table, and the net revenue summed
    over all its (year, month) rows equals the net revenue summed over all
    the input sale records (exact arithmetic).  On the table without rows
    [transform] stops at its first statement: no monthly table is assigned,
    and there is no revenue to account for. *)
Theorem conservacao_receita_mensal sort_values agora df :
  (forall l, In l df -> linha_valida l) ->
  (df <> [] ->
   exists vm,
     vendas_mensais (snd (transform sort_values agora (extraido df))) = Some vm /\
     (qsum (map Mensal.Receita_Liquida vm) == receita_das_linhas df)%Q) /\
  (df = [] ->
   vendas_mensais (snd (transform sort_values agora (extraido df))) = None /\
   (receita_das_linhas df == 0)%Q).
Proof.
  intros Hv. split.
  - intros Hne.
    destruct (linhas_validas_tipadas df Hv Hne) as (datas & vs & E1 & E2 & Ht).
    exists (vendas_mensais_de vs). split.
    + rewrite (transform_tipado sort_values agora df datas vs E1 E2).
      destruct (rfm_de agora vs); reflexivity.
    + rewrite soma_mensal, (receita_tipada df vs Ht).
      rewrite com_chave_todos; [reflexivity |].
      intros v Hin.
      destruct (Forall2_In_r _ _ _ _ Ht Hin) as [l [Hl Hlv]].
      destruct (Hv l Hl) as (t & q & p & Ed & _).
      unfold chave_mensal. rewrite (tipar_data l v t Hlv Ed). cbn.
      eexists. reflexivity.
  - intros ->. unfold extraido. rewrite transform_eq. cbn.
    split; reflexivity.
Qed.

Lemma vendas_ex_validas : forall l, In l vendas_ex -> linha_valida l.
Proof.
  intros l H. cbn in H.
  destruct H as [<- | [<- | [<- | []]]];
    unfold linha_valida, linha; cbn; eexists _, _, _; repeat split.
Qed.

Lemma conservacao_receita_mensal_witness :
  exists vm,
    vendas_mensais (snd (transform sort_estavel relogio_ex (extraido vendas_ex)))
    = Some vm /\
    (qsum (map Mensal.Receita_Liquida vm) == receita_das_linhas vendas_ex)%Q.
Proof.
  refine (proj1 (conservacao_receita_mensal sort_estavel relogio_ex vendas_ex
                   vendas_ex_validas) _).
  discriminate.
Defined.


(** ** Rounding *)

Lemma rint_comp x y : (x == y)%Q -> rint x = rint y.
Proof.
  intros E. unfold rint. rewrite (Qfloor_comp _ _ E).
  rewrite E. reflexivity.
Qed.

Lemma round2_comp x y : (x == y)%Q -> (round2 x == round2 y)%Q.
Proof.
  intros E. unfold round2. rewrite (rint_comp (x * 100) (y * 100)).
  - reflexivity.
  - rewrite E. reflexivity.
Qed.

(** [rint] is within one half of its argument. *)
Lemma rint_perto q :
  (inject_Z (rint q) - (1 # 2) <= q /\ q <= inject_Z (rint q) + (1 # 2))%Q.
Proof.
  unfold rint.
  pose proof (Qfloor_le q) as Hlo.
  pose proof (Qlt_floor q) as Hhi.
  rewrite inject_Z_plus in Hhi. change (inject_Z 1) with 1%Q in Hhi.
  destruct (Qcompare_spec (q - inject_Z (Qfloor q)) (1 # 2)) as [E | L | G].
  - destruct (Z.even (Qfloor q)).
    + split; lra.
    + rewrite inject_Z_plus. change (inject_Z 1) with 1%Q. split; lra.
  - split; lra.
  - rewrite inject_Z_plus. change (inject_Z 1) with 1%Q. split; lra.
Qed.

Lemma round2_perto q :
  (round2 q - (1 # 200) <= q /\ q <= round2 q + (1 # 200))%Q.
Proof.
  unfold round2. pose proof (rint_perto (q * 100)) as [H1 H2].
  set (z := inject_Z (rint (q * 100))) in *.
  assert (E : (z / 100 == z * (1 # 100))%Q) by field.
  rewrite E. split; lra.
Qed.

(** An integer that is within one half above its argument is what [rint]
    returns when that integer is even. *)
Lemma rint_meio_par z q :
  Z.even z = true ->
  (inject_Z z < q)%Q -> (q <= inject_Z z + (1 # 2))%Q -> rint q = z.
Proof.
  intros Hev H1 H2.
  assert (Hf : Qfloor q = z).
  { pose proof (Qfloor_le q) as Hlo. pose proof (Qlt_floor q) as Hhi.
    assert (A : (z <= Qfloor q)%Z).
    { apply Z.lt_succ_r. rewrite <- Z.add_1_r. rewrite Zlt_Qlt.
      eapply Qlt_trans; [exact H1 | exact Hhi]. }
    assert (B : (Qfloor q <= z)%Z).
    { apply Z.lt_succ_r. rewrite <- Z.add_1_r. rewrite Zlt_Qlt.
      rewrite inject_Z_plus. change (inject_Z 1) with 1%Q.
      eapply Qle_lt_trans; [exact Hlo |]. lra. }
    lia. }
  unfold rint. rewrite Hf.
  destruct (Qcompare_spec (q - inject_Z z) (1 # 2)) as [E | L | G].
  - rewrite Hev. reflexivity.
  - reflexivity.
  - lra.
Qed.

Lemma round2_logo_acima (c : Z) q :
  Z.even (c * 100) = true ->
  (inject_Z c < q)%Q -> (q <= inject_Z c + (5 # 1000))%Q ->
  (round2 q == inject_Z c)%Q.
Proof.
  intros Hev H1 H2. unfold round2.
  rewrite (rint_meio_par (c * 100) (q * 100) Hev).
  - rewrite inject_Z_mult. change (inject_Z 100) with 100%Q. field.
  - rewrite inject_Z_mult. change (inject_Z 100) with 100%Q. lra.
  - rewrite inject_Z_mult. change (inject_Z 100) with 100%Q. lra.
Qed.

(** ** The ABC table *)

Lemma acumula_receitas total acc ps :
  map ABC.Receita_Liquida (acumula total acc ps) = map Produto.Receita_Liquida ps.
Proof.
  revert acc. induction ps as [| p ps IH]; intros acc; cbn; [reflexivity |].
  rewrite IH. reflexivity.
Qed.

Lemma acumula_ids total acc ps :
  map ABC.ID_Produto (acumula total acc ps) = map Produto.ID_Produto ps.
Proof.
  revert acc. induction ps as [| p ps IH]; intros acc; cbn; [reflexivity |].
  rewrite IH. reflexivity.
Qed.

Lemma acumula_linha total acc ps row :
  In row (acumula total acc ps) ->
  ABC.Pct_Acumulado row
    = fround2 (fmul100 (fdiv (ABC.Receita_Acumulada row) total)) /\
  ABC.Classe_ABC row = classificar_abc (ABC.Pct_Acumulado row).
Proof.
  revert acc. induction ps as [| p ps IH]; intros acc Hin; [destruct Hin |].
  cbn in Hin. destruct Hin as [<- | Hin].
  - cbn. split; reflexivity.
  - eapply IH. exact Hin.
Qed.

Lemma acumula_nth total acc ps i row :
  nth_error (acumula total acc ps) i = Some row ->
  exists p, nth_error ps i = Some p /\
            ABC.Receita_Liquida row = Produto.Receita_Liquida p /\
            ABC.ID_Produto row = Produto.ID_Produto p.
Proof.
  revert acc i. induction ps as [| p ps IH]; intros acc i H.
  - destruct i; discriminate.
  - destruct i as [| i]; cbn in H.
    + inversion H; subst. exists p. cbn. repeat split.
    + apply (IH _ _ H).
Qed.

(** The last row carries the whole cumulative sum. *)
Lemma acumula_ultimo total acc p ps :
  exists inicio ultimo,
    acumula total acc (p :: ps) = (inicio ++ [ultimo])%list /\
    (ABC.Receita_Acumulada ultimo
     == acc + qsum (map Produto.Receita_Liquida (p :: ps)))%Q.
Proof.
  revert acc p. induction ps as [| p' ps IH]; intros acc p.
  - eexists [], _. split; [reflexivity |].
    cbn [ABC.Receita_Acumulada map]. rewrite qsum_cons, qsum_nil. ring.
  - destruct (IH (acc + Produto.Receita_Liquida p)%Q p') as (ini & ult & E & S).
    eexists (_ :: ini), ult. split.
    + change (acumula total acc (p :: p' :: ps))
        with (ABC.mk (Produto.ID_Produto p) (Produto.Receita_Liquida p)
                (Produto.Quantidade p) (acc + Produto.Receita_Liquida p)%Q
                (fround2 (fmul100 (fdiv (acc + Produto.Receita_Liquida p)%Q total)))
                (classificar_abc
                   (fround2 (fmul100 (fdiv (acc + Produto.Receita_Liquida p)%Q total))))
              :: acumula total (acc + Produto.Receita_Liquida p)%Q (p' :: ps)).
      rewrite E. reflexivity.
    + rewrite S. cbn [map]. rewrite !qsum_cons. ring.
Qed.

Lemma Sorted_adjacentes {A} (R : A -> A -> Prop) l i a b :
  Sorted R l -> nth_error l i = Some a -> nth_error l (S i) = Some b -> R a b.
Proof.
  intros HS. revert i. induction HS as [| x l HS IH Hd]; intros i Ha Hb.
  - destruct i; discriminate.
  - destruct i as [| i]; cbn in Ha, Hb.
    + inversion Ha; subst x. destruct l as [| y l]; [discriminate |].
      cbn in Hb. inversion Hb; subst y. inversion Hd. assumption.
    + eapply IH; eassumption.
Qed.

(** ** The sample sort meets the contract of [sort_values] *)

Lemma pinsert_perm s p l : Permutation (p :: l) (pinsert s p l).
Proof.
  induction l as [| y r IH]; cbn; [reflexivity |].
  destruct (if s then _ else _); [reflexivity |].
  rewrite perm_swap. constructor. exact IH.
Qed.

Lemma pinsert_HdRel s y p r :
  HdRel receita_desc y r -> receita_desc y p -> HdRel receita_desc y (pinsert s p r).
Proof.
  intros Hr Hp. destruct r as [| z r]; cbn; [constructor; assumption |].
  destruct (if s then _ else _); constructor; [assumption |].
  inversion Hr. assumption.
Qed.

Lemma pinsert_sorted s p l :
  Sorted receita_desc l -> Sorted receita_desc (pinsert s p l).
Proof.
  induction 1 as [| y r Hr IH Hd]; cbn.
  - constructor; constructor.
  - destruct s.
    + destruct (Qle_bool (Produto.Receita_Liquida p) (Produto.Receita_Liquida y)) eqn:E; cbn.
      * constructor; [assumption |]. apply pinsert_HdRel; [assumption |].
        unfold receita_desc. apply Qle_bool_iff. exact E.
      * constructor; [constructor; assumption |]. constructor.
        unfold receita_desc.
        destruct (Qlt_le_dec (Produto.Receita_Liquida y) (Produto.Receita_Liquida p))
          as [L | L]; [apply Qlt_le_weak; exact L |].
        apply Qle_bool_iff in L. congruence.
    + destruct (Qle_bool (Produto.Receita_Liquida y) (Produto.Receita_Liquida p)) eqn:E.
      * constructor; [constructor; assumption |]. constructor.
        unfold receita_desc. apply Qle_bool_iff. exact E.
      * constructor; [assumption |]. apply pinsert_HdRel; [assumption |].
        unfold receita_desc.
        destruct (Qlt_le_dec (Produto.Receita_Liquida y) (Produto.Receita_Liquida p))
          as [L | L]; [| exact L].
        apply Qlt_le_weak, Qle_bool_iff in L. congruence.
Qed.

Lemma fold_pinsert_ok s ps :
  Permutation ps (fold_right (pinsert s) [] ps) /\
  Sorted receita_desc (fold_right (pinsert s) [] ps).
Proof.
  induction ps as [| p ps [IHp IHs]]; cbn.
  - split; constructor.
  - split.
    + rewrite <- pinsert_perm. constructor. exact IHp.
    + apply pinsert_sorted. exact IHs.
Qed.

Lemma sort_estavel_ok : sort_values_ok sort_estavel.
Proof. intros ps. apply fold_pinsert_ok. Qed.

Lemma colunas_numericas_tipadas df vs :
  colunas_numericas df = inr vs -> Forall2 (fun l v => tipar l = Some v) df vs.
Proof.
  unfold colunas_numericas. intros H.
  destruct (traverse tipar df) as [vs' |] eqn:E; [| discriminate].
  inversion H; subst. apply traverse_Some. exact E.
Qed.

Lemma soma_produtos vs :
  (receita_total (produtos_de vs) == qsum (map Venda.Receita_Liquida vs))%Q.
Proof.
  unfold receita_total, produtos_de. rewrite map_map.
  rewrite <- (com_chave_todos (fun v => Some (Venda.ID_Produto v)) vs) at 2
    by (intros; eexists; reflexivity).
  rewrite <- (soma_grupos Z.eqb Z.ltb Z.eqb_eq Z.ltb_irrefl zltb_trans zltb_total
                (fun v => Some (Venda.ID_Produto v)) Venda.Receita_Liquida vs).
  erewrite map_ext; [reflexivity |].
  intros [k g]. reflexivity.
Qed.

Lemma receita_total_sort sort_values ps :
  sort_values_ok sort_values ->
  (receita_total (sort_values ps) == receita_total ps)%Q.
Proof.
  intros Hs. unfold receita_total. symmetry.
  apply qsum_perm, Permutation_map, Hs.
Qed.

Lemma pct_do_total c total :
  (0 < total)%Q -> (c == total)%Q ->
  feq (fround2 (fmul100 (fdiv c total))) (Fin 100).
Proof.
  intros Hpos E. unfold fdiv.
  destruct (Qeq_bool total 0) eqn:Z.
  - apply Qeq_bool_iff in Z. lra.
  - cbn. rewrite (round2_comp (c / total * 100) 100).
    + vm_compute. reflexivity.
    + rewrite E. field. lra.
Qed.

(** C9 (cumulative closure).  Whenever the total net revenue of the input
    is strictly positive, the ABC table of a successful [transform] is not
    empty and the cumulative percentage of its last row is 100 (exact
    arithmetic). *)
Theorem fecho_pct_acumulado sort_values agora self self' abc :
  sort_values_ok sort_values ->
  transform sort_values agora self = (true, self') ->
  abc_produtos self' = Some abc ->
  (0 < receita_das_linhas (fato_vendas self))%Q ->
  exists inicio ultimo,
    abc = (inicio ++ [ultimo])%list /\
    feq (ABC.Pct_Acumulado ultimo) (Fin 100).
Proof.
  intros Hs Ht Habc Hpos.
  destruct (transform_true_inv _ _ _ _ Ht) as (datas & vs & rfm & E1 & E2 & E3 & ->).
  cbn in Habc. inversion Habc; subst abc; clear Habc.
  rewrite (receita_tipada _ _ (colunas_numericas_tipadas _ _ E2)) in Hpos.
  rewrite <- soma_produtos in Hpos.
  rewrite <- (receita_total_sort sort_values _ Hs) in Hpos.
  unfold abc_de.
  set (ps := sort_values (produtos_de vs)) in *.
  destruct ps as [| p ps'] eqn:Eps.
  - exfalso. unfold receita_total in Hpos. cbn in Hpos. lra.
  - destruct (acumula_ultimo (receita_total (p :: ps')) 0 p ps')
      as (ini & ult & Eq & Sum).
    exists ini, ult. split; [exact Eq |].
    assert (Hin : In ult (acumula (receita_total (p :: ps')) 0 (p :: ps'))).
    { rewrite Eq. apply in_or_app. right. left. reflexivity. }
    destruct (acumula_linha _ _ _ _ Hin) as [-> _].
    apply pct_do_total; [exact Hpos |].
    rewrite Sum. unfold receita_total. ring.
Qed.

Lemma fecho_pct_acumulado_witness :
  exists inicio ultimo,
    abc_de sort_estavel
      [Venda.mk 1 1 10 (Some (meia_noite 19000)) 1 100 40;
       Venda.mk 2 1 10 (Some (meia_noite 19001)) 1 200 80;
       Venda.mk 3 2 20 (Some (meia_noite 19000)) 1 50 10]
    = (inicio ++ [ultimo])%list /\
    feq (ABC.Pct_Acumulado ultimo) (Fin 100).
Proof.
  apply (fecho_pct_acumulado sort_estavel relogio_ex (extraido vendas_ex)
           (snd (transform sort_estavel relogio_ex (extraido vendas_ex)))).
  - exact sort_estavel_ok.
  - vm_compute. reflexivity.
  - vm_compute. reflexivity.
  - vm_compute. reflexivity.
Defined.

Lemma classificar_abc_A r : (r <= 80)%Q -> classificar_abc (Fin r) = "A".
Proof.
  intros H. unfold classificar_abc, fle_const.
  apply Qle_bool_iff in H. rewrite H. reflexivity.
Qed.

Lemma classificar_abc_B r : (80 < r)%Q -> (r <= 95)%Q -> classificar_abc (Fin r) = "B".
Proof.
  intros H1 H2. unfold classificar_abc, fle_const.
  destruct (Qle_bool r 80) eqn:E.
  - apply Qle_bool_iff in E. lra.
  - apply Qle_bool_iff in H2. rewrite H2. reflexivity.
Qed.




(** ** No transactions *)

Lemma qcut_vazio labels :
  List.length labels = 5%nat -> qcut [] 5 labels = inl ValueError.
Proof.
  intros H. unfold qcut. destruct (has_duplicates labels); [reflexivity |].
  cbn. rewrite H. reflexivity.
Qed.

Lemma nao_finito_pct total acc ps row :
  (total == 0)%Q -> In row (acumula total acc ps) ->
  forall q, ABC.Pct_Acumulado row <> Fin q.
Proof.
  intros Hz Hin q. destruct (acumula_linha _ _ _ _ Hin) as [-> _].
  unfold fdiv. apply Qeq_bool_iff in Hz. rewrite Hz.
  destruct (ABC.Receita_Acumulada row ?= 0)%Q; cbn; discriminate.
Qed.

(** C3 (as amended).  With no transactions nothing named EmptyDatasetError
    is raised.  [transform] returns False at its first statement: the date
    column of a table without rows is not datetime-typed, so [.dt] raises
    AttributeError, the handler turns it into False, nothing is assigned
    and the ABC lines are never reached; [run] then returns False and
    writes nothing.  The ABC lines have no guard of their own: when they
    are reached with a total revenue of zero the division is carried out
    and every cumulative percentage is an infinity or NaN. *)
Theorem sem_transacoes_sem_erro_proprio sort_values agora :
  transform_body sort_values agora (extraido []) = (inl AttributeError, extraido []) /\
  transform sort_values agora (extraido []) = (false, extraido []) /\
  (forall d, run sort_values agora [] d = (false, d)) /\
  forall vs row,
    (receita_total (sort_values (produtos_de vs)) == 0)%Q ->
    In row (abc_de sort_values vs) ->
    forall q, ABC.Pct_Acumulado row <> Fin q.
Proof.
  assert (T : transform sort_values agora (extraido []) = (false, extraido [])).
  { unfold extraido. rewrite transform_eq. reflexivity. }
  split; [reflexivity |]. split; [exact T |]. split.
  - intros d. unfold run. rewrite T. reflexivity.
  - intros vs row Hz Hin. unfold abc_de in Hin.
    apply (nao_finito_pct _ _ _ _ Hz Hin).
Qed.

(** C3 as stated fails: on the table without rows the body of [transform]
    raises AttributeError at line 52, the call returns False to its caller
    instead of raising, and the ABC table is never assigned. *)
Lemma sem_transacoes_contraexemplo :
  fst (transform_body sort_estavel relogio_ex (extraido [])) = inl AttributeError /\
  transform sort_estavel relogio_ex (extraido []) = (false, extraido []) /\
  abc_produtos (snd (transform sort_estavel relogio_ex (extraido []))) = None.
Proof. repeat split. Qed.

(** ** Failing dtypes, and [run] *)

Lemma transform_dt_erro sort_values agora df e :
  dt_accessor df = inl e ->
  transform_body sort_values agora (extraido df) = (inl e, extraido df) /\
  transform sort_values agora (extraido df) = (false, extraido df).
Proof.
  intros E. unfold transform, transform_body, mbind, lift, gets, extraido.
  cbn [fato_vendas]. rewrite E. split; reflexivity.
Qed.

Lemma transform_num_erro sort_values agora df datas e :
  dt_accessor df = inr datas ->
  colunas_numericas df = inl e ->
  transform_body sort_values agora (extraido df)
  = (inl e, mkETL df (Some (map dt_year datas)) (Some (map dt_month datas))
              (Some (map dt_dayofweek datas)) None None None None) /\
  transform sort_values agora (extraido df)
  = (false, mkETL df (Some (map dt_year datas)) (Some (map dt_month datas))
              (Some (map dt_dayofweek datas)) None None None None).
Proof.
  intros E1 E2.
  unfold transform, transform_body, mbind, lift, gets, mret,
    set_Ano, set_Mes, set_Dia_Semana, modify, extraido.
  cbn [fato_vendas col_Ano col_Mes col_Dia_Semana col_Margem_Pct
         vendas_mensais rfm_clientes abc_produtos].
  rewrite E1, E2. split; reflexivity.
Qed.

Lemma run_false sort_values agora df d :
  fst (transform sort_values agora (extraido df)) = false ->
  run sort_values agora df d = (false, d).
Proof.
  unfold run. destruct (transform sort_values agora (extraido df)) as [ok s].
  cbn. intros ->. reflexivity.
Qed.

Lemma run_true_inv sort_values agora df d d' :
  run sort_values agora df d = (true, d') ->
  exists self',
    transform sort_values agora (extraido df) = (true, self') /\
    fato_vendas_csv d' = Some (tabela_fato self') /\
    vendas_mensais_csv d' = vendas_mensais self' /\
    rfm_clientes_csv d' = rfm_clientes self' /\
    abc_produtos_csv d' = abc_produtos self'.
Proof.
  unfold run. destruct (transform sort_values agora (extraido df)) as [ok s] eqn:Et.
  destruct ok; cbn [negb]; [| discriminate].
  destruct (transform_true_inv _ _ _ _ Et) as (datas & vs & rfm & _ & _ & _ & ->).
  cbn. intros H. inversion H; subst d'. cbn.
  eexists. repeat split.
Qed.

(** ** Margin percentage *)

Lemma margem_pct_receita_zero v :
  (Venda.Receita_Liquida v == 0)%Q ->
  margem_pct v = match (Venda.Lucro_Bruto v ?= 0)%Q with
                 | Eq => NaN
                 | Gt => PInf
                 | Lt => NInf
                 end.
Proof.
  intros Hz. unfold margem_pct, fdiv. apply Qeq_bool_iff in Hz. rewrite Hz.
  destruct (Venda.Lucro_Bruto v ?= 0)%Q; reflexivity.
Qed.

(** C4 (as amended).  For a sale record whose net revenue is exactly zero
    the margin percentage is NaN when the gross profit is zero too, and
    plus or minus infinity, by the sign of the gross profit, otherwise.  The
    division never raises and the value is never a finite number (so never
    zero); it is the value of the [Margem_Pct] column that [transform]
    assigns and that a successful [run] writes out. *)
Theorem margem_com_receita_zero sort_values agora df datas vs v :
  dt_accessor df = inr datas ->
  colunas_numericas df = inr vs ->
  In v vs ->
  (Venda.Receita_Liquida v == 0)%Q ->
  margem_pct v = match (Venda.Lucro_Bruto v ?= 0)%Q with
                 | Eq => NaN
                 | Gt => PInf
                 | Lt => NInf
                 end /\
  (forall q, margem_pct v <> Fin q) /\
  col_Margem_Pct (snd (transform sort_values agora (extraido df)))
  = Some (map margem_pct vs) /\
  In (margem_pct v) (map margem_pct vs) /\
  forall d d',
    run sort_values agora df d = (true, d') ->
    option_map Margem_Pct (fato_vendas_csv d') = Some (Some (map margem_pct vs)).
Proof.
  intros E1 E2 Hin Hz.
  pose proof (margem_pct_receita_zero v Hz) as Hm.
  split; [exact Hm |]. split.
  { intros q. rewrite Hm. destruct (Venda.Lucro_Bruto v ?= 0)%Q; discriminate. }
  pose proof (transform_tipado sort_values agora df datas vs E1 E2) as Ht.
  split.
  { rewrite Ht. destruct (rfm_de agora vs); reflexivity. }
  split; [apply in_map; exact Hin |].
  intros d d' Hrun.
  destruct (run_true_inv _ _ _ _ _ Hrun) as (self' & Et & Ef & _).
  rewrite Ef. cbn. rewrite Ht in Et.
  destruct (rfm_de agora vs); inversion Et; reflexivity.
Qed.

Lemma margem_com_receita_zero_witness :
  margem_pct (Venda.mk 3 1 10 (Some (meia_noite 19000)) 1 0 (-5)) = NInf.
Proof.
  refine (proj1 (margem_com_receita_zero sort_estavel relogio_ex vendas_receita_zero
                   _ _ (Venda.mk 3 1 10 (Some (meia_noite 19000)) 1 0 (-5))
                   _ _ _ _)).
  - vm_compute. reflexivity.
  - vm_compute. reflexivity.
  - right. right. left. reflexivity.
  - reflexivity.
Defined.

(** C4 as stated fails: a sale with net revenue 0 and gross profit 10 gets
    the margin percentage +infinity, not NaN (and one with a loss gets
    -infinity). *)
Lemma margem_infinita_contraexemplo :
  fst (transform sort_estavel relogio_ex (extraido vendas_receita_zero)) = true /\
  option_map (firstn 3)
    (col_Margem_Pct (snd (transform sort_estavel relogio_ex (extraido vendas_receita_zero))))
  = Some [PInf; NaN; NInf] /\
  PInf <> NaN.
Proof.
  split; [vm_compute; reflexivity |].
  split; [vm_compute; reflexivity | discriminate].
Qed.

(** ** Malformed records *)

Lemma tipar_texto l : linha_com_texto l -> tipar l = None.
Proof.
  unfold tipar. intros [[s E] | [[s E] | [s E]]]; rewrite E; cbn.
  - reflexivity.
  - destruct (as_datetime (Linha.Data_Venda l)); reflexivity.
  - destruct (as_datetime (Linha.Data_Venda l)); [| reflexivity].
    destruct (as_number (Linha.Receita_Liquida l)); reflexivity.
Qed.

(** C5 (as amended).  When some sale record has an unparseable sale date or
    a non-numeric net revenue or gross profit, [transform] does not raise:
    the exception of the body is caught and the call returns False with
    none of the three derived tables assigned, and [run] returns False
    without writing anything. *)
Theorem linha_com_texto_devolve_false sort_values agora df l d :
  In l df ->
  linha_com_texto l ->
  (exists e s, transform_body sort_values agora (extraido df) = (inl e, s)) /\
  fst (transform sort_values agora (extraido df)) = false /\
  vendas_mensais (snd (transform sort_values agora (extraido df))) = None /\
  rfm_clientes (snd (transform sort_values agora (extraido df))) = None /\
  abc_produtos (snd (transform sort_values agora (extraido df))) = None /\
  run sort_values agora df d = (false, d).
Proof.
  intros Hin Htxt.
  assert (Hnum : colunas_numericas df = inl TypeError).
  { unfold colunas_numericas.
    rewrite (traverse_None tipar df l Hin (tipar_texto l Htxt)). reflexivity. }
  assert (Hcore :
            (exists e s, transform_body sort_values agora (extraido df) = (inl e, s)) /\
            fst (transform sort_values agora (extraido df)) = false /\
            vendas_mensais (snd (transform sort_values agora (extraido df))) = None /\
            rfm_clientes (snd (transform sort_values agora (extraido df))) = None /\
            abc_produtos (snd (transform sort_values agora (extraido df))) = None).
  { destruct (dt_accessor df) as [e | datas] eqn:Ed.
    - destruct (transform_dt_erro sort_values agora df e Ed) as [Hb Ht].
      rewrite Ht. cbn. split; [eexists _, _; exact Hb |]. repeat split.
    - destruct (transform_num_erro sort_values agora df datas TypeError Ed Hnum)
        as [Hb Ht].
      rewrite Ht. cbn. split; [eexists _, _; exact Hb |]. repeat split. }
  destruct Hcore as (H1 & H2 & H3 & H4 & H5).
  repeat split; try assumption.
  apply run_false. exact H2.
Qed.

Lemma linha_com_texto_devolve_false_witness :
  fst (transform sort_estavel relogio_ex (extraido vendas_texto)) = false.
Proof.
  refine (proj1 (proj2 (linha_com_texto_devolve_false sort_estavel relogio_ex
                          vendas_texto _ nada_escrito _ _))).
  - left. reflexivity.
  - right. left. eexists. reflexivity.
Defined.

(** C5 as stated fails.  Text in the net revenue: the body raises TypeError
    and the caller only sees the return value False.  A missing sale date:
    [transform] returns True, and the record is left out of the monthly
    table (three sales counted out of four) while the other two tables
    count it. *)
Lemma linha_malformada_contraexemplo :
  fst (transform_body sort_estavel relogio_ex (extraido vendas_texto)) = inl TypeError /\
  fst (transform sort_estavel relogio_ex (extraido vendas_texto)) = false /\
  fst (transform sort_estavel relogio_ex (extraido vendas_sem_data)) = true /\
  List.length vendas_sem_data = 4%nat /\
  option_map (map Mensal.Qtd_Vendas)
    (vendas_mensais (snd (transform sort_estavel relogio_ex (extraido vendas_sem_data))))
  = Some [3] /\
  option_map (map RFM.Frequencia)
    (rfm_clientes (snd (transform sort_estavel relogio_ex (extraido vendas_sem_data))))
  = Some [3; 1].
Proof.
  repeat split; vm_compute; reflexivity.
Qed.

(** ** [qcut] on a column of equal values *)

Lemma In_qinsert x y l : In y (qinsert x l) -> y = x \/ In y l.
Proof.
  induction l as [| z l IH]; cbn.
  - intros [<- | []]. left. reflexivity.
  - destruct (Qle_bool x z); cbn.
    + intros [<- | H]; [left; reflexivity | right; exact H].
    + intros [<- | H]; [right; left; reflexivity |].
      destruct (IH H) as [-> | H']; [left; reflexivity | right; right; exact H'].
Qed.

Lemma In_qsort y l : In y (qsort l) -> In y l.
Proof.
  unfold qsort. induction l as [| x l IH]; cbn; [tauto |].
  intros H. apply In_qinsert in H. destruct H as [-> | H]; [left | right]; auto.
Qed.

Lemma qinsert_nao_vazio x l : qinsert x l <> [].
Proof. destruct l as [| z l]; cbn; [| destruct (Qle_bool x z)]; discriminate. Qed.

(** Every quantile of a non-empty column of values equal to [v] is [v]. *)
Lemma quantile_constante vals v p :
  vals <> [] -> (forall y, In y vals -> (y == v)%Q) ->
  exists q, quantile vals p = Fin q /\ (q == v)%Q.
Proof.
  intros Hne Hall. unfold quantile.
  destruct (qsort vals) as [| s0 s] eqn:Es.
  - exfalso. destruct vals as [| x vals]; [congruence |].
    unfold qsort in Es. cbn in Es. exact (qinsert_nao_vazio _ _ Es).
  - eexists. split; [reflexivity |].
    assert (Hs : forall y, In y (s0 :: s) -> (y == v)%Q).
    { intros y Hy. apply Hall, In_qsort. rewrite Es. exact Hy. }
    assert (Hn : forall n, (nth n (s0 :: s) s0 == v)%Q).
    { intros n. destruct (nth_in_or_default n (s0 :: s) s0) as [H | ->].
      - apply Hs. exact H.
      - apply Hs. left. reflexivity. }
    rewrite !Hn. ring.
Qed.

Lemma unique_In y l : In y (unique l) -> In y l.
Proof.
  revert y. induction l as [| x l IH]; intros y; cbn; [tauto |].
  intros [<- | H]; [left; reflexivity |].
  apply filter_In in H. right. apply IH. apply H.
Qed.

Lemma unique_todos_iguais a l :
  (forall y, In y l -> feqb a y = true) -> unique (a :: l) = [a].
Proof.
  intros H. cbn. f_equal.
  assert (G : forall m, (forall y, In y m -> feqb a y = true) ->
                        filter (fun y => negb (feqb a y)) m = []).
  { induction m as [| z m IH]; intros Hm; [reflexivity |].
    cbn. rewrite (Hm z (or_introl eq_refl)). cbn.
    apply IH. intros; apply Hm; right; assumption. }
  apply G. intros y Hy. apply H, unique_In, Hy.
Qed.

(** When the six quantile edges coincide, only one edge is left after the
    duplicates are dropped, and five labels do not fit: ValueError. *)
Lemma qcut_arestas_iguais x labels b0 rest :
  map (quantile (dropna x)) (linspace 5) = b0 :: rest ->
  (forall y, In y rest -> feqb b0 y = true) ->
  List.length labels = 5%nat ->
  qcut x 5 labels = inl ValueError.
Proof.
  intros Hb Heq Hl. unfold qcut.
  destruct (has_duplicates labels); [reflexivity |].
  rewrite Hb, (unique_todos_iguais b0 rest Heq).
  assert (L6 : List.length (b0 :: rest) = 6%nat).
  { rewrite <- Hb, length_map. reflexivity. }
  rewrite L6, Hl. reflexivity.
Qed.

Lemma qcut_constante (vals : list Q) v labels :
  (forall y, In y vals -> (y == v)%Q) ->
  List.length labels = 5%nat ->
  qcut (map Some vals) 5 labels = inl ValueError.
Proof.
  intros Hall Hl.
  destruct vals as [| x vals].
  - apply qcut_vazio. exact Hl.
  - assert (Hne : x :: vals <> []) by discriminate.
    assert (Hq : forall p, exists q, quantile (x :: vals) p = Fin q /\ (q == v)%Q).
    { intros p. apply quantile_constante; assumption. }
    apply (qcut_arestas_iguais _ _ (quantile (x :: vals) (0 # 5))
             (map (quantile (x :: vals)) (tl (linspace 5))));
      [rewrite dropna_Some; reflexivity | | exact Hl].
    intros y Hy. apply in_map_iff in Hy. destruct Hy as [p [<- _]].
    destruct (Hq (0 # 5)%Q) as (q0 & -> & E0).
    destruct (Hq p) as (q & -> & E). cbn.
    apply Qeq_bool_iff. rewrite E0, E. reflexivity.
Qed.

Lemma qcut_frequencia_identica (cs : list (Z * option Z * Z * Q)) :
  (forall c1 c2, In c1 cs -> In c2 cs -> snd (fst c1) = snd (fst c2)) ->
  qcut (map (fun c => Some (inject_Z (snd (fst c)))) cs) 5 [1; 2; 3; 4; 5]
  = inl ValueError.
Proof.
  intros Hsame.
  rewrite <- (map_map (fun c => inject_Z (snd (fst c))) Some).
  destruct cs as [| c0 cs'] eqn:Ecs.
  - apply qcut_vazio. reflexivity.
  - rewrite <- Ecs in *.
    apply (qcut_constante _ (inject_Z (snd (fst c0)))); [| reflexivity].
    intros y Hy. apply in_map_iff in Hy. destruct Hy as [c [<- Hc]].
    rewrite (Hsame c c0 Hc); [reflexivity |].
    rewrite Ecs. left. reflexivity.
Qed.

(** C1 (what the code does; the claim does not hold of it).  Whenever all
    customers have the same purchase frequency, the [qcut] call that scores
    the frequency raises ValueError: the six quantile edges collapse to one,
    and the five labels passed to [qcut] no longer fit.  [transform] then
    returns False and no RFM table, hence no F score, is assigned. *)
Theorem frequencia_identica_transform_falha sort_values agora df :
  (forall vs c1 c2,
      colunas_numericas df = inr vs ->
      In c1 (clientes_de agora vs) -> In c2 (clientes_de agora vs) ->
      snd (fst c1) = snd (fst c2)) ->
  fst (transform sort_values agora (extraido df)) = false /\
  rfm_clientes (snd (transform sort_values agora (extraido df))) = None /\
  forall vs,
    colunas_numericas df = inr vs ->
    qcut (map (fun c => Some (inject_Z (snd (fst c)))) (clientes_de agora vs))
         5 [1; 2; 3; 4; 5] = inl ValueError.
Proof.
  intros Hsame.
  assert (HF : forall vs, colunas_numericas df = inr vs ->
                 qcut (map (fun c => Some (inject_Z (snd (fst c)))) (clientes_de agora vs))
                      5 [1; 2; 3; 4; 5] = inl ValueError).
  { intros vs Evs. apply qcut_frequencia_identica.
    intros c1 c2. apply (Hsame vs c1 c2 Evs). }
  destruct (dt_accessor df) as [e | datas] eqn:Ed.
  { destruct (transform_dt_erro sort_values agora df e Ed) as [_ ->].
    repeat split. exact HF. }
  destruct (colunas_numericas df) as [e | vs] eqn:En.
  { destruct (transform_num_erro sort_values agora df datas e Ed En) as [_ ->].
    repeat split. exact HF. }
  rewrite (transform_tipado sort_values agora df datas vs Ed En).
  assert (Hr : exists e, rfm_de agora vs = inl e).
  { unfold rfm_de, bind.
    destruct (qcut _ 5 [5; 4; 3; 2; 1]) as [e | rs]; [eexists; reflexivity |].
    rewrite (HF vs eq_refl). eexists. reflexivity. }
  destruct Hr as [e ->]. repeat split. exact HF.
Qed.

Lemma frequencia_identica_transform_falha_witness :
  fst (transform sort_estavel relogio_ex (extraido vendas_uma_compra)) = false.
Proof.
  refine (proj1 (frequencia_identica_transform_falha sort_estavel relogio_ex
                   vendas_uma_compra _)).
  intros vs c1 c2 E. vm_compute in E. inversion E; subst vs; clear E.
  vm_compute. intros H1 H2.
  decompose [or] H1; decompose [or] H2; subst; try reflexivity; contradiction.
Defined.

(** ** What depends on the clock *)

Lemma qcut_length x q labels out :
  qcut x q labels = inr out -> List.length out = List.length x.
Proof.
  unfold qcut. intros H.
  destruct (has_duplicates labels); [discriminate |].
  match type of H with
  | (if ?c then _ else _) = _ => destruct c; [discriminate |]
  end.
  inversion H. rewrite !length_map. reflexivity.
Qed.

Lemma mapM_map {A B C} (f : A -> result B) (proj : B -> C) (h : A -> C) l out :
  mapM f l = inr out ->
  (forall a b, f a = inr b -> proj b = h a) ->
  map proj out = map h l.
Proof.
  intros H Hp. apply mapM_inr in H.
  induction H as [| a b l out Hab _ IH]; [reflexivity |].
  cbn. rewrite (Hp a b Hab), IH. reflexivity.
Qed.

Lemma combine_sem_recencia
      (cl1 cl2 : list (Z * option Z * Z * Q)) (rs1 rs2 : list (option Z))
      (fm : list (option Z * option Z)) :
  map (fun c => (fst (fst (fst c)), snd (fst c), snd c)) cl1
  = map (fun c => (fst (fst (fst c)), snd (fst c), snd c)) cl2 ->
  List.length rs1 = List.length rs2 ->
  map sem_recencia_de (combine cl1 (combine rs1 fm))
  = map sem_recencia_de (combine cl2 (combine rs2 fm)).
Proof.
  revert cl2 rs1 rs2 fm.
  induction cl1 as [| c1 cl1 IH]; intros cl2 rs1 rs2 fm Hc Hl;
    destruct cl2 as [| c2 cl2]; try discriminate; [reflexivity |].
  destruct rs1 as [| r1 rs1], rs2 as [| r2 rs2]; try discriminate; [reflexivity |].
  destruct fm as [| x fm]; [reflexivity |].
  cbn in Hc, Hl. inversion Hc as [[H1 H2 H3 H4]]. inversion Hl as [Hl'].
  cbn. rewrite (IH cl2 rs1 rs2 fm H4 Hl').
  unfold sem_recencia_de. cbn. rewrite H1, H2, H3. reflexivity.
Qed.

Lemma clientes_sem_recencia a1 a2 vs :
  map (fun c : Z * option Z * Z * Q => (fst (fst (fst c)), snd (fst c), snd c))
      (clientes_de a1 vs)
  = map (fun c : Z * option Z * Z * Q => (fst (fst (fst c)), snd (fst c), snd c))
        (clientes_de a2 vs).
Proof.
  unfold clientes_de. rewrite !map_map. apply map_ext.
  intros [k g]. reflexivity.
Qed.

Lemma clientes_coluna {B} a1 a2 vs (f : Z * Z * Q -> B) :
  map (fun c : Z * option Z * Z * Q => f (fst (fst (fst c)), snd (fst c), snd c))
      (clientes_de a1 vs)
  = map (fun c : Z * option Z * Z * Q => f (fst (fst (fst c)), snd (fst c), snd c))
        (clientes_de a2 vs).
Proof.
  unfold clientes_de. rewrite !map_map. apply map_ext.
  intros [k g]. reflexivity.
Qed.

Lemma rfm_de_sem_recencia a1 a2 vs rfm1 rfm2 :
  rfm_de a1 vs = inr rfm1 -> rfm_de a2 vs = inr rfm2 ->
  map sem_recencia rfm1 = map sem_recencia rfm2.
Proof.
  unfold rfm_de, bind. intros H1 H2.
  destruct (qcut _ 5 [5; 4; 3; 2; 1]) as [e | rs1] eqn:ER1 in H1; [discriminate |].
  destruct (qcut _ 5 [5; 4; 3; 2; 1]) as [e | rs2] eqn:ER2 in H2; [discriminate |].
  pose proof (clientes_coluna a1 a2 vs (fun t => Some (inject_Z (snd (fst t))))) as EF.
  pose proof (clientes_coluna a1 a2 vs (fun t => Some (snd t))) as EM.
  cbn [fst snd] in EF, EM. rewrite EF, EM in H1.
  destruct (qcut _ 5 [1; 2; 3; 4; 5]) as [e | fs] in H1, H2; [discriminate |].
  destruct (qcut _ 5 [1; 2; 3; 4; 5]) as [e | ms] in H1, H2; [discriminate |].
  assert (P : forall cs row, linha_rfm (fst cs) (snd cs) = inr row ->
                             sem_recencia row = sem_recencia_de cs).
  { intros [c [r [f m]]] row H. cbn [fst snd] in H.
    destruct (linha_rfm_inv _ _ _ _ _ H) as (_ & Hf & Hm & Hid & _ & Hfr & Hmo & _).
    unfold sem_recencia, sem_recencia_de. cbn [fst snd].
    rewrite Hf, Hm, Hid, Hfr, Hmo. reflexivity. }
  rewrite (mapM_map _ sem_recencia sem_recencia_de _ _ H1 P).
  rewrite (mapM_map _ sem_recencia sem_recencia_de _ _ H2 P).
  apply combine_sem_recencia.
  - apply clientes_sem_recencia.
  - rewrite (qcut_length _ _ _ _ ER1), (qcut_length _ _ _ _ ER2), !length_map.
    pose proof (f_equal (@List.length _) (clientes_sem_recencia a1 a2 vs)) as L.
    rewrite !length_map in L. exact L.
Qed.

(** C7 (as amended).  [transform] is a function of the sales table and of
    the clock value read at line 73.  Two successful runs on the same table
    agree on the normalised columns, the monthly table, the ABC table and,
    customer by customer, on frequency, monetary value and the F and M
    scores, whatever the two clock readings; with equal clock readings they
    agree on everything.  The recency of a customer is the number of whole
    days between the clock reading of the run and the customer's latest
    sale. *)
Theorem transform_e_o_relogio sort_values a1 a2 self s1 s2 :
  transform sort_values a1 self = (true, s1) ->
  transform sort_values a2 self = (true, s2) ->
  fato_vendas s1 = fato_vendas s2 /\
  col_Ano s1 = col_Ano s2 /\ col_Mes s1 = col_Mes s2 /\
  col_Dia_Semana s1 = col_Dia_Semana s2 /\
  col_Margem_Pct s1 = col_Margem_Pct s2 /\
  vendas_mensais s1 = vendas_mensais s2 /\
  abc_produtos s1 = abc_produtos s2 /\
  option_map (map sem_recencia) (rfm_clientes s1)
  = option_map (map sem_recencia) (rfm_clientes s2) /\
  (a1 = a2 -> s1 = s2) /\
  exists vs rfm,
    colunas_numericas (fato_vendas self) = inr vs /\
    rfm_clientes s1 = Some rfm /\
    forall row, In row rfm ->
      exists g,
        In (RFM.ID_Cliente row, g)
           (groupby Z.eqb Z.ltb (fun v => Some (Venda.ID_Cliente v)) vs) /\
        RFM.Recencia row
        = option_map (fun ultima => (a1 - ultima) / ns_per_day)
                     (max_data (map Venda.Data_Venda g)).
Proof.
  intros H1 H2.
  split; [| split; [| split; [| split; [| split; [| split; [| split; [| split; [| split]]]]]]]].
  9: { intros ->. congruence. }
  all: destruct (transform_true_inv _ _ _ _ H1) as (d1 & vs1 & rfm1 & Ed1 & En1 & Er1 & ->).
  all: destruct (transform_true_inv _ _ _ _ H2) as (d2 & vs2 & rfm2 & Ed2 & En2 & Er2 & ->).
  all: assert (d2 = d1) by congruence; assert (vs2 = vs1) by congruence; subst d2 vs2.
  all: cbn; try reflexivity.
  - f_equal. eapply rfm_de_sem_recencia; eassumption.
  - exists vs1, rfm1. repeat split; try assumption.
    intros row Hrow.
    destruct (rfm_de_rows _ _ _ _ Er1 Hrow) as (c & rs & fs & ms & Hc & _ & _ & _ & _ & _ & _ & Hl).
    destruct (linha_rfm_inv _ _ _ _ _ Hl) as (_ & _ & _ & Hid & Hrec & _).
    unfold clientes_de in Hc. apply in_map_iff in Hc.
    destruct Hc as [[k g] [<- Hg]].
    cbn in Hid, Hrec. exists g. rewrite Hid, Hrec. split; [exact Hg |].
    reflexivity.
Qed.

Lemma transform_e_o_relogio_witness :
  vendas_mensais (snd (transform sort_estavel relogio_ex (extraido vendas_ex)))
  = vendas_mensais
      (snd (transform sort_estavel (relogio_ex + ns_per_day) (extraido vendas_ex))) /\
  abc_produtos (snd (transform sort_estavel relogio_ex (extraido vendas_ex)))
  = abc_produtos
      (snd (transform sort_estavel (relogio_ex + ns_per_day) (extraido vendas_ex))).
Proof.
  destruct (transform_e_o_relogio sort_estavel relogio_ex (relogio_ex + ns_per_day)
              (extraido vendas_ex)
              (snd (transform sort_estavel relogio_ex (extraido vendas_ex)))
              (snd (transform sort_estavel (relogio_ex + ns_per_day) (extraido vendas_ex))))
    as (_ & _ & _ & _ & _ & Hm & Ha & _).
  - vm_compute. reflexivity.
  - vm_compute. reflexivity.
  - split; [exact Hm | exact Ha].
Defined.

(** C7 as stated fails: the same table run at two readings of the clock one
    day apart gets different recencies; and a table with a sale made at noon
    is scored at 18:00 but rejected at 06:00 of the same day (the two
    recencies then coincide and [qcut] raises). *)
Lemma recencia_muda_com_o_relogio :
  fst (transform sort_estavel relogio_ex (extraido vendas_ex)) = true /\
  fst (transform sort_estavel (relogio_ex + ns_per_day) (extraido vendas_ex)) = true /\
  option_map (map RFM.Recencia)
    (rfm_clientes (snd (transform sort_estavel relogio_ex (extraido vendas_ex))))
  = Some [Some 9; Some 10] /\
  option_map (map RFM.Recencia)
    (rfm_clientes
       (snd (transform sort_estavel (relogio_ex + ns_per_day) (extraido vendas_ex))))
  = Some [Some 10; Some 11] /\
  fst (transform sort_estavel (meia_noite 19010 + 18 * 3600 * 1000000000)
         (extraido vendas_meio_dia)) = true /\
  fst (transform sort_estavel (meia_noite 19010 + 6 * 3600 * 1000000000)
         (extraido vendas_meio_dia)) = false.
Proof.
  repeat split; vm_compute; reflexivity.
Qed.

(** ** One RFM row per customer, labelled by the rule chain *)

Lemma map_fst_combine {A B C} (f : A -> C) (l1 : list A) (l2 : list B) :
  (List.length l1 <= List.length l2)%nat ->
  map (fun p => f (fst p)) (combine l1 l2) = map f l1.
Proof.
  revert l2. induction l1 as [| a l1 IH]; intros l2 H; [reflexivity |].
  destruct l2 as [| b l2]; cbn in H; [lia |].
  cbn. rewrite IH by lia. reflexivity.
Qed.

Lemma rfm_de_ids hoje vs rfm :
  rfm_de hoje vs = inr rfm ->
  map RFM.ID_Cliente rfm = chaves Z.eqb Z.ltb (map Venda.ID_Cliente vs).
Proof.
  unfold rfm_de, bind. intros H.
  destruct (qcut _ 5 [5; 4; 3; 2; 1]) as [e | rs] eqn:ER; [discriminate |].
  destruct (qcut _ 5 [1; 2; 3; 4; 5]) as [e | fs] eqn:EF; [discriminate |].
  destruct (qcut (map (fun c => Some (snd c)) _) 5 [1; 2; 3; 4; 5])
    as [e | ms] eqn:EM; [discriminate |].
  apply qcut_length in ER, EF, EM. rewrite length_map in ER, EF, EM.
  rewrite (mapM_map _ RFM.ID_Cliente
             (fun cs : (Z * option Z * Z * Q) * (option Z * (option Z * option Z)) =>
                fst (fst (fst (fst cs)))) _ _ H).
  - rewrite (map_fst_combine (fun c : Z * option Z * Z * Q => fst (fst (fst c)))).
    + unfold clientes_de, groupby. rewrite !map_map. cbn.
      rewrite map_id.
      rewrite <- (map_map Venda.ID_Cliente Some), dropna_Some. reflexivity.
    + rewrite !length_combine. lia.
  - intros [c [r [f m]]] row Hl. cbn [fst snd] in Hl.
    destruct (linha_rfm_inv _ _ _ _ _ Hl) as (_ & _ & _ & Hid & _).
    exact Hid.
Qed.

Lemma segment_customer_chave r f m :
  (forall k, r = Some k -> 1 <= k <= 5) ->
  (forall k, f = Some k -> 1 <= k <= 5) ->
  segment_customer (astype_str r ++ astype_str f ++ astype_str m)
  = inr (rotulo (segmento_da_chave r f)).
Proof.
  intros Hr Hf. destruct r as [r |]; [| apply segment_customer_nan_R].
  specialize (Hr r eq_refl).
  destruct f as [f |].
  - apply segment_customer_digits; [exact Hr | apply Hf; reflexivity].
  - apply segment_customer_nan_F. exact Hr.
Qed.

Lemma tipar_cliente l v : tipar l = Some v -> Venda.ID_Cliente v = Linha.ID_Cliente l.
Proof.
  unfold tipar.
  destruct (as_datetime (Linha.Data_Venda l)); [| discriminate].
  destruct (as_number (Linha.Receita_Liquida l)); [| discriminate].
  destruct (as_number (Linha.Lucro_Bruto l)); [| discriminate].
  intros H; inversion H. reflexivity.
Qed.

Lemma Forall2_In_l {A B} (R : A -> B -> Prop) l l' a :
  Forall2 R l l' -> In a l -> exists b, In b l' /\ R a b.
Proof.
  induction 1 as [| x y l l' Hxy _ IH]; intros Hin; [inversion Hin |].
  destruct Hin as [-> | Hin].
  - exists y. split; [left; reflexivity | assumption].
  - destruct (IH Hin) as [b [Hb Hr]]. exists b. split; [right |]; assumption.
Qed.

(** The rows of the RFM table of a successful [transform]: one per
    customer, each labelled by [segment_customer] from its score key. *)
Lemma segmento_rotulado sort_values agora self self' rfm :
  transform sort_values agora self = (true, self') ->
  rfm_clientes self' = Some rfm ->
  (forall l, In l (fato_vendas self) ->
             exists row, In row rfm /\ RFM.ID_Cliente row = Linha.ID_Cliente l) /\
  NoDup (map RFM.ID_Cliente rfm) /\
  forall row, In row rfm ->
    RFM.Segmento_RFM row
    = rotulo (segmento_da_chave (RFM.R_Score row) (RFM.F_Score row)) /\
    (forall r, RFM.R_Score row = Some r -> 1 <= r <= 5) /\
    (forall f, RFM.F_Score row = Some f -> 1 <= f <= 5) /\
    segment_customer (RFM.RFM_Score row) = inr (RFM.Segmento_RFM row) /\
    RFM.RFM_Score row
    = astype_str (RFM.R_Score row) ++ astype_str (RFM.F_Score row)
      ++ astype_str (RFM.M_Score row).
Proof.
  intros Ht Hrfm.
  destruct (transform_true_inv _ _ _ _ Ht) as (datas & vs & rfm' & E1 & E2 & E3 & ->).
  cbn in Hrfm. inversion Hrfm; subst rfm'; clear Hrfm.
  pose proof (rfm_de_ids _ _ _ E3) as Hids.
  split; [| split].
  - intros l Hl.
    destruct (Forall2_In_l _ _ _ _ (colunas_numericas_tipadas _ _ E2) Hl)
      as [v [Hv Hlv]].
    assert (Hk : In (Linha.ID_Cliente l) (map RFM.ID_Cliente rfm)).
    { rewrite Hids. apply (In_chaves Z.eqb Z.ltb Z.eqb_eq).
      rewrite <- (tipar_cliente l v Hlv). apply in_map. exact Hv. }
    apply in_map_iff in Hk. destruct Hk as [row [Hid Hrow]].
    exists row. split; assumption.
  - rewrite Hids.
    apply (NoDup_chaves Z.eqb Z.ltb Z.eqb_eq Z.ltb_irrefl zltb_trans zltb_total).
  - intros row Hrow.
    destruct (rfm_de_rows _ _ _ _ E3 Hrow)
      as (c & rs & fs & ms & Hc & ER & EF & EM & Hr & Hf & Hm & Hl).
    destruct (linha_rfm_inv _ _ _ _ _ Hl) as (_ & _ & _ & _ & _ & _ & _ & Hsc & Hseg).
    assert (HR : forall r, RFM.R_Score row = Some r -> 1 <= r <= 5).
    { intros r Er. apply score_1_5. left.
      apply (qcut_labels _ _ _ _ ER). rewrite <- Er. exact Hr. }
    assert (HF : forall f, RFM.F_Score row = Some f -> 1 <= f <= 5).
    { intros f Ef. apply score_1_5. right.
      apply (qcut_labels _ _ _ _ EF). rewrite <- Ef. exact Hf. }
    repeat split; try assumption; try (apply HR; assumption); try (apply HF; assumption).
    pose proof (segment_customer_chave (RFM.R_Score row) (RFM.F_Score row)
                  (RFM.M_Score row) HR HF) as Hch.
    rewrite <- Hsc, Hseg in Hch. inversion Hch. reflexivity.
Qed.

Lemma cadeia_de_regras_rotulo r f : rotulo (segmento_spec r f) = cadeia_de_regras r f.
Proof.
  unfold segmento_spec, cadeia_de_regras.
  destruct (entre r [4; 5] && entre f [4; 5]); [reflexivity |].
  destruct (entre r [3; 4; 5] && entre f [3; 4]); [reflexivity |].
  destruct (entre r [4; 5] && entre f [1; 2]); [reflexivity |].
  destruct (entre r [2; 3] && entre f [2; 3; 4]); reflexivity.
Qed.

Lemma rotulo_do_programa s : In (rotulo s) rotulos_do_programa.
Proof. destruct s; cbn; tauto. Qed.

(** C6 (as amended).  After a [transform] that returned True every customer
    with at least one sale has exactly one row in the RFM table; the
    segment of each row is one of the five labels the program writes,
    "Champions", "Leais", "Potencial", "Em Risco" and "Perdidos"; and for
    a row with an R score and an F score it is the label that the ordered
    rule chain gives for that key, first match winning: R in {4,5} and F
    in {4,5} Champions; else R in {3,4,5} and F in {3,4} Leais; else R in
    {4,5} and F in {1,2} Potencial; else R in {2,3} and F in {2,3,4}
    Em Risco; otherwise Perdidos. *)
Theorem segmento_pela_cadeia_de_regras sort_values agora self self' rfm :
  transform sort_values agora self = (true, self') ->
  rfm_clientes self' = Some rfm ->
  (forall l, In l (fato_vendas self) ->
             exists row, In row rfm /\ RFM.ID_Cliente row = Linha.ID_Cliente l) /\
  NoDup (map RFM.ID_Cliente rfm) /\
  forall row, In row rfm ->
    In (RFM.Segmento_RFM row) rotulos_do_programa /\
    (forall r, RFM.R_Score row = Some r -> 1 <= r <= 5) /\
    (forall f, RFM.F_Score row = Some f -> 1 <= f <= 5) /\
    (forall r f,
        RFM.R_Score row = Some r -> RFM.F_Score row = Some f ->
        RFM.Segmento_RFM row = cadeia_de_regras r f) /\
    segment_customer (RFM.RFM_Score row) = inr (RFM.Segmento_RFM row).
Proof.
  intros Ht Hrfm.
  destruct (segmento_rotulado sort_values agora self self' rfm Ht Hrfm)
    as (Hcob & Hnd & Hrows).
  split; [exact Hcob |]. split; [exact Hnd |].
  intros row Hrow. destruct (Hrows row Hrow) as (Hseg & HR & HF & Hsc & _).
  split; [rewrite Hseg; apply rotulo_do_programa |].
  split; [exact HR |]. split; [exact HF |]. split; [| exact Hsc].
  intros r f Er Ef. rewrite Hseg, Er, Ef. cbn [segmento_da_chave].
  apply cadeia_de_regras_rotulo.
Qed.

Lemma segmento_pela_cadeia_de_regras_witness :
  option_map (map (fun row => (RFM.R_Score row, RFM.F_Score row, RFM.Segmento_RFM row)))
    (rfm_clientes (snd (transform sort_estavel relogio_ex (extraido vendas_ex))))
  = Some [(Some 5, Some 5, "Champions"); (Some 1, Some 1, "Perdidos")] /\
  NoDup (map RFM.ID_Cliente
           (match rfm_clientes (snd (transform sort_estavel relogio_ex (extraido vendas_ex)))
            with Some rfm => rfm | None => [] end)).
Proof.
  split; [vm_compute; reflexivity |].
  destruct (rfm_clientes (snd (transform sort_estavel relogio_ex (extraido vendas_ex))))
    as [rfm |] eqn:E; [| constructor].
  refine (proj1 (proj2 (segmento_pela_cadeia_de_regras sort_estavel relogio_ex
                          (extraido vendas_ex)
                          (snd (transform sort_estavel relogio_ex (extraido vendas_ex)))
                          rfm _ E))).
  vm_compute. reflexivity.
Defined.

(** C6 as stated fails: the customer of [vendas_ex] whose key is (1, 1),
    where the claim's chain gives Lost, is labelled "Perdidos", which is
    none of the labels Champions, Loyal, Potential, At Risk, Lost. *)
Lemma segmento_contraexemplo :
  exists rfm row,
    rfm_clientes (snd (transform sort_estavel relogio_ex (extraido vendas_ex)))
    = Some rfm /\
    In row rfm /\
    RFM.ID_Cliente row = 2 /\
    RFM.R_Score row = Some 1 /\ RFM.F_Score row = Some 1 /\
    segmento_spec 1 1 = Lost /\
    RFM.Segmento_RFM row = "Perdidos" /\
    ~ In (RFM.Segmento_RFM row) rotulos_do_spec.
Proof.
  destruct (rfm_clientes (snd (transform sort_estavel relogio_ex (extraido vendas_ex))))
    as [[| r1 [| r2 rest]] |] eqn:E; try (vm_compute in E; discriminate).
  exists (r1 :: r2 :: rest), r2.
  vm_compute in E. inversion E; subst r1 r2 rest.
  split; [reflexivity |]. split; [right; left; reflexivity |].
  repeat (split; [reflexivity |]).
  cbn. intros [H | [H | [H | [H | [H | []]]]]]; discriminate.
Qed.

(* ===================================================================== *)
(** * Further properties of the pipeline *)
(* ===================================================================== *)

(** ** The monthly table *)

Lemma chave_mensal_tem_data v :
  (exists k, chave_mensal v = Some k) <-> tem_data v = true.
Proof.
  unfold chave_mensal, tem_data, dt_year, dt_month.
  destruct (Venda.Data_Venda v); cbn; split; intros H.
  - reflexivity.
  - eexists. reflexivity.
  - destruct H as [k H]. discriminate.
  - discriminate.
Qed.

Lemma com_chave_mensal vs : com_chave chave_mensal vs = filter tem_data vs.
Proof.
  unfold com_chave. apply filter_ext. intros v.
  unfold chave_mensal, tem_data, dt_year, dt_month.
  destruct (Venda.Data_Venda v); reflexivity.
Qed.

Lemma chaves_mensais vs :
  map (fun m => (Mensal.Ano m, Mensal.Mes m)) (vendas_mensais_de vs)
  = chaves par_eqb par_ltb (dropna (map chave_mensal vs)).
Proof.
  unfold vendas_mensais_de, groupby. rewrite !map_map. cbn.
  erewrite map_ext; [apply map_id |].
  intros [a m]. reflexivity.
Qed.

Lemma In_dropna {A} (a : A) l : In a (dropna l) <-> In (Some a) l.
Proof.
  induction l as [| [x |] l IH]; cbn.
  - tauto.
  - rewrite IH. split; intros [H | H]; auto.
    + left. congruence.
    + left. congruence.
  - rewrite IH. split; [auto | intros [H | H]; [discriminate | exact H]].
Qed.

Lemma par_ltb_mes_antes a b : par_ltb a b = true <-> mes_antes a b.
Proof.
  unfold par_ltb, mes_antes.
  rewrite orb_true_iff, andb_true_iff, !Z.ltb_lt, Z.eqb_eq. tauto.
Qed.

(** X1.  The monthly table has exactly one row for each (year, month) in
    which some sale is dated, and its rows come by strictly increasing
    (year, month). *)
Theorem meses_distintos_e_crescentes vs :
  StronglySorted mes_antes
    (map (fun m => (Mensal.Ano m, Mensal.Mes m)) (vendas_mensais_de vs)) /\
  NoDup (map (fun m => (Mensal.Ano m, Mensal.Mes m)) (vendas_mensais_de vs)) /\
  forall k,
    In k (map (fun m => (Mensal.Ano m, Mensal.Mes m)) (vendas_mensais_de vs))
    <-> exists v, In v vs /\ chave_mensal v = Some k.
Proof.
  rewrite chaves_mensais. split; [| split].
  - pose proof (crescente_chaves par_eqb par_ltb par_eqb_eq par_ltb_trans
                  par_ltb_total (dropna (map chave_mensal vs))) as H.
    induction H as [| k r Hr IH Hall]; constructor; [exact IH |].
    eapply Forall_impl; [| exact Hall].
    intros b Hb. apply par_ltb_mes_antes. exact Hb.
  - apply (NoDup_chaves par_eqb par_ltb par_eqb_eq par_ltb_irrefl
             par_ltb_trans par_ltb_total).
  - intros k. rewrite (In_chaves par_eqb par_ltb par_eqb_eq), In_dropna, in_map_iff.
    split; intros [v [H1 H2]]; exists v; auto.
Qed.

Lemma zsum_cons x l : zsum (x :: l) = x + zsum l.
Proof. reflexivity. Qed.

Lemma qsum_inject l : (qsum (map inject_Z l) == inject_Z (zsum l))%Q.
Proof.
  induction l as [| x l IH]; [reflexivity |].
  cbn [map]. rewrite qsum_cons, zsum_cons, IH, inject_Z_plus. reflexivity.
Qed.

Lemma qsum_map_eq {A} (f g : A -> Q) l :
  (forall x, (f x == g x)%Q) -> (qsum (map f l) == qsum (map g l))%Q.
Proof.
  intros H. induction l as [| x l IH]; [reflexivity |].
  cbn [map]. rewrite !qsum_cons, IH, (H x). reflexivity.
Qed.

Section SomaGruposZ.
Context {K A : Type}.
Variable eqb : K -> K -> bool.
Variable ltb : K -> K -> bool.
Hypothesis eqb_eq : forall a b, eqb a b = true <-> a = b.
Hypothesis ltb_irrefl : forall a, ltb a a = false.
Hypothesis ltb_trans : forall a b c, ltb a b = true -> ltb b c = true -> ltb a c = true.
Hypothesis ltb_total : forall a b, eqb a b = false -> ltb a b = false -> ltb b a = true.
Variable key : A -> option K.
Variable g : A -> Z.

(** The integer sums over the groups add up to the sum over the rows that
    have a key. *)
Lemma soma_grupos_Z rows :
  zsum (map (fun grp => zsum (map g (snd grp))) (groupby eqb ltb key rows))
  = zsum (map g (com_chave key rows)).
Proof.
  apply inject_Z_injective.
  rewrite <- !qsum_inject, !map_map.
  rewrite <- (soma_grupos eqb ltb eqb_eq ltb_irrefl ltb_trans ltb_total key
                (fun a => inject_Z (g a)) rows).
  apply qsum_map_eq. intros grp.
  rewrite <- qsum_inject, map_map. reflexivity.
Qed.
End SomaGruposZ.

Lemma zsum_uns {A} (l : list A) : zsum (map (fun _ => 1) l) = Z.of_nat (List.length l).
Proof.
  induction l as [| x l IH]; [reflexivity |].
  cbn [map List.length]. rewrite zsum_cons, IH. lia.
Qed.

(** ** Sums of an int64 column *)

Lemma int64_soma_esq a b : int64 (int64 a + b) = int64 (a + b).
Proof.
  unfold int64. f_equal.
  replace ((a + 2 ^ 63) mod 2 ^ 64 - 2 ^ 63 + b + 2 ^ 63)
    with ((a + 2 ^ 63) mod 2 ^ 64 + b) by ring.
  rewrite Zplus_mod_idemp_l. f_equal. ring.
Qed.

Lemma int64_soma_dir a b : int64 (a + int64 b) = int64 (a + b).
Proof. rewrite Z.add_comm, int64_soma_esq, Z.add_comm. reflexivity. Qed.

Lemma int64_pequeno z : - 2 ^ 63 <= z < 2 ^ 63 -> int64 z = z.
Proof. intros H. unfold int64. rewrite Z.mod_small; lia. Qed.

Lemma soma_int64_zsum l : soma_int64 l = int64 (zsum l).
Proof.
  unfold soma_int64.
  assert (G : forall acc,
             fold_left (fun a x => int64 (a + x)) l (int64 acc)
             = int64 (acc + zsum l)).
  { induction l as [| x l IH]; intros acc; cbn [fold_left].
    - unfold zsum. cbn [fold_right]. rewrite Z.add_0_r. reflexivity.
    - rewrite int64_soma_esq, IH, zsum_cons. f_equal. ring. }
  change 0 with (int64 0) at 1. rewrite G. reflexivity.
Qed.

Lemma int64_zsum_map l : int64 (zsum (map int64 l)) = int64 (zsum l).
Proof.
  induction l as [| x l IH]; [reflexivity |].
  cbn [map]. rewrite !zsum_cons, int64_soma_esq.
  rewrite <- int64_soma_dir, IH, int64_soma_dir. reflexivity.
Qed.

Lemma zsum_nao_negativo l : (forall x, In x l -> 0 <= x) -> 0 <= zsum l.
Proof.
  induction l as [| x l IH]; intros H; [cbn; lia |].
  rewrite zsum_cons. pose proof (H x (or_introl eq_refl)).
  assert (0 <= zsum l) by (apply IH; intros; apply H; right; assumption). lia.
Qed.

Lemma parcela_limitada l x :
  (forall y, In y l -> 0 <= y) -> In x l -> x <= zsum l.
Proof.
  induction l as [| y l IH]; intros H Hx; [destruct Hx |].
  rewrite zsum_cons. pose proof (H y (or_introl eq_refl)).
  assert (Hl : forall z, In z l -> 0 <= z) by (intros; apply H; right; assumption).
  pose proof (zsum_nao_negativo l Hl).
  destruct Hx as [<- | Hx]; [lia |]. pose proof (IH Hl Hx). lia.
Qed.

Lemma int64_parcelas l :
  (forall y, In y l -> 0 <= y) -> zsum l < 2 ^ 63 -> map int64 l = l.
Proof.
  intros Hp Hs. rewrite <- (map_id l) at 2. apply map_ext_in. intros x Hx.
  apply int64_pequeno. pose proof (Hp x Hx). pose proof (parcela_limitada l x Hp Hx).
  lia.
Qed.

Section QuantidadePorGrupo.
Context {K : Type}.
Variable eqb : K -> K -> bool.
Variable ltb : K -> K -> bool.
Hypothesis eqb_eq : forall a b, eqb a b = true <-> a = b.
Hypothesis ltb_irrefl : forall a, ltb a a = false.
Hypothesis ltb_trans : forall a b c, ltb a b = true -> ltb b c = true -> ltb a c = true.
Hypothesis ltb_total : forall a b, eqb a b = false -> ltb a b = false -> ltb b a = true.
Variable key : Venda.t -> option K.

(** The int64 totals of the groups, added again in int64, give the int64
    total of the rows that have a key. *)
Lemma quantidade_dos_grupos rows :
  soma_int64 (map (fun grp => soma_int64 (map Venda.Quantidade (snd grp)))
                  (groupby eqb ltb key rows))
  = soma_int64 (map Venda.Quantidade (com_chave key rows)).
Proof.
  rewrite !soma_int64_zsum.
  rewrite <- (soma_grupos_Z eqb ltb eqb_eq ltb_irrefl ltb_trans ltb_total
                key Venda.Quantidade rows).
  rewrite <- (int64_zsum_map
                (map (fun grp => zsum (map Venda.Quantidade (snd grp)))
                     (groupby eqb ltb key rows))).
  rewrite map_map. f_equal. f_equal.
  apply map_ext. intros grp. apply soma_int64_zsum.
Qed.

(** Without overflow the totals are those of ordinary addition. *)
Lemma quantidade_dos_grupos_exata rows :
  (forall v, In v rows -> 0 <= Venda.Quantidade v) ->
  zsum (map Venda.Quantidade (com_chave key rows)) < 2 ^ 63 ->
  map (fun grp => soma_int64 (map Venda.Quantidade (snd grp)))
      (groupby eqb ltb key rows)
  = map (fun grp => zsum (map Venda.Quantidade (snd grp)))
        (groupby eqb ltb key rows).
Proof.
  intros Hp Hs.
  rewrite <- (soma_grupos_Z eqb ltb eqb_eq ltb_irrefl ltb_trans ltb_total
                key Venda.Quantidade rows) in Hs.
  erewrite map_ext; [| intros grp; apply soma_int64_zsum].
  rewrite <- (map_map (fun grp => zsum (map Venda.Quantidade (snd grp))) int64).
  apply int64_parcelas; [| exact Hs].
  intros y Hy. apply in_map_iff in Hy. destruct Hy as [[k grp] [<- Hg]].
  apply zsum_nao_negativo. intros x Hx. apply in_map_iff in Hx.
  destruct Hx as [v [<- Hv]]. apply Hp.
  unfold groupby in Hg. apply in_map_iff in Hg. destruct Hg as [k' [E _]].
  inversion E; subst. cbn in Hv. unfold do_grupo in Hv.
  apply (proj1 (filter_In _ _ _)) in Hv. apply Hv.
Qed.
End QuantidadePorGrupo.

(** X2.  Each total of the monthly table equals the same total over the
    sales that have a date: net revenue, gross profit, quantity, and the
    number of sales.  A sale without a date is in no month.  The quantity
    column is int64: its totals agree as int64 sums, and as plain integers
    when the quantities are not negative and their total is below 2^63. *)
Theorem totais_mensais_das_vendas_datadas vs :
  (qsum (map Mensal.Receita_Liquida (vendas_mensais_de vs))
   == qsum (map Venda.Receita_Liquida (filter tem_data vs)))%Q /\
  (qsum (map Mensal.Lucro_Bruto (vendas_mensais_de vs))
   == qsum (map Venda.Lucro_Bruto (filter tem_data vs)))%Q /\
  soma_int64 (map Mensal.Quantidade (vendas_mensais_de vs))
  = soma_int64 (map Venda.Quantidade (filter tem_data vs)) /\
  ((forall v, In v vs -> 0 <= Venda.Quantidade v) ->
   zsum (map Venda.Quantidade (filter tem_data vs)) < 2 ^ 63 ->
   zsum (map Mensal.Quantidade (vendas_mensais_de vs))
   = zsum (map Venda.Quantidade (filter tem_data vs))) /\
  zsum (map Mensal.Qtd_Vendas (vendas_mensais_de vs))
  = Z.of_nat (List.length (filter tem_data vs)).
Proof.
  rewrite <- com_chave_mensal.
  split; [apply soma_mensal |].
  unfold vendas_mensais_de. rewrite !map_map.
  split; [| split; [| split]].
  - rewrite <- (soma_grupos par_eqb par_ltb par_eqb_eq par_ltb_irrefl
                  par_ltb_trans par_ltb_total chave_mensal Venda.Lucro_Bruto vs).
    erewrite map_ext; [reflexivity |]. intros [k grp]. reflexivity.
  - rewrite <- (quantidade_dos_grupos par_eqb par_ltb par_eqb_eq par_ltb_irrefl
                  par_ltb_trans par_ltb_total chave_mensal vs).
    f_equal. apply map_ext. intros [k grp]. reflexivity.
  - intros Hp Hs.
    rewrite <- (soma_grupos_Z par_eqb par_ltb par_eqb_eq par_ltb_irrefl
                  par_ltb_trans par_ltb_total chave_mensal Venda.Quantidade vs).
    rewrite <- (quantidade_dos_grupos_exata par_eqb par_ltb par_eqb_eq par_ltb_irrefl
                  par_ltb_trans par_ltb_total chave_mensal vs Hp Hs).
    f_equal. apply map_ext. intros [k grp]. reflexivity.
  - rewrite <- zsum_uns.
    rewrite <- (map_map (fun _ : Venda.t => 1) (fun x => x)), map_id.
    rewrite <- (soma_grupos_Z par_eqb par_ltb par_eqb_eq par_ltb_irrefl
                  par_ltb_trans par_ltb_total chave_mensal (fun _ => 1) vs).
    erewrite map_ext; [reflexivity |]. intros [k grp]. cbn.
    rewrite zsum_uns. reflexivity.
Qed.

(** ** No empty month *)

Lemma grupo_nao_vazio {K A} (eqb ltb : K -> K -> bool) (key : A -> option K) rows k grp :
  (forall a b, eqb a b = true <-> a = b) ->
  In (k, grp) (groupby eqb ltb key rows) ->
  (exists r, In r grp) /\ forall r, In r grp -> In r rows /\ key r = Some k.
Proof.
  intros Heq Hin. unfold groupby in Hin. apply in_map_iff in Hin.
  destruct Hin as [k' [E Hk]]. inversion E; subst k' grp; clear E.
  apply (proj1 (In_chaves eqb ltb Heq _ _)) in Hk.
  apply (proj1 (In_dropna _ _)) in Hk.
  apply in_map_iff in Hk. destruct Hk as [r [Hr Hin]].
  split.
  - exists r. unfold do_grupo. apply filter_In. split; [exact Hin |].
    rewrite Hr. apply Heq. reflexivity.
  - intros r0 H0. unfold do_grupo in H0. apply filter_In in H0.
    destruct H0 as [H1 H2]. split; [exact H1 |].
    destruct (key r0) as [k0 |]; [| discriminate].
    apply Heq in H2. subst k0. reflexivity.
Qed.

(** X3.  Every row of the monthly table counts at least one sale, so its
    average ticket is a finite number, never NaN or an infinity, and it
    lies at most 0.005 away from the net revenue of the month divided by
    the number of sales. *)
Theorem ticket_medio_finito vs row :
  In row (vendas_mensais_de vs) ->
  1 <= Mensal.Qtd_Vendas row /\
  exists t,
    Mensal.Ticket_Medio row = Fin t /\
    (t - (1 # 200)
     <= Mensal.Receita_Liquida row / inject_Z (Mensal.Qtd_Vendas row)
     <= t + (1 # 200))%Q.
Proof.
  unfold vendas_mensais_de. intros Hin. apply in_map_iff in Hin.
  destruct Hin as [[k grp] [<- Hg]].
  destruct (grupo_nao_vazio par_eqb par_ltb chave_mensal vs k grp par_eqb_eq Hg)
    as [[r Hr] _].
  assert (Hlen : 1 <= Z.of_nat (List.length grp)).
  { destruct grp as [| x grp]; [destruct Hr |]. cbn [List.length]. lia. }
  cbn [agrega_mes Mensal.Qtd_Vendas Mensal.Ticket_Medio Mensal.Receita_Liquida].
  split; [exact Hlen |].
  unfold fdiv.
  destruct (Qeq_bool (inject_Z (Z.of_nat (List.length grp))) 0) eqn:E.
  - apply Qeq_bool_iff in E. exfalso.
    change 0%Q with (inject_Z 0) in E.
    apply (proj1 (inject_Z_injective _ _)) in E. lia.
  - cbn. eexists. split; [reflexivity |]. apply round2_perto.
Qed.

Lemma ticket_medio_finito_witness :
  match vendas_mensais_de
          [Venda.mk 1 1 10 (Some (meia_noite 19000)) 1 100 40;
           Venda.mk 2 1 10 (Some (meia_noite 19001)) 1 200 80;
           Venda.mk 3 2 20 (Some (meia_noite 19000)) 1 50 10] with
  | row :: _ => 1 <= Mensal.Qtd_Vendas row
  | [] => False
  end.
Proof.
  destruct (vendas_mensais_de _) as [| row rest] eqn:E;
    [vm_compute in E; discriminate |].
  refine (proj1 (ticket_medio_finito
                   [Venda.mk 1 1 10 (Some (meia_noite 19000)) 1 100 40;
                    Venda.mk 2 1 10 (Some (meia_noite 19001)) 1 200 80;
                    Venda.mk 3 2 20 (Some (meia_noite 19000)) 1 50 10] row _)).
  rewrite E. left. reflexivity.
Defined.

(** ** Segment labels on arbitrary keys *)

(** X4.  [segment_customer] reads the first two characters of its argument
    and nothing else: on a string of at least two characters it never raises
    and returns one of the five labels, the same as for the two-character
    prefix alone. *)
Theorem segment_customer_dois_caracteres (a b : ascii) (resto : string) :
  (exists seg, segment_customer (String a (String b resto)) = inr (rotulo seg)) /\
  segment_customer (String a (String b resto))
  = segment_customer (String a (String b EmptyString)).
Proof.
  unfold segment_customer, in_at, getitem, e_and, bind, ret. cbn [String.get].
  split.
  - repeat match goal with
           | |- context [pertence ?c ?l] => destruct (pertence c l)
           end;
      first [ exists Champions; reflexivity
            | exists Loyal; reflexivity
            | exists Potential; reflexivity
            | exists At_Risk; reflexivity
            | exists Lost; reflexivity ].
  - reflexivity.
Qed.

(** ** What a failed [transform] leaves behind *)

(** X5.  [transform] changes [self] up to the statement that raises.  With
    an unparseable date nothing is assigned; with text in a numeric column
    the three calendar columns are assigned and nothing else; when the
    scoring raises, the calendar columns, the margin and the monthly table
    are assigned while the RFM and ABC tables keep what they held. *)
Theorem transform_falho_estado sort_values agora self :
  (forall e, dt_accessor (fato_vendas self) = inl e ->
             transform sort_values agora self = (false, self)) /\
  (forall datas e,
      dt_accessor (fato_vendas self) = inr datas ->
      colunas_numericas (fato_vendas self) = inl e ->
      transform sort_values agora self
      = (false,
         mkETL (fato_vendas self) (Some (map dt_year datas))
               (Some (map dt_month datas)) (Some (map dt_dayofweek datas))
               (col_Margem_Pct self) (vendas_mensais self) (rfm_clientes self)
               (abc_produtos self))) /\
  (forall datas vs e,
      dt_accessor (fato_vendas self) = inr datas ->
      colunas_numericas (fato_vendas self) = inr vs ->
      rfm_de agora vs = inl e ->
      transform sort_values agora self
      = (false,
         mkETL (fato_vendas self) (Some (map dt_year datas))
               (Some (map dt_month datas)) (Some (map dt_dayofweek datas))
               (Some (map margem_pct vs)) (Some (vendas_mensais_de vs))
               (rfm_clientes self) (abc_produtos self))).
Proof.
  destruct self as [f a b c d x g h]. rewrite transform_eq.
  cbn [fato_vendas col_Margem_Pct vendas_mensais rfm_clientes abc_produtos].
  split; [| split].
  - intros e E. rewrite E. reflexivity.
  - intros datas e E1 E2. rewrite E1, E2. reflexivity.
  - intros datas vs e E1 E2 E3. rewrite E1, E2, E3. reflexivity.
Qed.

Lemma transform_falho_estado_witness :
  transform sort_estavel relogio_ex (extraido vendas_texto)
  = (false,
     mkETL vendas_texto
       (Some [Some 2022; Some 2022; Some 2022]) (Some [Some 1; Some 1; Some 1])
       (Some [Some 5; Some 6; Some 5]) None None None None).
Proof.
  pose proof (proj1 (proj2 (transform_falho_estado sort_estavel relogio_ex
                              (extraido vendas_texto)))
                [Some (meia_noite 19000); Some (meia_noite 19001);
                 Some (meia_noite 19000)] TypeError) as H.
  rewrite H; [vm_compute; reflexivity | vm_compute; reflexivity
              | vm_compute; reflexivity].
Defined.

(** X6.  Running [transform] again on the object it has just worked on,
    with the same clock value, changes nothing: same return value, same
    object. *)
Theorem transform_idempotente sort_values agora self :
  transform sort_values agora (snd (transform sort_values agora self))
  = transform sort_values agora self.
Proof.
  destruct self as [f a b c d e g h]. rewrite transform_eq.
  destruct (dt_accessor f) as [x | datas] eqn:E1.
  - cbn [snd]. rewrite transform_eq, E1. reflexivity.
  - destruct (colunas_numericas f) as [x | vs] eqn:E2.
    + cbn [snd]. rewrite transform_eq, E1, E2. reflexivity.
    + destruct (rfm_de agora vs) as [x | rfm] eqn:E3;
        cbn [snd]; rewrite transform_eq, E1, E2, E3; reflexivity.
Qed.

(** ** [load] and [run] *)

(** X7.  [load] writes its files in order and stops at the first table that
    was never assigned.  Called after a [transform] that failed in the
    scoring, it writes the monthly table, raises on the missing RFM table and
    returns False: one file of four is written. *)
Theorem load_apos_transform_falho sort_values agora df datas vs e d :
  dt_accessor df = inr datas ->
  colunas_numericas df = inr vs ->
  rfm_de agora vs = inl e ->
  load (snd (transform sort_values agora (extraido df))) d
  = (false,
     mkSaida (Some (vendas_mensais_de vs)) (rfm_clientes_csv d)
             (abc_produtos_csv d) (fato_vendas_csv d)).
Proof.
  intros E1 E2 E3.
  rewrite (transform_tipado sort_values agora df datas vs E1 E2), E3.
  reflexivity.
Qed.

Lemma load_apos_transform_falho_witness :
  load (snd (transform sort_estavel relogio_ex (extraido vendas_uma_compra)))
       nada_escrito
  = (false,
     mkSaida
       (Some (vendas_mensais_de
                [Venda.mk 1 1 10 (Some (meia_noite 19000)) 1 100 40;
                 Venda.mk 2 2 10 (Some (meia_noite 19001)) 1 200 80;
                 Venda.mk 3 3 20 (Some (meia_noite 19002)) 1 50 10]))
       None None None).
Proof.
  refine (load_apos_transform_falho sort_estavel relogio_ex vendas_uma_compra
            _ _ ValueError nada_escrito _ _ _).
  - vm_compute. reflexivity.
  - vm_compute. reflexivity.
  - vm_compute. reflexivity.
Defined.

Lemma extract_Some e df :
  extract e = Some df <->
  dim_tempo_csv e = true /\ dim_produto_csv e = true /\ dim_loja_csv e = true /\
  dim_cliente_csv e = true /\ dim_vendedor_csv e = true /\
  fato_vendas_lido e = Some df.
Proof.
  unfold extract.
  destruct (dim_tempo_csv e), (dim_produto_csv e), (dim_loja_csv e),
    (dim_cliente_csv e), (dim_vendedor_csv e); cbn;
    split; intros H; try discriminate; try tauto;
    destruct H as (H1 & H2 & H3 & H4 & H5 & H6); discriminate.
Qed.

(** X8.  [run] returns True only when all six input tables could be read
    and [transform] returned True, and then the four files hold the tables
    that [transform] assigned.  When a table cannot be read, or [transform]
    returns False, [run] returns False and leaves the output directory as
    it was: [load] is not reached.  An unreadable dimension table stops the
    run although [transform] never uses one. *)
Theorem run_e_as_suas_etapas sort_values agora e d :
  (forall d',
      run_completo sort_values agora e d = (true, d') ->
      exists df self' vm rfm abc,
        extract e = Some df /\
        transform sort_values agora (extraido df) = (true, self') /\
        vendas_mensais self' = Some vm /\ rfm_clientes self' = Some rfm /\
        abc_produtos self' = Some abc /\
        d' = mkSaida (Some vm) (Some rfm) (Some abc) (Some (tabela_fato self'))) /\
  (extract e = None -> run_completo sort_values agora e d = (false, d)) /\
  (forall df,
      extract e = Some df ->
      fst (transform sort_values agora (extraido df)) = false ->
      run_completo sort_values agora e d = (false, d)) /\
  (dim_tempo_csv e && dim_produto_csv e && dim_loja_csv e && dim_cliente_csv e
   && dim_vendedor_csv e = false ->
   run_completo sort_values agora e d = (false, d)).
Proof.
  unfold run_completo. split; [| split; [| split]].
  - intros d' H. destruct (extract e) as [df |] eqn:Ex; [| discriminate].
    destruct (run_true_inv _ _ _ _ _ H) as (self' & Et & Hf & Hm & Hr & Ha).
    destruct (transform_true_inv _ _ _ _ Et)
      as (datas & vs & rfm & _ & _ & _ & Es).
    exists df, self', (vendas_mensais_de vs), rfm, (abc_de sort_values vs).
    split; [reflexivity |]. split; [exact Et |].
    rewrite Es in Hm, Hr, Ha |- *. cbn in Hm, Hr, Ha |- *.
    repeat (split; [reflexivity |]).
    destruct d' as [m r a f]. cbn in Hf, Hm, Hr, Ha. subst. reflexivity.
  - intros ->. reflexivity.
  - intros df -> Hf. apply run_false. exact Hf.
  - intros H. destruct (extract e) as [df |] eqn:Ex; [| reflexivity].
    apply (proj1 (extract_Some e df)) in Ex.
    destruct Ex as (E1 & E2 & E3 & E4 & E5 & _).
    rewrite E1, E2, E3, E4, E5 in H. discriminate.
Qed.

(** ** Margin percentage away from zero revenue *)

(** X9.  The margin percentage of a sale is a finite number exactly when its
    net revenue is not zero, and then it is 100 times gross profit over net
    revenue rounded to two decimals (at most 0.005 away). *)
Theorem margem_finita_sse_receita v :
  ((exists q, margem_pct v = Fin q) <-> ~ (Venda.Receita_Liquida v == 0)%Q) /\
  (~ (Venda.Receita_Liquida v == 0)%Q ->
   exists q,
     margem_pct v = Fin q /\
     (q - (1 # 200)
      <= Venda.Lucro_Bruto v / Venda.Receita_Liquida v * 100
      <= q + (1 # 200))%Q).
Proof.
  assert (Hfin : ~ (Venda.Receita_Liquida v == 0)%Q ->
                 margem_pct v
                 = Fin (round2 (Venda.Lucro_Bruto v / Venda.Receita_Liquida v * 100))).
  { intros Hnz. unfold margem_pct, fdiv.
    destruct (Qeq_bool (Venda.Receita_Liquida v) 0) eqn:E;
      [apply Qeq_bool_iff in E; contradiction | reflexivity]. }
  split.
  - split.
    + intros [q Hq] Hz. rewrite (margem_pct_receita_zero v Hz) in Hq.
      destruct (Venda.Lucro_Bruto v ?= 0)%Q; discriminate.
    + intros Hnz. eexists. apply Hfin. exact Hnz.
  - intros Hnz. eexists. split; [apply Hfin; exact Hnz |]. apply round2_perto.
Qed.

Lemma margem_finita_sse_receita_witness :
  exists q,
    margem_pct (Venda.mk 1 1 10 (Some (meia_noite 19000)) 1 100 40) = Fin q /\
    (q - (1 # 200) <= 40 / 100 * 100 <= q + (1 # 200))%Q.
Proof.
  refine (proj2 (margem_finita_sse_receita
                   (Venda.mk 1 1 10 (Some (meia_noite 19000)) 1 100 40)) _).
  vm_compute. discriminate.
Defined.

(** ** Running sums of the ABC table *)

Lemma acumula_nth_soma total acc ps i row :
  nth_error (acumula total acc ps) i = Some row ->
  (ABC.Receita_Acumulada row
   == acc + qsum (firstn (S i) (map Produto.Receita_Liquida ps)))%Q.
Proof.
  revert acc i. induction ps as [| p ps IH]; intros acc i H.
  - destruct i; discriminate.
  - destruct i as [| i]; cbn [acumula nth_error] in H.
    + inversion H; subst row. cbn [ABC.Receita_Acumulada map firstn].
      rewrite qsum_cons, qsum_nil. ring.
    + rewrite (IH _ _ H). cbn [map]. rewrite firstn_cons, qsum_cons. ring.
Qed.

Lemma acumula_quantidades total acc ps :
  map ABC.Quantidade (acumula total acc ps) = map Produto.Quantidade ps.
Proof.
  revert acc. induction ps as [| p ps IH]; intros acc; cbn; [reflexivity |].
  rewrite IH. reflexivity.
Qed.

Lemma zsum_perm l1 l2 : Permutation l1 l2 -> zsum l1 = zsum l2.
Proof.
  induction 1 as [| x l l' _ IH | x y l | l l' l'' _ IH1 _ IH2];
    rewrite ?zsum_cons; lia.
Qed.

Lemma quantidade_produtos vs :
  soma_int64 (map Produto.Quantidade (produtos_de vs))
  = soma_int64 (map Venda.Quantidade vs).
Proof.
  unfold produtos_de. rewrite map_map.
  rewrite <- (com_chave_todos (fun v => Some (Venda.ID_Produto v)) vs) at 2
    by (intros; eexists; reflexivity).
  rewrite <- (quantidade_dos_grupos Z.eqb Z.ltb Z.eqb_eq Z.ltb_irrefl zltb_trans
                zltb_total (fun v => Some (Venda.ID_Produto v)) vs).
  f_equal. apply map_ext. intros [k g]. reflexivity.
Qed.

Lemma quantidade_produtos_exata vs :
  (forall v, In v vs -> 0 <= Venda.Quantidade v) ->
  zsum (map Venda.Quantidade vs) < 2 ^ 63 ->
  zsum (map Produto.Quantidade (produtos_de vs)) = zsum (map Venda.Quantidade vs).
Proof.
  intros Hp Hs. unfold produtos_de. rewrite map_map.
  rewrite <- (com_chave_todos (fun v => Some (Venda.ID_Produto v)) vs) in Hs |- * at 2
    by (intros; eexists; reflexivity).
  rewrite <- (soma_grupos_Z Z.eqb Z.ltb Z.eqb_eq Z.ltb_irrefl zltb_trans zltb_total
                (fun v => Some (Venda.ID_Produto v)) Venda.Quantidade vs).
  rewrite <- (quantidade_dos_grupos_exata Z.eqb Z.ltb Z.eqb_eq Z.ltb_irrefl
                zltb_trans zltb_total (fun v => Some (Venda.ID_Produto v)) vs Hp Hs).
  f_equal. apply map_ext. intros [k g]. reflexivity.
Qed.

(** X10.  In the ABC table the cumulative revenue of a row is the sum of the
    revenues of the rows down to it, and, the sort being a rearrangement,
    the revenue and the quantity columns add up to those of all the sales:
    every sale is counted in exactly one product.  The quantity column is
    int64: its totals agree as int64 sums, and as plain integers when the
    quantities are not negative and their total is below 2^63. *)
Theorem abc_somas sort_values vs :
  sort_values_ok sort_values ->
  (forall i row,
      nth_error (abc_de sort_values vs) i = Some row ->
      (ABC.Receita_Acumulada row
       == qsum (firstn (S i) (map ABC.Receita_Liquida (abc_de sort_values vs))))%Q) /\
  (qsum (map ABC.Receita_Liquida (abc_de sort_values vs))
   == qsum (map Venda.Receita_Liquida vs))%Q /\
  soma_int64 (map ABC.Quantidade (abc_de sort_values vs))
  = soma_int64 (map Venda.Quantidade vs) /\
  ((forall v, In v vs -> 0 <= Venda.Quantidade v) ->
   zsum (map Venda.Quantidade vs) < 2 ^ 63 ->
   zsum (map ABC.Quantidade (abc_de sort_values vs))
   = zsum (map Venda.Quantidade vs)).
Proof.
  intros Hs. unfold abc_de. split; [| split; [| split]].
  - intros i row H. rewrite (acumula_nth_soma _ _ _ _ _ H), acumula_receitas. ring.
  - rewrite acumula_receitas.
    transitivity (receita_total (produtos_de vs)).
    + apply (receita_total_sort sort_values _ Hs).
    + apply soma_produtos.
  - rewrite acumula_quantidades, <- quantidade_produtos, !soma_int64_zsum.
    f_equal. symmetry. apply zsum_perm, Permutation_map, Hs.
  - intros Hp Hq.
    rewrite acumula_quantidades, <- (quantidade_produtos_exata vs Hp Hq).
    symmetry. apply zsum_perm, Permutation_map, Hs.
Qed.

Lemma abc_somas_witness :
  (qsum (map ABC.Receita_Liquida
           (abc_de sort_estavel
              [Venda.mk 1 1 10 (Some (meia_noite 19000)) 1 100 40;
               Venda.mk 2 1 10 (Some (meia_noite 19001)) 1 200 80;
               Venda.mk 3 2 20 (Some (meia_noite 19000)) 1 50 10]))
   == 100 + 200 + 50)%Q.
Proof.
  exact (proj1 (proj2 (abc_somas sort_estavel
                         [Venda.mk 1 1 10 (Some (meia_noite 19000)) 1 100 40;
                          Venda.mk 2 1 10 (Some (meia_noite 19001)) 1 200 80;
                          Venda.mk 3 2 20 (Some (meia_noite 19000)) 1 50 10]
                         sort_estavel_ok))).
Defined.

(** ** Rounding keeps the order *)

Lemma rint_entre q : Qfloor q <= rint q <= Qfloor q + 1.
Proof.
  unfold rint.
  destruct (q - inject_Z (Qfloor q) ?= 1 # 2)%Q; [destruct (Z.even (Qfloor q)) | |]; lia.
Qed.

Lemma rint_mono x y : (x <= y)%Q -> rint x <= rint y.
Proof.
  intros H.
  pose proof (Qfloor_resp_le x y H) as Hf.
  destruct (Z.eq_dec (Qfloor x) (Qfloor y)) as [E | N].
  - unfold rint. rewrite <- E.
    destruct (Qcompare_spec (x - inject_Z (Qfloor x)) (1 # 2)) as [Ex | Lx | Gx];
      destruct (Qcompare_spec (y - inject_Z (Qfloor x)) (1 # 2)) as [Ey | Ly | Gy];
      try destruct (Z.even (Qfloor x)); try lia; lra.
  - pose proof (rint_entre x). pose proof (rint_entre y). lia.
Qed.

Lemma round2_mono x y : (x <= y)%Q -> (round2 x <= round2 y)%Q.
Proof.
  intros H. unfold round2.
  assert (Hz : rint (x * 100) <= rint (y * 100)) by (apply rint_mono; lra).
  rewrite Zle_Qle in Hz.
  set (a := inject_Z (rint (x * 100))) in *.
  set (b := inject_Z (rint (y * 100))) in *.
  assert (Ea : (a / 100 == a * (1 # 100))%Q) by field.
  assert (Eb : (b / 100 == b * (1 # 100))%Q) by field.
  rewrite Ea, Eb. lra.
Qed.

Lemma nivel_classificar_mono p q :
  (p <= q)%Q ->
  nivel_classe (classificar_abc (Fin p)) <= nivel_classe (classificar_abc (Fin q)).
Proof.
  intros H. unfold classificar_abc, fle_const.
  destruct (Qle_bool p 80) eqn:P80; destruct (Qle_bool q 80) eqn:Q80;
    destruct (Qle_bool p 95) eqn:P95; destruct (Qle_bool q 95) eqn:Q95;
    cbn; try lia;
    repeat match goal with
           | H : Qle_bool _ _ = true |- _ => apply Qle_bool_iff in H
           | H : Qle_bool ?a ?b = false |- _ =>
               assert (b < a)%Q
                 by (destruct (Qlt_le_dec b a) as [L | L];
                     [exact L | apply Qle_bool_iff in L; congruence]);
               clear H
           end; lra.
Qed.

Lemma acumula_crescente total acc ps :
  (forall p, In p ps -> (0 <= Produto.Receita_Liquida p)%Q) ->
  forall i j a b,
    (i <= j)%nat ->
    nth_error (acumula total acc ps) i = Some a ->
    nth_error (acumula total acc ps) j = Some b ->
    (acc <= ABC.Receita_Acumulada a)%Q /\
    (ABC.Receita_Acumulada a <= ABC.Receita_Acumulada b)%Q.
Proof.
  revert acc. induction ps as [| p ps IH]; intros acc Hpos i j a b Hij Ha Hb.
  - destruct i; discriminate.
  - assert (Hp : (0 <= Produto.Receita_Liquida p)%Q) by (apply Hpos; left; reflexivity).
    assert (Hpos' : forall p0, In p0 ps -> (0 <= Produto.Receita_Liquida p0)%Q)
      by (intros; apply Hpos; right; assumption).
    destruct i as [| i]; cbn [acumula nth_error] in Ha.
    + inversion Ha; subst a. cbn [ABC.Receita_Acumulada].
      split; [lra |].
      destruct j as [| j]; cbn [acumula nth_error] in Hb.
      * inversion Hb; subst b. cbn. lra.
      * destruct (IH _ Hpos' j j b b (le_n j) Hb Hb) as [H1 _]. exact H1.
    + destruct j as [| j]; [lia |]. cbn [acumula nth_error] in Hb.
      destruct (IH _ Hpos' i j a b ltac:(lia) Ha Hb) as [H1 H2].
      split; [lra | exact H2].
Qed.

Lemma pct_de_linha total acc ps row :
  ~ (total == 0)%Q ->
  In row (acumula total acc ps) ->
  ABC.Pct_Acumulado row = Fin (round2 (ABC.Receita_Acumulada row / total * 100)) /\
  ABC.Classe_ABC row
  = classificar_abc (Fin (round2 (ABC.Receita_Acumulada row / total * 100))).
Proof.
  intros Hnz Hin. destruct (acumula_linha _ _ _ _ Hin) as [Hp Hc].
  assert (E : ABC.Pct_Acumulado row
              = Fin (round2 (ABC.Receita_Acumulada row / total * 100))).
  { rewrite Hp. unfold fdiv.
    destruct (Qeq_bool total 0) eqn:Z; [apply Qeq_bool_iff in Z; contradiction |].
    reflexivity. }
  split; [exact E | rewrite Hc, E; reflexivity].
Qed.

(** X11.  When no product has negative revenue and the total is positive,
    the cumulative percentage never decreases down the ABC table and the
    class letters never go back: all the A rows, then the B rows, then the C
    rows. *)
Theorem abc_classes_em_ordem sort_values vs :
  (forall row, In row (abc_de sort_values vs) -> (0 <= ABC.Receita_Liquida row)%Q) ->
  (0 < qsum (map ABC.Receita_Liquida (abc_de sort_values vs)))%Q ->
  forall i j a b,
    (i <= j)%nat ->
    nth_error (abc_de sort_values vs) i = Some a ->
    nth_error (abc_de sort_values vs) j = Some b ->
    exists pa pb,
      ABC.Pct_Acumulado a = Fin pa /\ ABC.Pct_Acumulado b = Fin pb /\
      (pa <= pb)%Q /\
      nivel_classe (ABC.Classe_ABC a) <= nivel_classe (ABC.Classe_ABC b).
Proof.
  unfold abc_de. rewrite acumula_receitas.
  set (ps := sort_values (produtos_de vs)).
  fold (receita_total ps). set (total := receita_total ps).
  intros Hpos Htot i j a b Hij Ha Hb.
  assert (Hnz : ~ (total == 0)%Q) by lra.
  assert (Hps : forall p, In p ps -> (0 <= Produto.Receita_Liquida p)%Q).
  { intros p Hp. apply In_nth_error in Hp. destruct Hp as [n Hn].
    destruct (nth_error (acumula total 0 ps) n) as [row |] eqn:En.
    - destruct (acumula_nth _ _ _ _ _ En) as (p' & Hp' & Er & _).
      rewrite Hn in Hp'. inversion Hp'; subst p'. rewrite <- Er.
      apply Hpos. eapply nth_error_In. exact En.
    - exfalso. apply nth_error_None in En.
      assert (L : List.length (acumula total 0 ps) = List.length ps).
      { rewrite <- (length_map ABC.Receita_Liquida), acumula_receitas, length_map.
        reflexivity. }
      assert (n < List.length ps)%nat by (apply nth_error_Some; congruence).
      lia. }
  destruct (acumula_crescente total 0 ps Hps i j a b Hij Ha Hb) as [_ Hab].
  destruct (pct_de_linha total 0 ps a Hnz (nth_error_In _ _ Ha)) as [Pa Ca].
  destruct (pct_de_linha total 0 ps b Hnz (nth_error_In _ _ Hb)) as [Pb Cb].
  assert (Hr : (round2 (ABC.Receita_Acumulada a / total * 100)
                <= round2 (ABC.Receita_Acumulada b / total * 100))%Q).
  { apply round2_mono.
    apply Qmult_le_compat_r; [| lra].
    unfold Qdiv. apply Qmult_le_compat_r; [exact Hab |].
    apply Qlt_le_weak, Qinv_lt_0_compat. exact Htot. }
  eexists _, _. split; [exact Pa |]. split; [exact Pb |]. split; [exact Hr |].
  rewrite Ca, Cb. apply nivel_classificar_mono. exact Hr.
Qed.

Lemma abc_classes_em_ordem_witness :
  match abc_de sort_estavel
          [Venda.mk 1 1 10 (Some (meia_noite 19000)) 1 100 40;
           Venda.mk 2 1 10 (Some (meia_noite 19001)) 1 200 80;
           Venda.mk 3 2 20 (Some (meia_noite 19000)) 1 50 10] with
  | a :: b :: _ => nivel_classe (ABC.Classe_ABC a) <= nivel_classe (ABC.Classe_ABC b)
  | _ => False
  end.
Proof.
  destruct (abc_de sort_estavel _) as [| a [| b rest]] eqn:E;
    try (vm_compute in E; discriminate).
  destruct (abc_classes_em_ordem sort_estavel
              [Venda.mk 1 1 10 (Some (meia_noite 19000)) 1 100 40;
               Venda.mk 2 1 10 (Some (meia_noite 19001)) 1 200 80;
               Venda.mk 3 2 20 (Some (meia_noite 19000)) 1 50 10])
    with (i := 0%nat) (j := 1%nat) (a := a) (b := b)
    as (pa & pb & _ & _ & _ & H).
  - rewrite E. vm_compute in E. inversion E; subst a b rest.
    intros row [<- | [<- | []]]; vm_compute; discriminate.
  - vm_compute. reflexivity.
  - lia.
  - rewrite E. reflexivity.
  - rewrite E. reflexivity.
  - exact H.
Defined.

Lemma classificar_abc_C r : (95 < r)%Q -> classificar_abc (Fin r) = "C".
Proof.
  intros H. unfold classificar_abc, fle_const.
  destruct (Qle_bool r 80) eqn:A; [apply Qle_bool_iff in A; lra |].
  destruct (Qle_bool r 95) eqn:B; [apply Qle_bool_iff in B; lra |].
  reflexivity.
Qed.

(** X12.  Whenever the total revenue is positive, the last row of the ABC
    table is classed C: its cumulative percentage is 100, above both
    thresholds.  A table with a single product therefore classes that
    product C. *)
Theorem ultimo_produto_classe_C sort_values vs :
  (0 < qsum (map ABC.Receita_Liquida (abc_de sort_values vs)))%Q ->
  exists inicio ultimo,
    abc_de sort_values vs = (inicio ++ [ultimo])%list /\
    feq (ABC.Pct_Acumulado ultimo) (Fin 100) /\
    ABC.Classe_ABC ultimo = "C" /\
    (forall unico,
        abc_de sort_values vs = [unico] ->
        feq (ABC.Pct_Acumulado unico) (Fin 100) /\ ABC.Classe_ABC unico = "C").
Proof.
  unfold abc_de. rewrite acumula_receitas.
  set (ps := sort_values (produtos_de vs)).
  fold (receita_total ps). set (total := receita_total ps).
  intros Htot.
  destruct ps as [| p ps'] eqn:Eps.
  - exfalso. unfold total, receita_total in Htot. cbn in Htot. lra.
  - destruct (acumula_ultimo total 0 p ps') as (ini & ult & Eq & Sum).
    assert (Hin : In ult (acumula total 0 (p :: ps'))).
    { rewrite Eq. apply in_or_app. right. left. reflexivity. }
    assert (Hnz : ~ (total == 0)%Q) by lra.
    destruct (pct_de_linha total 0 (p :: ps') ult Hnz Hin) as [_ Hc].
    assert (HC : ABC.Classe_ABC ult = "C").
    { rewrite Hc. apply classificar_abc_C.
      rewrite (round2_comp _ 100).
      - vm_compute. reflexivity.
      - rewrite Sum. unfold total, receita_total. field.
        unfold total, receita_total in Hnz. exact Hnz. }
    assert (HP : feq (ABC.Pct_Acumulado ult) (Fin 100)).
    { destruct (acumula_linha _ _ _ _ Hin) as [-> _].
      apply pct_do_total; [exact Htot |].
      rewrite Sum. unfold total, receita_total. ring. }
    exists ini, ult. split; [exact Eq |]. split; [exact HP |]. split; [exact HC |].
    intros unico Eu. rewrite Eq in Eu.
    destruct ini as [| x ini].
    + inversion Eu; subst. split; [exact HP | exact HC].
    + destruct ini; discriminate.
Qed.

Lemma ultimo_produto_classe_C_witness :
  exists inicio ultimo,
    abc_de sort_estavel [Venda.mk 1 1 10 (Some (meia_noite 19000)) 1 100 40]
    = (inicio ++ [ultimo])%list /\
    feq (ABC.Pct_Acumulado ultimo) (Fin 100) /\
    ABC.Classe_ABC ultimo = "C" /\
    (forall unico,
        abc_de sort_estavel [Venda.mk 1 1 10 (Some (meia_noite 19000)) 1 100 40]
        = [unico] ->
        feq (ABC.Pct_Acumulado unico) (Fin 100) /\ ABC.Classe_ABC unico = "C").
Proof.
  apply ultimo_produto_classe_C. vm_compute. reflexivity.
Defined.

(** ** The RFM table, column by column *)

Lemma qcut_partes x q labels out :
  qcut x q labels = inr out ->
  out = map (fun xi => rotular (arestas x q) labels (indice (arestas x q) xi)) x /\
  List.length labels = (List.length (arestas x q) - 1)%nat.
Proof.
  unfold qcut. fold (arestas x q). intros H.
  destruct (has_duplicates labels); [discriminate |].
  destruct (List.length labels =? List.length (arestas x q) - 1)%nat eqn:L;
    [| discriminate].
  cbn in H. inversion H. split.
  - rewrite map_map. reflexivity.
  - apply Nat.eqb_eq. exact L.
Qed.

Lemma In_combine3 {C} (cl : list C) (gR gF gM : C -> option Z) c r f m :
  In (c, (r, (f, m)))
     (combine cl (combine (map gR cl) (combine (map gF cl) (map gM cl)))) ->
  In c cl /\ r = gR c /\ f = gF c /\ m = gM c.
Proof.
  induction cl as [| c0 cl IH]; cbn; [tauto |].
  intros [H | H].
  - inversion H; subst. auto.
  - destruct (IH H) as (H1 & H2). auto.
Qed.

(** A scored table, row by row: the customer of the aggregated table the
    row comes from, and each score as the label of the bin of the
    customer's own value in the bins of its column. *)
Lemma rfm_de_pontos hoje vs rfm row :
  rfm_de hoje vs = inr rfm -> In row rfm ->
  let cl := clientes_de hoje vs in
  let xR := map (fun c : Z * option Z * Z * Q =>
                   option_map inject_Z (snd (fst (fst c)))) cl in
  let xF := map (fun c : Z * option Z * Z * Q => Some (inject_Z (snd (fst c)))) cl in
  let xM := map (fun c : Z * option Z * Z * Q => Some (snd c)) cl in
  (exists rs, qcut xR 5 [5; 4; 3; 2; 1] = inr rs) /\
  (exists fs, qcut xF 5 [1; 2; 3; 4; 5] = inr fs) /\
  (exists ms, qcut xM 5 [1; 2; 3; 4; 5] = inr ms) /\
  In (RFM.ID_Cliente row, RFM.Recencia row, RFM.Frequencia row, RFM.Monetario row) cl /\
  RFM.R_Score row
  = rotular (arestas xR 5) [5; 4; 3; 2; 1]
            (indice (arestas xR 5) (option_map inject_Z (RFM.Recencia row))) /\
  RFM.F_Score row
  = rotular (arestas xF 5) [1; 2; 3; 4; 5]
            (indice (arestas xF 5) (Some (inject_Z (RFM.Frequencia row)))) /\
  RFM.M_Score row
  = rotular (arestas xM 5) [1; 2; 3; 4; 5]
            (indice (arestas xM 5) (Some (RFM.Monetario row))).
Proof.
  intros H Hin cl xR xF xM. unfold rfm_de, bind in H.
  fold cl in H. fold xR xF xM in H.
  destruct (qcut xR 5 [5; 4; 3; 2; 1]) as [e | rs] eqn:ER; [discriminate |].
  destruct (qcut xF 5 [1; 2; 3; 4; 5]) as [e | fs] eqn:EF; [discriminate |].
  destruct (qcut xM 5 [1; 2; 3; 4; 5]) as [e | ms] eqn:EM; [discriminate |].
  destruct (qcut_partes _ _ _ _ ER) as [Ers _].
  destruct (qcut_partes _ _ _ _ EF) as [Efs _].
  destruct (qcut_partes _ _ _ _ EM) as [Ems _].
  unfold xR in Ers at 3. unfold xF in Efs at 3. unfold xM in Ems at 3.
  rewrite map_map in Ers, Efs, Ems.
  apply mapM_inr in H.
  destruct (Forall2_In_r _ _ _ _ H Hin) as [[c [r [f m]]] [Hc Hrow]].
  cbn [fst snd] in Hrow.
  rewrite Ers, Efs, Ems in Hc.
  apply In_combine3 in Hc. destruct Hc as (Hcl & Hr & Hf & Hm).
  destruct (linha_rfm_inv _ _ _ _ _ Hrow)
    as (Sr & Sf & Sm & Hid & Hrec & Hfr & Hmo & _).
  split; [eexists; reflexivity |]. split; [eexists; reflexivity |].
  split; [eexists; reflexivity |].
  destruct c as [[[id rec] fr] mo]. cbn [fst snd] in *.
  rewrite Hid, Hrec, Hfr, Hmo, Sr, Sf, Sm.
  repeat split; assumption.
Qed.

Lemma rfm_de_coluna {B} hoje vs rfm (proj : RFM.t -> B) (h : Z * option Z * Z * Q -> B) :
  rfm_de hoje vs = inr rfm ->
  (forall c s row, linha_rfm c s = inr row -> proj row = h c) ->
  map proj rfm = map h (clientes_de hoje vs).
Proof.
  unfold rfm_de, bind. intros H Hp.
  destruct (qcut _ 5 [5; 4; 3; 2; 1]) as [e | rs] eqn:ER; [discriminate |].
  destruct (qcut _ 5 [1; 2; 3; 4; 5]) as [e | fs] eqn:EF; [discriminate |].
  destruct (qcut (map (fun c => Some (snd c)) _) 5 [1; 2; 3; 4; 5])
    as [e | ms] eqn:EM; [discriminate |].
  apply qcut_length in ER, EF, EM. rewrite length_map in ER, EF, EM.
  rewrite (mapM_map _ proj
             (fun cs : (Z * option Z * Z * Q) * (option Z * (option Z * option Z)) =>
                h (fst cs)) _ _ H).
  - apply map_fst_combine. rewrite !length_combine. lia.
  - intros [c sc] row Hl. cbn [fst snd] in *. eapply Hp. exact Hl.
Qed.

(** X13.  In a scored RFM table the frequencies add up to the number of
    sales and the monetary values to the total net revenue: every sale is
    counted for exactly one customer, and every customer has at least one
    sale. *)
Theorem rfm_conserva_vendas hoje vs rfm :
  rfm_de hoje vs = inr rfm ->
  zsum (map RFM.Frequencia rfm) = Z.of_nat (List.length vs) /\
  (qsum (map RFM.Monetario rfm) == qsum (map Venda.Receita_Liquida vs))%Q /\
  forall row, In row rfm -> 1 <= RFM.Frequencia row.
Proof.
  intros H.
  assert (HF : map RFM.Frequencia rfm
               = map (fun c : Z * option Z * Z * Q => snd (fst c)) (clientes_de hoje vs)).
  { apply (rfm_de_coluna hoje vs rfm _ _ H).
    intros c [r [f m]] row Hl.
    destruct (linha_rfm_inv _ _ _ _ _ Hl) as (_ & _ & _ & _ & _ & Hfr & _). exact Hfr. }
  assert (HM : map RFM.Monetario rfm
               = map (fun c : Z * option Z * Z * Q => snd c) (clientes_de hoje vs)).
  { apply (rfm_de_coluna hoje vs rfm _ _ H).
    intros c [r [f m]] row Hl.
    destruct (linha_rfm_inv _ _ _ _ _ Hl) as (_ & _ & _ & _ & _ & _ & Hmo & _).
    exact Hmo. }
  split; [| split].
  - rewrite HF. unfold clientes_de. rewrite map_map.
    rewrite <- (com_chave_todos (fun v => Some (Venda.ID_Cliente v)) vs) at 2
      by (intros; eexists; reflexivity).
    rewrite <- zsum_uns.
    rewrite <- (soma_grupos_Z Z.eqb Z.ltb Z.eqb_eq Z.ltb_irrefl zltb_trans zltb_total
                  (fun v => Some (Venda.ID_Cliente v)) (fun _ => 1) vs).
    f_equal. apply map_ext. intros [k g]. cbn. rewrite zsum_uns. reflexivity.
  - rewrite HM. unfold clientes_de. rewrite map_map.
    rewrite <- (com_chave_todos (fun v => Some (Venda.ID_Cliente v)) vs) at 2
      by (intros; eexists; reflexivity).
    rewrite <- (soma_grupos Z.eqb Z.ltb Z.eqb_eq Z.ltb_irrefl zltb_trans zltb_total
                  (fun v => Some (Venda.ID_Cliente v)) Venda.Receita_Liquida vs).
    erewrite map_ext; [reflexivity |]. intros [k g]. reflexivity.
  - intros row Hrow.
    assert (Hin : In (RFM.Frequencia row) (map RFM.Frequencia rfm))
      by (apply in_map; exact Hrow).
    rewrite HF in Hin. apply in_map_iff in Hin. destruct Hin as [c [<- Hc]].
    unfold clientes_de in Hc. apply in_map_iff in Hc.
    destruct Hc as [[k g] [<- Hg]]. cbn.
    destruct (grupo_nao_vazio Z.eqb Z.ltb _ vs k g Z.eqb_eq Hg) as [[r Hr] _].
    destruct g as [| x g]; [destruct Hr |]. cbn [List.length]. lia.
Qed.

Lemma rfm_conserva_vendas_witness :
  match rfm_de relogio_ex
          [Venda.mk 1 1 10 (Some (meia_noite 19000)) 1 100 40;
           Venda.mk 2 1 10 (Some (meia_noite 19001)) 1 200 80;
           Venda.mk 3 2 20 (Some (meia_noite 19000)) 1 50 10] with
  | inr rfm => zsum (map RFM.Frequencia rfm) = 3
  | inl _ => False
  end.
Proof.
  destruct (rfm_de relogio_ex _) as [e | rfm] eqn:E;
    [vm_compute in E; discriminate |].
  exact (proj1 (rfm_conserva_vendas relogio_ex _ rfm E)).
Defined.

(** ** Quantiles lie between the extremes *)

Lemma qinsert_perm x l : Permutation (x :: l) (qinsert x l).
Proof.
  induction l as [| y r IH]; cbn; [reflexivity |].
  destruct (Qle_bool x y); [reflexivity |].
  rewrite perm_swap. constructor. exact IH.
Qed.

Lemma qsort_perm l : Permutation l (qsort l).
Proof.
  unfold qsort. induction l as [| x l IH]; cbn; [constructor |].
  rewrite <- qinsert_perm. constructor. exact IH.
Qed.

Lemma qinsert_HdRel y x r :
  HdRel Qle y r -> (y <= x)%Q -> HdRel Qle y (qinsert x r).
Proof.
  intros Hr Hx. destruct r as [| z r]; cbn; [constructor; exact Hx |].
  destruct (Qle_bool x z); constructor; [exact Hx |].
  inversion Hr. assumption.
Qed.

Lemma qinsert_sorted x l : Sorted Qle l -> Sorted Qle (qinsert x l).
Proof.
  induction 1 as [| y r Hr IH Hd]; cbn.
  - constructor; constructor.
  - destruct (Qle_bool x y) eqn:E.
    + constructor; [constructor; assumption |]. constructor.
      apply Qle_bool_iff. exact E.
    + constructor; [exact IH |]. apply qinsert_HdRel; [exact Hd |].
      destruct (Qlt_le_dec y x) as [L | L]; [apply Qlt_le_weak; exact L |].
      apply Qle_bool_iff in L. congruence.
Qed.

Lemma qsort_sorted l : StronglySorted Qle (qsort l).
Proof.
  apply Sorted_StronglySorted.
  - intros a b c. apply Qle_trans.
  - unfold qsort. induction l as [| x l IH]; cbn; [constructor |].
    apply qinsert_sorted. exact IH.
Qed.

Lemma sorted_nth s d :
  StronglySorted Qle s ->
  forall i j, (i <= j)%nat -> (j < List.length s)%nat -> (nth i s d <= nth j s d)%Q.
Proof.
  induction 1 as [| x r Hr IH Hall]; intros i j Hij Hj; [cbn in Hj; lia |].
  destruct j as [| j].
  - assert (i = 0)%nat by lia. subst i. cbn. apply Qle_refl.
  - cbn in Hj. destruct i as [| i]; cbn.
    + rewrite Forall_forall in Hall. apply Hall. apply nth_In. lia.
    + apply IH; lia.
Qed.

(** The least and the greatest value of a non-empty column, as the sorted
    column has them at its two ends. *)
Lemma extremos_qsort vals s0 s :
  qsort vals = s0 :: s ->
  forall v, In v vals ->
    (s0 <= v)%Q /\ (v <= nth (List.length s) (s0 :: s) s0)%Q.
Proof.
  intros Es v Hv.
  pose proof (qsort_sorted vals) as HS. rewrite Es in HS.
  assert (Hin : In v (s0 :: s)).
  { rewrite <- Es. eapply Permutation_in; [apply qsort_perm | exact Hv]. }
  destruct (In_nth _ _ s0 Hin) as [i [Hi Ei]].
  cbn [List.length] in Hi.
  split.
  - rewrite <- Ei. change s0 with (nth 0 (s0 :: s) s0) at 1.
    apply (sorted_nth _ s0 HS); cbn [List.length]; lia.
  - rewrite <- Ei. apply (sorted_nth _ s0 HS); cbn [List.length]; lia.
Qed.

Lemma interpola_entre (a b g mn mx : Q) :
  (mn <= a <= mx)%Q -> (mn <= b <= mx)%Q -> (0 <= g <= 1)%Q ->
  (mn <= a + (b - a) * g <= mx)%Q.
Proof.
  intros [A1 A2] [B1 B2] [G1 G2].
  assert (E1 : (a + (b - a) * g - mn == (a - mn) * (1 - g) + (b - mn) * g)%Q) by ring.
  assert (E2 : (mx - (a + (b - a) * g) == (mx - a) * (1 - g) + (mx - b) * g)%Q) by ring.
  assert (P1 : (0 <= (a - mn) * (1 - g))%Q) by (apply Qmult_le_0_compat; lra).
  assert (P2 : (0 <= (b - mn) * g)%Q) by (apply Qmult_le_0_compat; lra).
  assert (P3 : (0 <= (mx - a) * (1 - g))%Q) by (apply Qmult_le_0_compat; lra).
  assert (P4 : (0 <= (mx - b) * g)%Q) by (apply Qmult_le_0_compat; lra).
  split; lra.
Qed.

(** Every quantile of a non-empty column lies between any two bounds of
    the column. *)
Lemma quantile_limites vals p mn mx :
  vals <> [] ->
  (forall y, In y vals -> (mn <= y <= mx)%Q) ->
  exists q, quantile vals p = Fin q /\ (mn <= q <= mx)%Q.
Proof.
  intros Hne Hall. unfold quantile.
  destruct (qsort vals) as [| s0 s] eqn:Es.
  - exfalso. destruct vals as [| x vals]; [congruence |].
    unfold qsort in Es. cbn in Es. exact (qinsert_nao_vazio _ _ Es).
  - eexists. split; [reflexivity |].
    assert (Hs : forall y, In y (s0 :: s) -> (mn <= y <= mx)%Q).
    { intros y Hy. apply Hall, In_qsort. rewrite Es. exact Hy. }
    assert (Hn : forall n, (mn <= nth n (s0 :: s) s0 <= mx)%Q).
    { intros n. destruct (nth_in_or_default n (s0 :: s) s0) as [H | ->].
      - apply Hs. exact H.
      - apply Hs. left. reflexivity. }
    set (pos := (p * inject_Z (Z.of_nat (List.length (s0 :: s)) - 1))%Q).
    apply interpola_entre; [apply Hn | apply Hn |].
    pose proof (Qfloor_le pos) as Hlo. pose proof (Qlt_floor pos) as Hhi.
    rewrite inject_Z_plus in Hhi. change (inject_Z 1) with 1%Q in Hhi.
    split; lra.
Qed.

Lemma quantile_zero vals s0 s :
  qsort vals = s0 :: s ->
  exists q, quantile vals (0 # 5) = Fin q /\ (q == s0)%Q.
Proof.
  intros Es. unfold quantile. rewrite Es.
  set (n := (Z.of_nat (List.length (s0 :: s)) - 1)).
  assert (E : ((0 # 5) * inject_Z n == inject_Z 0)%Q) by (unfold Qeq; cbn; lia).
  eexists. split; [reflexivity |].
  rewrite (Qfloor_comp _ _ E), (Qceiling_comp _ _ E), Qfloor_Z, Qceiling_Z.
  cbn [Z.to_nat nth]. ring.
Qed.

Lemma quantile_um vals s0 s :
  qsort vals = s0 :: s ->
  exists q, quantile vals (5 # 5) = Fin q /\
            (q == nth (List.length s) (s0 :: s) s0)%Q.
Proof.
  intros Es. unfold quantile. rewrite Es.
  set (n := (Z.of_nat (List.length (s0 :: s)) - 1)).
  assert (E : ((5 # 5) * inject_Z n == inject_Z n)%Q)
    by (unfold Qeq, Qmult, inject_Z; cbn [Qnum Qden]; lia).
  eexists. split; [reflexivity |].
  rewrite (Qfloor_comp _ _ E), (Qceiling_comp _ _ E), Qfloor_Z, Qceiling_Z.
  assert (En : Z.to_nat n = List.length s).
  { unfold n. cbn [List.length]. lia. }
  rewrite En. ring.
Qed.

(** ** Distinct edges *)

Lemma filter_length_le' {A} (f : A -> bool) l :
  (List.length (filter f l) <= List.length l)%nat.
Proof.
  induction l as [| a l IH]; cbn; [lia |]. destruct (f a); cbn; lia.
Qed.

Lemma filter_completo {A} (f : A -> bool) l :
  List.length (filter f l) = List.length l -> forall y, In y l -> f y = true.
Proof.
  induction l as [| a l IH]; intros H y Hy; [destruct Hy |].
  cbn in H. pose proof (filter_length_le' f l) as L.
  destruct (f a) eqn:Fa; cbn in H; [| lia].
  destruct Hy as [<- | Hy]; [exact Fa |]. apply IH; [lia | exact Hy].
Qed.

Lemma unique_length_le l : (List.length (unique l) <= List.length l)%nat.
Proof.
  induction l as [| a l IH]; cbn; [lia |].
  pose proof (filter_length_le' (fun y => negb (feqb a y)) (unique l)). lia.
Qed.

Lemma unique_completo l :
  List.length (unique l) = List.length l ->
  forall i j a b,
    (i < j)%nat -> nth_error l i = Some a -> nth_error l j = Some b ->
    feqb a b = false.
Proof.
  induction l as [| a0 r IH]; intros H i j a b Hij Ha Hb.
  - destruct i; discriminate.
  - cbn in H.
    pose proof (filter_length_le' (fun y => negb (feqb a0 y)) (unique r)) as L1.
    pose proof (unique_length_le r) as L2.
    assert (Hr : List.length (unique r) = List.length r) by lia.
    assert (Hf : List.length (filter (fun y => negb (feqb a0 y)) (unique r))
                 = List.length (unique r)) by lia.
    assert (Hu : forall y, In y (unique r) -> feqb a0 y = false).
    { intros y Hy. apply (filter_completo _ _ Hf) in Hy.
      destruct (feqb a0 y); [discriminate | reflexivity]. }
    assert (Hur : forall y, In y r -> In y (unique r)).
    { clear - Hr. induction r as [| c r IHr]; intros y Hy; [destruct Hy |].
      cbn in Hr |- *.
      pose proof (filter_length_le' (fun z => negb (feqb c z)) (unique r)) as L1.
      pose proof (unique_length_le r) as L2.
      destruct Hy as [<- | Hy]; [left; reflexivity | right].
      apply filter_In. split; [apply IHr; [lia | exact Hy] |].
      apply (filter_completo (fun z => negb (feqb c z)) (unique r)); [lia |].
      apply IHr; [lia | exact Hy]. }
    destruct j as [| j]; [lia |]. cbn in Hb.
    destruct i as [| i]; cbn in Ha.
    + inversion Ha; subst a. apply Hu, Hur. eapply nth_error_In. exact Hb.
    + apply (IH Hr i j a b); [lia | exact Ha | exact Hb].
Qed.

Lemma linspace_5 : linspace 5 = [0 # 5; 1 # 5; 2 # 5; 3 # 5; 4 # 5; 5 # 5]%Q.
Proof. reflexivity. Qed.

(** When [qcut] with five labels succeeds, none of the six quantile edges
    was dropped and the column has a value. *)
Lemma qcut_sucesso_arestas x labels out :
  qcut x 5 labels = inr out ->
  List.length labels = 5%nat ->
  arestas x 5 = map (quantile (dropna x)) (linspace 5) /\
  List.length (unique (map (quantile (dropna x)) (linspace 5))) = 6%nat /\
  dropna x <> [].
Proof.
  intros H Hl. destruct (qcut_partes _ _ _ _ H) as [_ L]. rewrite Hl in L.
  unfold arestas in *.
  set (bins0 := map (quantile (dropna x)) (linspace 5)) in *.
  assert (L0 : List.length bins0 = 6%nat) by (unfold bins0; rewrite length_map; reflexivity).
  pose proof (unique_length_le bins0) as Lu.
  rewrite L0 in *.
  destruct (List.length (unique bins0) <? 6)%nat eqn:C; cbn [andb] in L |- *.
  - change (negb (6 =? 2)%nat) with true in L. cbv iota in L.
    apply Nat.ltb_lt in C. lia.
  - apply Nat.ltb_ge in C.
    assert (U6 : List.length (unique bins0) = 6%nat) by lia.
    split; [reflexivity |]. split; [exact U6 |].
    intros E. unfold bins0 in U6. rewrite E in U6. cbn in U6. discriminate.
Qed.

Lemma conta6 q0 q1 q2 q3 q4 q5 v :
  searchsorted_left [Fin q0; Fin q1; Fin q2; Fin q3; Fin q4; Fin q5] (Fin v)
  = ((if Qle_bool v q0 then 0 else 1) + (if Qle_bool v q1 then 0 else 1)
     + (if Qle_bool v q2 then 0 else 1) + (if Qle_bool v q3 then 0 else 1)
     + (if Qle_bool v q4 then 0 else 1) + (if Qle_bool v q5 then 0 else 1))%nat.
Proof.
  unfold searchsorted_left. cbn [filter fltb].
  destruct (Qle_bool v q0), (Qle_bool v q1), (Qle_bool v q2), (Qle_bool v q3),
    (Qle_bool v q4), (Qle_bool v q5); reflexivity.
Qed.

Lemma Qle_bool_false a b : Qle_bool a b = false <-> (b < a)%Q.
Proof.
  split; intros H.
  - destruct (Qlt_le_dec b a) as [L | L]; [exact L |].
    apply Qle_bool_iff in L. congruence.
  - destruct (Qle_bool a b) eqn:E; [| reflexivity].
    apply Qle_bool_iff in E. lra.
Qed.

Lemma passo_mono (u v q : Q) :
  (u <= v)%Q ->
  ((if Qle_bool u q then 0 else 1) <= (if Qle_bool v q then 0 else 1))%nat.
Proof.
  intros H. destruct (Qle_bool u q) eqn:U; [lia |].
  apply Qle_bool_false in U.
  assert (V : Qle_bool v q = false) by (apply Qle_bool_false; lra).
  rewrite V. lia.
Qed.

(** The bin index of the values of a column that [qcut] scored with five
    labels: between 1 and 5, growing with the value, 1 for the least value
    and 5 for the greatest. *)
Lemma indice_sucesso x labels out :
  qcut x 5 labels = inr out ->
  List.length labels = 5%nat ->
  List.length (arestas x 5) = 6%nat /\
  (forall v, In (Some v) x ->
             (1 <= indice (arestas x 5) (Some v) <= 5)%nat) /\
  (forall u v, In (Some u) x -> In (Some v) x -> (u <= v)%Q ->
               (indice (arestas x 5) (Some u) <= indice (arestas x 5) (Some v))%nat) /\
  (forall v, In (Some v) x -> (forall u, In (Some u) x -> (v <= u)%Q) ->
             indice (arestas x 5) (Some v) = 1%nat) /\
  (forall v, In (Some v) x -> (forall u, In (Some u) x -> (u <= v)%Q) ->
             indice (arestas x 5) (Some v) = 5%nat).
Proof.
  intros H Hl.
  destruct (qcut_sucesso_arestas _ _ _ H Hl) as (Ea & U6 & Hne).
  rewrite Ea. rewrite linspace_5 in *. cbn [map] in *.
  set (vals := dropna x) in *.
  assert (Hx : forall v, In (Some v) x <-> In v vals)
    by (intros v; symmetry; apply In_dropna).
  destruct (qsort vals) as [| s0 s] eqn:Es.
  { exfalso. destruct vals as [| y vals']; [congruence |].
    unfold qsort in Es. cbn in Es. exact (qinsert_nao_vazio _ _ Es). }
  set (mx := nth (List.length s) (s0 :: s) s0).
  assert (Hext : forall v, In v vals -> (s0 <= v <= mx)%Q)
    by (intros v Hv; apply (extremos_qsort vals s0 s Es v Hv)).
  assert (Hmn : In s0 vals) by (apply In_qsort; rewrite Es; left; reflexivity).
  assert (Hmx : In mx vals).
  { apply In_qsort. rewrite Es. apply nth_In. cbn [List.length]. lia. }
  destruct (quantile_zero vals s0 s Es) as (q0 & E0 & Q0).
  destruct (quantile_um vals s0 s Es) as (q5 & E5 & Q5). fold mx in Q5.
  destruct (quantile_limites vals (1 # 5) s0 mx Hne Hext) as (q1 & E1 & B1).
  destruct (quantile_limites vals (2 # 5) s0 mx Hne Hext) as (q2 & E2 & B2).
  destruct (quantile_limites vals (3 # 5) s0 mx Hne Hext) as (q3 & E3 & B3).
  destruct (quantile_limites vals (4 # 5) s0 mx Hne Hext) as (q4 & E4 & B4).
  rewrite E0, E1, E2, E3, E4, E5 in *.
  pose proof (Hext s0 Hmn) as [_ Hmnmx].
  assert (D0 : ~ (q0 == q5)%Q).
  { intros E. pose proof (unique_completo _ U6 0 5 (Fin q0) (Fin q5)
                            ltac:(lia) eq_refl eq_refl) as D.
    cbn in D. apply Qeq_bool_iff in E. congruence. }
  assert (D1 : ~ (q1 == q5)%Q).
  { intros E. pose proof (unique_completo _ U6 1 5 (Fin q1) (Fin q5)
                            ltac:(lia) eq_refl eq_refl) as D.
    cbn in D. apply Qeq_bool_iff in E. congruence. }
  assert (D2 : ~ (q2 == q5)%Q).
  { intros E. pose proof (unique_completo _ U6 2 5 (Fin q2) (Fin q5)
                            ltac:(lia) eq_refl eq_refl) as D.
    cbn in D. apply Qeq_bool_iff in E. congruence. }
  assert (D3 : ~ (q3 == q5)%Q).
  { intros E. pose proof (unique_completo _ U6 3 5 (Fin q3) (Fin q5)
                            ltac:(lia) eq_refl eq_refl) as D.
    cbn in D. apply Qeq_bool_iff in E. congruence. }
  assert (D4 : ~ (q4 == q5)%Q).
  { intros E. pose proof (unique_completo _ U6 4 5 (Fin q4) (Fin q5)
                            ltac:(lia) eq_refl eq_refl) as D.
    cbn in D. apply Qeq_bool_iff in E. congruence. }
  assert (Hidx : forall v,
             indice [Fin q0; Fin q1; Fin q2; Fin q3; Fin q4; Fin q5] (Some v)
             = if Qeq_bool v q0 then 1%nat
               else ((if Qle_bool v q0 then 0 else 1) + (if Qle_bool v q1 then 0 else 1)
                     + (if Qle_bool v q2 then 0 else 1) + (if Qle_bool v q3 then 0 else 1)
                     + (if Qle_bool v q4 then 0 else 1)
                     + (if Qle_bool v q5 then 0 else 1))%nat).
  { intros v. unfold indice. cbn [hd feqb]. rewrite conta6. reflexivity. }
  assert (Hb : forall v, In v vals ->
                 (1 <= indice [Fin q0; Fin q1; Fin q2; Fin q3; Fin q4; Fin q5] (Some v)
                  <= 5)%nat).
  { intros v Hv. rewrite Hidx. destruct (Hext v Hv) as [V1 V2].
    destruct (Qeq_bool v q0) eqn:E; [lia |].
    apply Qeq_bool_neq in E.
    assert (A0 : Qle_bool v q0 = false) by (apply Qle_bool_false; lra).
    assert (A5 : Qle_bool v q5 = true) by (apply Qle_bool_iff; lra).
    rewrite A0, A5.
    destruct (Qle_bool v q1), (Qle_bool v q2), (Qle_bool v q3), (Qle_bool v q4);
      cbn; lia. }
  split; [reflexivity |].
  split; [intros v Hv; apply Hb, Hx, Hv |].
  split; [| split].
  - intros u v Hu Hv Huv. apply Hx in Hu, Hv.
    pose proof (Hb v Hv) as Bv. rewrite (Hidx u).
    destruct (Qeq_bool u q0) eqn:Eu; [lia |].
    apply Qeq_bool_neq in Eu. destruct (Hext u Hu) as [U1 U2].
    rewrite (Hidx v).
    assert (Ev : Qeq_bool v q0 = false).
    { destruct (Qeq_bool v q0) eqn:Ev; [| reflexivity].
      apply Qeq_bool_iff in Ev. lra. }
    rewrite Ev.
    pose proof (passo_mono u v q0 Huv). pose proof (passo_mono u v q1 Huv).
    pose proof (passo_mono u v q2 Huv). pose proof (passo_mono u v q3 Huv).
    pose proof (passo_mono u v q4 Huv). pose proof (passo_mono u v q5 Huv).
    lia.
  - intros v Hv Hmin. rewrite Hidx.
    assert (E : (v == q0)%Q).
    { pose proof (Hmin s0 (proj2 (Hx s0) Hmn)). destruct (Hext v (proj1 (Hx v) Hv)). lra. }
    apply Qeq_bool_iff in E. rewrite E. reflexivity.
  - intros v Hv Hmax. rewrite Hidx.
    assert (E : (v == q5)%Q).
    { pose proof (Hmax mx (proj2 (Hx mx) Hmx)). destruct (Hext v (proj1 (Hx v) Hv)). lra. }
    assert (E0' : Qeq_bool v q0 = false).
    { destruct (Qeq_bool v q0) eqn:Ev; [| reflexivity].
      apply Qeq_bool_iff in Ev. exfalso. apply D0. lra. }
    assert (A0 : Qle_bool v q0 = false) by (apply Qle_bool_false; lra).
    assert (A1 : Qle_bool v q1 = false) by (apply Qle_bool_false; lra).
    assert (A2 : Qle_bool v q2 = false) by (apply Qle_bool_false; lra).
    assert (A3 : Qle_bool v q3 = false) by (apply Qle_bool_false; lra).
    assert (A4 : Qle_bool v q4 = false) by (apply Qle_bool_false; lra).
    assert (A5 : Qle_bool v q5 = true) by (apply Qle_bool_iff; lra).
    rewrite E0', A0, A1, A2, A3, A4, A5. reflexivity.
Qed.

(** ** Scores of a scored table *)

Lemma rotular_asc bins i :
  List.length bins = 6%nat -> (1 <= i <= 5)%nat ->
  rotular bins [1; 2; 3; 4; 5] i = Some (Z.of_nat i).
Proof.
  intros L Hi. unfold rotular. rewrite L.
  assert (C : (i = 1 \/ i = 2 \/ i = 3 \/ i = 4 \/ i = 5)%nat) by lia.
  decompose [or] C; subst i; reflexivity.
Qed.

Lemma rotular_desc bins i :
  List.length bins = 6%nat -> (1 <= i <= 5)%nat ->
  rotular bins [5; 4; 3; 2; 1] i = Some (6 - Z.of_nat i).
Proof.
  intros L Hi. unfold rotular. rewrite L.
  assert (C : (i = 1 \/ i = 2 \/ i = 3 \/ i = 4 \/ i = 5)%nat) by lia.
  decompose [or] C; subst i; reflexivity.
Qed.

Section TabelaPontuada.
Variable hoje : Z.
Variable vs : list Venda.t.
Variable rfm : list RFM.t.
Hypothesis pontuada : rfm_de hoje vs = inr rfm.

Let cl := clientes_de hoje vs.
Let xR := map (fun c : Z * option Z * Z * Q => option_map inject_Z (snd (fst (fst c)))) cl.
Let xF := map (fun c : Z * option Z * Z * Q => Some (inject_Z (snd (fst c)))) cl.
Let xM := map (fun c : Z * option Z * Z * Q => Some (snd c)) cl.

Lemma clientes_sao_linhas :
  map (fun row => (RFM.ID_Cliente row, RFM.Recencia row, RFM.Frequencia row,
                   RFM.Monetario row)) rfm = cl.
Proof.
  unfold cl. rewrite <- (map_id (clientes_de hoje vs)).
  apply (rfm_de_coluna hoje vs rfm _ (fun c => c) pontuada).
  intros [[[id rec] fr] mo] [r [f m]] row Hl.
  destruct (linha_rfm_inv _ _ _ _ _ Hl) as (_ & _ & _ & Hid & Hrec & Hfr & Hmo & _).
  cbn [fst snd] in *. rewrite Hid, Hrec, Hfr, Hmo. reflexivity.
Qed.

Lemma coluna_F u :
  In (Some u) xF <-> exists o, In o rfm /\ u = inject_Z (RFM.Frequencia o).
Proof.
  unfold xF. rewrite <- clientes_sao_linhas, map_map. cbn [fst snd].
  rewrite in_map_iff. split.
  - intros [o [E Ho]]. exists o. inversion E. auto.
  - intros [o [Ho ->]]. exists o. auto.
Qed.

Lemma coluna_M u :
  In (Some u) xM <-> exists o, In o rfm /\ u = RFM.Monetario o.
Proof.
  unfold xM. rewrite <- clientes_sao_linhas, map_map. cbn [fst snd].
  rewrite in_map_iff. split.
  - intros [o [E Ho]]. exists o. inversion E. auto.
  - intros [o [Ho ->]]. exists o. auto.
Qed.

Lemma coluna_R u :
  In (Some u) xR <->
  exists o r, In o rfm /\ RFM.Recencia o = Some r /\ u = inject_Z r.
Proof.
  unfold xR. rewrite <- clientes_sao_linhas, map_map. cbn [fst snd].
  rewrite in_map_iff. split.
  - intros [o [E Ho]]. destruct (RFM.Recencia o) as [r |] eqn:Er; [| discriminate].
    exists o, r. inversion E. auto.
  - intros [o [r [Ho [Er ->]]]]. exists o. rewrite Er. auto.
Qed.

(** The three scores of a row as bin indices of its own values. *)
Lemma pontos_por_indice row :
  In row rfm ->
  RFM.F_Score row
  = Some (Z.of_nat (indice (arestas xF 5) (Some (inject_Z (RFM.Frequencia row))))) /\
  RFM.M_Score row
  = Some (Z.of_nat (indice (arestas xM 5) (Some (RFM.Monetario row)))) /\
  (forall r, RFM.Recencia row = Some r ->
             RFM.R_Score row
             = Some (6 - Z.of_nat (indice (arestas xR 5) (Some (inject_Z r))))) /\
  (RFM.Recencia row = None -> RFM.R_Score row = None).
Proof.
  intros Hrow.
  destruct (rfm_de_pontos hoje vs rfm row pontuada Hrow)
    as ([rs ER] & [fs EF] & [ms EM] & _ & SR & SF & SM).
  fold cl in ER, EF, EM, SR, SF, SM. fold xR in ER, SR. fold xF in EF, SF.
  fold xM in EM, SM.
  destruct (indice_sucesso _ _ _ EF eq_refl) as (LF & BF & _).
  destruct (indice_sucesso _ _ _ EM eq_refl) as (LM & BM & _).
  destruct (indice_sucesso _ _ _ ER eq_refl) as (LR & BR & _).
  split; [| split; [| split]].
  - rewrite SF. apply rotular_asc; [exact LF |].
    apply BF, coluna_F. exists row. auto.
  - rewrite SM. apply rotular_asc; [exact LM |].
    apply BM, coluna_M. exists row. auto.
  - intros r Er. rewrite SR, Er. cbn [option_map].
    apply rotular_desc; [exact LR |].
    apply BR, coluna_R. exists row, r. auto.
  - intros Er. rewrite SR, Er. reflexivity.
Qed.

End TabelaPontuada.

(** X14.  In a scored RFM table every customer has an F score and an M
    score between 1 and 5; the R score is between 1 and 5 when the customer
    has a dated sale and missing otherwise.  No score is ever missing for a
    value that is present. *)
Theorem pontos_definidos hoje vs rfm row :
  rfm_de hoje vs = inr rfm ->
  In row rfm ->
  (exists f, RFM.F_Score row = Some f /\ 1 <= f <= 5) /\
  (exists m, RFM.M_Score row = Some m /\ 1 <= m <= 5) /\
  (forall r, RFM.Recencia row = Some r ->
             exists k, RFM.R_Score row = Some k /\ 1 <= k <= 5) /\
  (RFM.Recencia row = None -> RFM.R_Score row = None).
Proof.
  intros pontuada Hrow.
  destruct (pontos_por_indice hoje vs rfm pontuada row Hrow) as (SF & SM & SR & SN).
  destruct (rfm_de_pontos hoje vs rfm row pontuada Hrow)
    as ([rs ER] & [fs EF] & [ms EM] & _).
  destruct (indice_sucesso _ _ _ EF eq_refl) as (_ & BF & _).
  destruct (indice_sucesso _ _ _ EM eq_refl) as (_ & BM & _).
  destruct (indice_sucesso _ _ _ ER eq_refl) as (_ & BR & _).
  split; [| split; [| split]].
  - eexists. split; [exact SF |].
    assert (B := BF (inject_Z (RFM.Frequencia row))
                    (proj2 (coluna_F hoje vs rfm pontuada _) (ex_intro _ row (conj Hrow eq_refl)))).
    lia.
  - eexists. split; [exact SM |].
    assert (B := BM (RFM.Monetario row)
                    (proj2 (coluna_M hoje vs rfm pontuada _) (ex_intro _ row (conj Hrow eq_refl)))).
    lia.
  - intros r Er. eexists. split; [exact (SR r Er) |].
    assert (B := BR (inject_Z r)
                    (proj2 (coluna_R hoje vs rfm pontuada _)
                       (ex_intro _ row (ex_intro _ r (conj Hrow (conj Er eq_refl)))))).
    lia.
  - exact SN.
Qed.

(** X15.  The scores follow the values.  Of two customers of a scored
    table, the one who bought at least as often has at least the F score of
    the other, the one who spent at least as much has at least the M score,
    and the one whose latest sale is at least as recent has at least the
    R score. *)
Theorem pontos_monotonos hoje vs rfm a b :
  rfm_de hoje vs = inr rfm ->
  In a rfm -> In b rfm ->
  (RFM.Frequencia a <= RFM.Frequencia b ->
   exists fa fb, RFM.F_Score a = Some fa /\ RFM.F_Score b = Some fb /\ fa <= fb) /\
  ((RFM.Monetario a <= RFM.Monetario b)%Q ->
   exists ma mb, RFM.M_Score a = Some ma /\ RFM.M_Score b = Some mb /\ ma <= mb) /\
  (forall ra rb,
      RFM.Recencia a = Some ra -> RFM.Recencia b = Some rb -> ra <= rb ->
      exists ka kb, RFM.R_Score a = Some ka /\ RFM.R_Score b = Some kb /\ kb <= ka).
Proof.
  intros pontuada Ha Hb.
  destruct (pontos_por_indice hoje vs rfm pontuada a Ha) as (SFa & SMa & SRa & _).
  destruct (pontos_por_indice hoje vs rfm pontuada b Hb) as (SFb & SMb & SRb & _).
  destruct (rfm_de_pontos hoje vs rfm a pontuada Ha)
    as ([rs ER] & [fs EF] & [ms EM] & _).
  destruct (indice_sucesso _ _ _ EF eq_refl) as (_ & _ & MF & _).
  destruct (indice_sucesso _ _ _ EM eq_refl) as (_ & _ & MM & _).
  destruct (indice_sucesso _ _ _ ER eq_refl) as (_ & _ & MR & _).
  split; [| split].
  - intros Hle. eexists _, _. split; [exact SFa |]. split; [exact SFb |].
    apply inj_le. apply MF.
    + apply (coluna_F hoje vs rfm pontuada). exists a. auto.
    + apply (coluna_F hoje vs rfm pontuada). exists b. auto.
    + rewrite <- Zle_Qle. exact Hle.
  - intros Hle. eexists _, _. split; [exact SMa |]. split; [exact SMb |].
    apply inj_le. apply MM.
    + apply (coluna_M hoje vs rfm pontuada). exists a. auto.
    + apply (coluna_M hoje vs rfm pontuada). exists b. auto.
    + exact Hle.
  - intros ra rb Ea Eb Hle. eexists _, _.
    split; [exact (SRa ra Ea) |]. split; [exact (SRb rb Eb) |].
    assert (Hq : (inject_Z ra <= inject_Z rb)%Q) by (rewrite <- Zle_Qle; exact Hle).
    assert (M := MR (inject_Z ra) (inject_Z rb)
                    (proj2 (coluna_R hoje vs rfm pontuada _)
                       (ex_intro _ a (ex_intro _ ra (conj Ha (conj Ea eq_refl)))))
                    (proj2 (coluna_R hoje vs rfm pontuada _)
                       (ex_intro _ b (ex_intro _ rb (conj Hb (conj Eb eq_refl)))))
                    Hq).
    lia.
Qed.

(** X16.  In a scored RFM table the extremes get the extreme scores: the
    customers with the highest frequency have F score 5 and those with the
    lowest have 1, likewise the M score for the monetary value, and the
    customers with the most recent latest sale have R score 5, those with
    the oldest have 1. *)
Theorem pontos_dos_extremos hoje vs rfm row :
  rfm_de hoje vs = inr rfm ->
  In row rfm ->
  ((forall o, In o rfm -> RFM.Frequencia o <= RFM.Frequencia row) ->
   RFM.F_Score row = Some 5) /\
  ((forall o, In o rfm -> RFM.Frequencia row <= RFM.Frequencia o) ->
   RFM.F_Score row = Some 1) /\
  ((forall o, In o rfm -> (RFM.Monetario o <= RFM.Monetario row)%Q) ->
   RFM.M_Score row = Some 5) /\
  ((forall o, In o rfm -> (RFM.Monetario row <= RFM.Monetario o)%Q) ->
   RFM.M_Score row = Some 1) /\
  (forall r, RFM.Recencia row = Some r ->
     (forall o r', In o rfm -> RFM.Recencia o = Some r' -> r <= r') ->
     RFM.R_Score row = Some 5) /\
  (forall r, RFM.Recencia row = Some r ->
     (forall o r', In o rfm -> RFM.Recencia o = Some r' -> r' <= r) ->
     RFM.R_Score row = Some 1).
Proof.
  intros pontuada Hrow.
  destruct (pontos_por_indice hoje vs rfm pontuada row Hrow) as (SF & SM & SR & _).
  destruct (rfm_de_pontos hoje vs rfm row pontuada Hrow)
    as ([rs ER] & [fs EF] & [ms EM] & _).
  destruct (indice_sucesso _ _ _ EF eq_refl) as (_ & _ & _ & F1 & F5).
  destruct (indice_sucesso _ _ _ EM eq_refl) as (_ & _ & _ & M1 & M5).
  destruct (indice_sucesso _ _ _ ER eq_refl) as (_ & _ & _ & R1 & R5).
  pose proof (proj2 (coluna_F hoje vs rfm pontuada (inject_Z (RFM.Frequencia row)))
                (ex_intro _ row (conj Hrow eq_refl))) as InF.
  pose proof (proj2 (coluna_M hoje vs rfm pontuada (RFM.Monetario row))
                (ex_intro _ row (conj Hrow eq_refl))) as InM.
  repeat split.
  - intros Hmax. rewrite SF, (F5 _ InF); [reflexivity |].
    intros u Hu. apply (coluna_F hoje vs rfm pontuada) in Hu. destruct Hu as [o [Ho ->]].
    rewrite <- Zle_Qle. apply Hmax, Ho.
  - intros Hmin. rewrite SF, (F1 _ InF); [reflexivity |].
    intros u Hu. apply (coluna_F hoje vs rfm pontuada) in Hu. destruct Hu as [o [Ho ->]].
    rewrite <- Zle_Qle. apply Hmin, Ho.
  - intros Hmax. rewrite SM, (M5 _ InM); [reflexivity |].
    intros u Hu. apply (coluna_M hoje vs rfm pontuada) in Hu. destruct Hu as [o [Ho ->]]. apply Hmax, Ho.
  - intros Hmin. rewrite SM, (M1 _ InM); [reflexivity |].
    intros u Hu. apply (coluna_M hoje vs rfm pontuada) in Hu. destruct Hu as [o [Ho ->]]. apply Hmin, Ho.
  - intros r Er Hmin.
    pose proof (proj2 (coluna_R hoje vs rfm pontuada (inject_Z r))
                  (ex_intro _ row (ex_intro _ r (conj Hrow (conj Er eq_refl)))))
      as InR.
    rewrite (SR r Er), (R1 _ InR); [reflexivity |].
    intros u Hu. apply (coluna_R hoje vs rfm pontuada) in Hu. destruct Hu as [o [r' [Ho [Eo ->]]]].
    rewrite <- Zle_Qle. apply (Hmin o r' Ho Eo).
  - intros r Er Hmax.
    pose proof (proj2 (coluna_R hoje vs rfm pontuada (inject_Z r))
                  (ex_intro _ row (ex_intro _ r (conj Hrow (conj Er eq_refl)))))
      as InR.
    rewrite (SR r Er), (R5 _ InR); [reflexivity |].
    intros u Hu. apply (coluna_R hoje vs rfm pontuada) in Hu. destruct Hu as [o [r' [Ho [Eo ->]]]].
    rewrite <- Zle_Qle. apply (Hmax o r' Ho Eo).
Qed.

Lemma pontos_definidos_witness :
  match rfm_de relogio_ex vendas_ex_tipadas with
  | inr (row :: _) => exists f, RFM.F_Score row = Some f /\ 1 <= f <= 5
  | _ => False
  end.
Proof.
  destruct (rfm_de relogio_ex vendas_ex_tipadas) as [e | [| row rest]] eqn:E;
    try (vm_compute in E; discriminate).
  exact (proj1 (pontos_definidos relogio_ex vendas_ex_tipadas (row :: rest) row E
                  (or_introl eq_refl))).
Defined.

Lemma pontos_monotonos_witness :
  match rfm_de relogio_ex vendas_ex_tipadas with
  | inr (r1 :: r2 :: _) =>
      exists fa fb, RFM.F_Score r2 = Some fa /\ RFM.F_Score r1 = Some fb /\ fa <= fb
  | _ => False
  end.
Proof.
  destruct (rfm_de relogio_ex vendas_ex_tipadas) as [e | [| r1 [| r2 rest]]] eqn:E;
    try (vm_compute in E; discriminate).
  refine (proj1 (pontos_monotonos relogio_ex vendas_ex_tipadas (r1 :: r2 :: rest)
                   r2 r1 E _ _) _).
  - right. left. reflexivity.
  - left. reflexivity.
  - vm_compute in E. inversion E; subst r1 r2 rest. cbn. lia.
Defined.

Lemma pontos_dos_extremos_witness :
  match rfm_de relogio_ex vendas_ex_tipadas with
  | inr (r1 :: _) => RFM.F_Score r1 = Some 5
  | _ => False
  end.
Proof.
  destruct (rfm_de relogio_ex vendas_ex_tipadas) as [e | [| r1 rest]] eqn:E;
    try (vm_compute in E; discriminate).
  refine (proj1 (pontos_dos_extremos relogio_ex vendas_ex_tipadas (r1 :: rest)
                   r1 E (or_introl eq_refl)) _).
  vm_compute in E. inversion E; subst r1 rest.
  intros o [<- | [<- | []]]; cbn; lia.
Defined.

(* ===================================================================== *)
(** * The orchestrator and the query layer *)
(* ===================================================================== *)

(** X17.  [check_dependencies] asks for a module under each of the six
    names of its list, and one of them is "scikit-learn", the name of the
    distribution, whose module is [sklearn].  Wherever no module has that
    name the check fails, whatever else is installed, and [main] leaves
    with exit code 1 before it runs any script. *)
Theorem main_para_nas_dependencias importavel ambiente :
  importavel "scikit-learn" = false ->
  check_dependencies importavel = false /\
  main importavel ambiente = ([], Saiu 1).
Proof.
  intros H.
  assert (C : check_dependencies importavel = false).
  { unfold check_dependencies, required_packages. cbn [filter].
    rewrite H. cbn [negb].
    destruct (negb (importavel "pandas")), (negb (importavel "numpy")),
      (negb (importavel "faker")); reflexivity. }
  split; [exact C |]. unfold main. rewrite C. reflexivity.
Qed.

Lemma main_para_nas_dependencias_witness :
  main (fun p => negb (String.eqb p "scikit-learn")) (fun _ => Terminou 0)
  = ([], Saiu 1).
Proof.
  refine (proj2 (main_para_nas_dependencias
                   (fun p => negb (String.eqb p "scikit-learn"))
                   (fun _ => Terminou 0) _)).
  reflexivity.
Defined.

(** ** Monthly sales endpoint *)

Lemma par_ltb_asym a b : par_ltb a b = true -> par_ltb b a = false.
Proof.
  intros H. destruct (par_ltb b a) eqn:E; [| reflexivity].
  pose proof (par_ltb_trans _ _ _ H E) as T.
  rewrite par_ltb_irrefl in T. discriminate.
Qed.

Lemma In_insere_desc x m l : In x (insere_desc m l) <-> x = m \/ In x l.
Proof.
  induction l as [| y r IH]; cbn.
  - intuition.
  - destruct (par_ltb (chave_de m) (chave_de y)); cbn; [rewrite IH |]; intuition.
Qed.

Lemma In_ordena_desc x l : In x (ordena_desc l) <-> In x l.
Proof.
  unfold ordena_desc. induction l as [| m l IH]; cbn; [tauto |].
  rewrite In_insere_desc, IH. intuition.
Qed.

Lemma insere_desc_HdRel y m r :
  HdRel nao_antes y r -> nao_antes y m -> HdRel nao_antes y (insere_desc m r).
Proof.
  intros Hr Hm. destruct r as [| z r]; cbn; [constructor; exact Hm |].
  destruct (par_ltb (chave_de m) (chave_de z)); constructor; [| exact Hm].
  inversion Hr. assumption.
Qed.

Lemma ordena_desc_sorted l : Sorted nao_antes (ordena_desc l).
Proof.
  unfold ordena_desc. induction l as [| m l IH]; cbn; [constructor |].
  induction IH as [| y r Hr IHr Hd]; cbn.
  - constructor; constructor.
  - destruct (par_ltb (chave_de m) (chave_de y)) eqn:E.
    + constructor; [exact IHr |]. apply insere_desc_HdRel; [exact Hd |].
      unfold nao_antes. apply par_ltb_asym. exact E.
    + constructor; [constructor; assumption |]. constructor. exact E.
Qed.

Lemma Sorted_firstn {A} (R : A -> A -> Prop) n l :
  Sorted R l -> Sorted R (firstn n l).
Proof.
  intros H. revert n. induction H as [| x l Hl IH Hd]; intros n.
  - rewrite firstn_nil. constructor.
  - destruct n as [| n]; cbn; [constructor |].
    constructor; [apply IH |].
    destruct l as [| y l]; [rewrite firstn_nil; constructor |].
    destruct n; cbn; constructor. inversion Hd. assumption.
Qed.

Lemma em_firstn {A} (x : A) n l : In x (firstn n l) -> In x l.
Proof.
  revert n. induction l as [| y l IH]; intros n H.
  - rewrite firstn_nil in H. exact H.
  - destruct n as [| n]; cbn in H; [destruct H |].
    destruct H as [H | H]; [left; exact H | right; exact (IH n H)].
Qed.

Lemma head_firstn {A} n (l : list A) : exists k, head n l = firstn k l.
Proof. unfold head. destruct (0 <=? n)%Z; eexists; reflexivity. Qed.

(** X18.  A successful answer of [GET /vendas/mensais] holds at most
    [limit] months (for a [limit] that is not negative; it is never above
    100), all of the year asked for when a non-zero year is given, taken
    from the monthly file and listed from the latest (year, month) to the
    earliest. *)
Theorem vendas_mensais_resposta dim_produto_ok d ano limit corpo :
  get_vendas_mensais dim_produto_ok d ano limit = Ok200 corpo ->
  limit <= 100 /\
  (0 <= limit -> (List.length corpo <= Z.to_nat limit)%nat) /\
  (forall a, ano = Some a -> a <> 0 ->
             forall r, In r corpo -> VendaMensal.ano r = a) /\
  (forall r, In r corpo ->
             exists vm m, vendas_mensais_csv d = Some vm /\ In m vm /\
                          r = venda_mensal m) /\
  (forall i r1 r2,
      nth_error corpo i = Some r1 -> nth_error corpo (S i) = Some r2 ->
      ~ mes_antes (VendaMensal.ano r1, VendaMensal.mes r1)
                  (VendaMensal.ano r2, VendaMensal.mes r2)).
Proof.
  unfold get_vendas_mensais. intros H.
  destruct (100 <? limit)%Z eqn:L; [discriminate |]. apply Z.ltb_ge in L.
  destruct (carregar_dados dim_produto_ok d) as [[[fato rfm] vm] |] eqn:C;
    [| discriminate].
  assert (Hvm : vendas_mensais_csv d = Some vm).
  { unfold carregar_dados in C.
    destruct (fato_vendas_csv d); [| discriminate].
    destruct (negb dim_produto_ok); [discriminate |].
    destruct (rfm_clientes_csv d); [| discriminate].
    destruct (vendas_mensais_csv d); [| discriminate].
    inversion C. reflexivity. }
  set (filtradas := match ano with
                    | Some a => if (a =? 0)%Z then vm
                                else filter (fun m => (Mensal.Ano m =? a)%Z) vm
                    | None => vm
                    end) in H.
  inversion H as [Hc]; clear H.
  destruct (head_firstn limit (ordena_desc filtradas)) as [k Hk].
  split; [exact L |]. split; [| split; [| split]].
  - intros Hpos. rewrite length_map. unfold head.
    destruct (0 <=? limit)%Z eqn:P; [| apply Z.leb_gt in P; lia].
    apply firstn_le_length.
  - intros a -> Ha r Hr. apply in_map_iff in Hr. destruct Hr as [m [<- Hm]].
    rewrite Hk in Hm. apply em_firstn in Hm. apply (proj1 (In_ordena_desc _ _)) in Hm.
    unfold filtradas in Hm. apply Z.eqb_neq in Ha. rewrite Ha in Hm.
    apply (proj1 (filter_In _ _ _)) in Hm. destruct Hm as [_ Hm]. apply Z.eqb_eq in Hm.
    exact Hm.
  - intros r Hr. apply in_map_iff in Hr. destruct Hr as [m [<- Hm]].
    rewrite Hk in Hm. apply em_firstn in Hm. apply (proj1 (In_ordena_desc _ _)) in Hm.
    exists vm, m. split; [exact Hvm |]. split; [| reflexivity].
    unfold filtradas in Hm. destruct ano as [a |]; [| exact Hm].
    destruct (a =? 0)%Z; [exact Hm |]. apply (proj1 (filter_In _ _ _)) in Hm. apply Hm.
  - intros i r1 r2 H1 H2. rewrite nth_error_map in H1, H2.
    destruct (nth_error (head limit (ordena_desc filtradas)) i) as [m1 |] eqn:N1;
      [| discriminate].
    destruct (nth_error (head limit (ordena_desc filtradas)) (S i)) as [m2 |] eqn:N2;
      [| discriminate].
    inversion H1; subst r1. inversion H2; subst r2. cbn.
    rewrite Hk in N1, N2.
    pose proof (Sorted_adjacentes nao_antes _ i m1 m2
                  (Sorted_firstn nao_antes k _ (ordena_desc_sorted filtradas)) N1 N2)
      as S.
    unfold nao_antes in S. intros Hlt.
    apply par_ltb_mes_antes in Hlt. unfold chave_de in S. congruence.
Qed.

Lemma vendas_mensais_resposta_witness :
  match get_vendas_mensais true
          (mkSaida (Some (vendas_mensais_de vendas_ex_tipadas)) (Some []) (Some [])
                   (Some (mkFato [] None None None None)))
          (Some 2022) 5 with
  | Ok200 corpo => (List.length corpo <= 5)%nat
  | Erro _ => False
  end.
Proof.
  destruct (get_vendas_mensais _ _ _ _) as [corpo | st] eqn:E;
    [| vm_compute in E; discriminate].
  refine (proj1 (proj2 (vendas_mensais_resposta _ _ _ _ corpo E)) _). lia.
Defined.

Lemma insere_desc_fim m l :
  Forall (fun y => par_ltb (chave_de m) (chave_de y) = true) l ->
  insere_desc m l = (l ++ [m])%list.
Proof.
  induction 1 as [| y r Hy Hr IH]; cbn; [reflexivity |].
  rewrite Hy, IH. reflexivity.
Qed.

Lemma ordena_desc_rev l :
  StronglySorted (fun a b => par_ltb (chave_de a) (chave_de b) = true) l ->
  ordena_desc l = rev l.
Proof.
  unfold ordena_desc. induction 1 as [| x r Hr IH Hall]; cbn; [reflexivity |].
  rewrite IH. apply insere_desc_fim.
  apply Forall_forall. intros y Hy. apply in_rev in Hy.
  rewrite Forall_forall in Hall. apply Hall. exact Hy.
Qed.

Lemma StronglySorted_filter {A} (R : A -> A -> Prop) p l :
  StronglySorted R l -> StronglySorted R (filter p l).
Proof.
  induction 1 as [| x r Hr IH Hall]; cbn; [constructor |].
  destruct (p x); [| exact IH].
  constructor; [exact IH |].
  apply Forall_forall. intros y Hy. apply filter_In in Hy.
  rewrite Forall_forall in Hall. apply Hall. apply Hy.
Qed.

Lemma vendas_mensais_crescentes vs :
  StronglySorted (fun a b => par_ltb (chave_de a) (chave_de b) = true)
                 (vendas_mensais_de vs).
Proof.
  pose proof (crescente_chaves par_eqb par_ltb par_eqb_eq par_ltb_trans
                par_ltb_total (dropna (map chave_mensal vs))) as H.
  rewrite <- chaves_mensais in H.
  induction (vendas_mensais_de vs) as [| m r IH]; [constructor |].
  cbn in H. inversion H as [| k ks Hr Hall]; subst.
  constructor; [apply IH; exact Hr |].
  apply Forall_forall. intros y Hy. rewrite Forall_forall in Hall.
  apply (Hall (chave_de y)). apply in_map_iff. exists y. split; [reflexivity | exact Hy].
Qed.

Lemma filtro_do_ano ano vm :
  match ano with
  | None => vm
  | Some a => if (a =? 0)%Z then vm else filter (fun m => (Mensal.Ano m =? a)%Z) vm
  end = filter (do_ano ano) vm.
Proof.
  assert (T : filter (fun _ : Mensal.t => true) vm = vm).
  { induction vm as [| m r IH]; cbn; [| rewrite IH]; reflexivity. }
  destruct ano as [a |]; unfold do_ano; [| symmetry; exact T].
  destruct (a =? 0)%Z; cbn [orb]; [symmetry; exact T | reflexivity].
Qed.

(** X19.  After a run of the pipeline that returned True, a request to
    [GET /vendas/mensais] with a [limit] between 0 and 100 succeeds, and
    its body is the first [limit] rows of the monthly table that
    [transform] built, read from its last row backwards and restricted to
    the year asked for (a year of 0, like no year, restricts nothing): the
    most recent months, newest first. *)
Theorem meses_mais_recentes sort_values agora e d d' ano limit :
  run_completo sort_values agora e d = (true, d') ->
  0 <= limit <= 100 ->
  exists df vs,
    extract e = Some df /\
    colunas_numericas df = inr vs /\
    get_vendas_mensais true d' ano limit
    = Ok200 (map venda_mensal
               (firstn (Z.to_nat limit)
                       (rev (filter (do_ano ano) (vendas_mensais_de vs))))).
Proof.
  unfold run_completo. intros Hrun [L0 L1].
  destruct (extract e) as [df |] eqn:Ex; [| discriminate].
  destruct (run_true_inv _ _ _ _ _ Hrun) as (self' & Et & Hf & Hm & Hr & _).
  destruct (transform_true_inv _ _ _ _ Et) as (datas & vs & rfm & _ & Hn & _ & Es).
  exists df, vs. split; [reflexivity |]. split; [exact Hn |].
  subst self'. cbn in Hm, Hr.
  unfold get_vendas_mensais, carregar_dados.
  rewrite Hf, Hm, Hr. cbn [negb].
  destruct (100 <? limit)%Z eqn:L; [apply Z.ltb_lt in L; lia |].
  rewrite filtro_do_ano. unfold head.
  destruct (0 <=? limit)%Z eqn:P; [| apply Z.leb_gt in P; lia].
  rewrite ordena_desc_rev;
    [reflexivity | apply StronglySorted_filter; apply vendas_mensais_crescentes].
Qed.

Lemma meses_mais_recentes_witness :
  exists df vs,
    extract (mkEntrada true true true true true (Some vendas_ex)) = Some df /\
    colunas_numericas df = inr vs /\
    get_vendas_mensais true
      (snd (run_completo sort_estavel relogio_ex
              (mkEntrada true true true true true (Some vendas_ex)) nada_escrito))
      (Some 2022) 1
    = Ok200 (map venda_mensal
               (firstn (Z.to_nat 1)
                       (rev (filter (do_ano (Some 2022)) (vendas_mensais_de vs))))).
Proof.
  refine (meses_mais_recentes sort_estavel relogio_ex
            (mkEntrada true true true true true (Some vendas_ex)) nada_escrito
            _ (Some 2022) 1 _ _).
  - vm_compute. reflexivity.
  - lia.
Defined.
